(** * Radial Branch Generator: seeded layout and animation timeline

    A shallow embedding of the radial branch generator of AE_Scripts
    (the second, animated version of [radialBranchGenerator]) and the
    properties of its seeded generator, tree builder and timeline scheduler;
    then of the functions of its dialog that read numbers and colours, and
    of the data of the candlestick chart that the same file builds.

    Numbers.  The script computes with JavaScript numbers.  The state of
    the random generator only ever holds integers below 2^53, where
    JavaScript arithmetic is exact, and is modelled in [Z] ([%] is the
    truncated remainder [Z.rem]).  Every other quantity (angles, radii,
    times, prices, colour components) is modelled as an exact rational in
    [Q]: rounding of binary floating point is not modelled.  The one
    exception is [Binary64.computeRadius], which repeats the sum of
    [computeRadius] over binary64 numbers to show where rounding parts the
    script from the rationals.  A packed colour is an integer and its
    bitwise operators act on 32-bit signed integers.

    Runs.  [generateStructure] and [applyBranchAnimation] each create their
    generator from the seed on entry and keep nothing from one run to the
    next: a run is a function of the options, and is written as one.

    Objects.  Nodes and connection lines are JavaScript objects that
    reference one another and are mutated in place.  They live here in
    two arrays of a store and reference one another by position.

    Host.  Layers, effects and expression strings are created through the
    host's scripting interface and are left out, and with them
    [reorderGeneratedLayers]; of the two functions that write expressions
    the model keeps the two numbers each formats with [toFixed(3)].  What
    the host returns when asked ([Math.cos], [Math.sin], [Math.random],
    the parsed text of a field) is a parameter. *)
From Stdlib Require Import ZArith QArith Qminmax Lia Lqa Bool.
From stdpp Require Import list.
From Stdlib Require Import Qround.
From Stdlib Require String DecimalString DecimalNat.
From Stdlib Require PrimFloat.
Import String.StringSyntax.

Local Open Scope Q_scope.

(** ** Comparisons of numbers

    [x < y]; [x > y] is written [Qlt_bool y x], and [x <= y] is [Qle_bool]. *)

Definition Qlt_bool (x y : Q) : bool := negb (Qle_bool y x).

(** ** Options

    The record [readOptions] builds from the dialog, without the name,
    size, duration and frame rate of a new composition and without the
    three colours, which the functions below do not read.  The three
    counts are clamped to at least 1 by the dialog and are natural
    numbers.  Every field is defined, so the fall-backs of
    [applyBranchAnimation] on [ANIMATION_DEFAULTS] are never taken. *)

Record Options := mkOptions {
  initialLines : nat;
  levels : nat;
  childrenPerNode : nat;
  baseRadius : Q;
  radiusStep : Q;
  radiusJitter : Q;
  angleJitter : Q;
  branchSpread : Q;
  circleSize : Q;
  lineWidth : Q;
  lineDuration : Q;
  nodeDuration : Q;
  childStagger : Q;
  randomOffset : Q;
  curveTension : Q;
  curveRandomness : Q;
  seed : Z;
  make3D : bool;
  simultaneousRoot : bool;
  smoothFlow : bool;
  useCurves : bool
}.

Definition DEFAULTS : Options := {|
  initialLines := 12;
  levels := 3;
  childrenPerNode := 2;
  baseRadius := 250;
  radiusStep := 180;
  radiusJitter := 40;
  angleJitter := 8;
  branchSpread := 60;
  circleSize := 26;
  lineWidth := 4;
  seed := 12345;
  make3D := false;
  simultaneousRoot := false;
  lineDuration := 35 # 100;
  nodeDuration := 22 # 100;
  childStagger := 5 # 100;
  randomOffset := 6 # 100;
  smoothFlow := true;
  useCurves := false;
  curveTension := 45 # 100;
  curveRandomness := 35 # 100
|}.

(** ** The seeded generator

    [createRng] returns an object that closes over the mutable [value];
    the model passes that value explicitly: [next] and [range] return the
    draw together with the new value. *)

Definition Rng := Z.

Definition createRng (seed : Z) : Rng :=
  let value := Z.rem seed 2147483647 in
  if (value <=? 0)%Z then (value + 2147483646)%Z else value.

Definition next (value : Rng) : Q * Rng :=
  let value := Z.rem (value * 16807) 2147483647 in
  (inject_Z (value - 1) / inject_Z 2147483646, value).

Definition range (minValue maxValue : Q) (value : Rng) : Q * Rng :=
  let (u, value) := next value in
  (minValue + (maxValue - minValue) * u, value).

(** ** Geometry *)

Definition computeRadius (level : nat) (opts : Options) (rng : Rng) : Q * Rng :=
  let base := baseRadius opts + inject_Z (Z.of_nat level - 1) * radiusStep opts in
  let (jitter, rng) :=
    if Qlt_bool 0 (radiusJitter opts)
    then range (- radiusJitter opts) (radiusJitter opts) rng
    else (0, rng) in
  let radius := Qmax 5 (base + jitter) in
  (radius, rng).

(** The same three lines over binary64 numbers, as the script computes
    them.  [jitter] is the value the second line gives it: 0 when
    [radiusJitter] is not positive.  [Math.max(5, x)] is [x] when [x] is
    not a number. *)
Module Binary64.
Import PrimFloat.

Definition computeRadius (level baseRadius radiusStep jitter : float) : float :=
  let base := (baseRadius + (level - 1) * radiusStep)%float in
  let sum := (base + jitter)%float in
  let radius := if is_nan sum then sum else if (5 <? sum)%float then sum else 5%float in
  radius.

End Binary64.

(** ** Nodes, connection lines and the store

    A node is the object [addNode] returns and a line the object
    [addConnectionLine] returns, without their handles on host layers.
    References between them ([parent], [children], [incomingLine],
    [parentNode], [childNode]) are positions in the arrays of the store.
    [startTime] and [endTime] of a line do not exist before the scheduler
    writes them. *)

Record Node := mkNode {
  id : nat;
  level : nat;
  angle : Q;
  radius : Q;
  parent : option nat;
  children : list nat;
  incomingLine : option nat;
  inTime : Q;
  outTime : Q;
  animStart : Q;
  animEnd : Q
}.

Record LineInfo := mkLineInfo {
  parentNode : nat;
  childNode : nat;
  startTime : option Q;
  endTime : option Q
}.

Record Store := mkStore {
  nodes : list Node;
  lineInfos : list LineInfo
}.

Definition pushChild (ref : nat) (n : Node) : Node :=
  mkNode (id n) (level n) (angle n) (radius n) (parent n)
         (children n ++ [ref]) (incomingLine n)
         (inTime n) (outTime n) (animStart n) (animEnd n).

Definition setIncoming (p ref : nat) (n : Node) : Node :=
  mkNode (id n) (level n) (angle n) (radius n) (Some p)
         (children n) (Some ref)
         (inTime n) (outTime n) (animStart n) (animEnd n).

Definition setTimes (s e : Q) (n : Node) : Node :=
  mkNode (id n) (level n) (angle n) (radius n) (parent n)
         (children n) (incomingLine n) s e s e.

Definition setLineTimes (s e : Q) (l : LineInfo) : LineInfo :=
  mkLineInfo (parentNode l) (childNode l) (Some s) (Some e).

(** [addNode] allocates the node object; the result is its reference. *)
Definition addNode (st : Store) (angle radius : Q) (level id : nat) : nat * Store :=
  let node := mkNode id level angle radius None [] None 0 0 0 0 in
  (length (nodes st), mkStore (nodes st ++ [node]) (lineInfos st)).

(** [addConnectionLine] allocates the line object, pushes it on the
    parent's [children] and records it in the child. *)
Definition addConnectionLine (st : Store) (parentNode childNode : nat) : nat * Store :=
  let ref := length (lineInfos st) in
  let lineInfo := mkLineInfo parentNode childNode None None in
  let ns := alter (pushChild ref) parentNode (nodes st) in
  let ns := alter (setIncoming parentNode ref) childNode ns in
  (ref, mkStore ns (lineInfos st ++ [lineInfo])).

(** ** The tree builder

    The variables of [generateStructure] that its loops update. *)

Record Gen := mkGen {
  rng : Rng;
  store : Store;
  nodeSerial : nat;
  connectionSerial : nat;
  nodeLevels : list (list nat);
  levelNodes : list nat
}.

Definition angleJitterDraw (opts : Options) (rng : Rng) : Q * Rng :=
  if Qlt_bool 0 (angleJitter opts)
  then range (- angleJitter opts) (angleJitter opts) rng
  else (0, rng).

(** The statements both loops share once the angle is known: radius, node,
    push on [levelNodes], connection line. *)
Definition placeChild (opts : Options) (level parentNode : nat) (angle : Q)
    (rng : Rng) (g : Gen) : Gen :=
  let (radius, rng) := computeRadius level opts rng in
  let (childNode, st) := addNode (store g) angle radius level (nodeSerial g) in
  let (_, st) := addConnectionLine st parentNode childNode in
  mkGen rng st (S (nodeSerial g)) (S (connectionSerial g))
        (nodeLevels g) (levelNodes g ++ [childNode]).

(** Body of the loop over [i] at level 1. *)
Definition rootChild (opts : Options) (centerNode : nat) (angleStep : Q)
    (g : Gen) (i : nat) : Gen :=
  let baseAngle := angleStep * inject_Z (Z.of_nat i) in
  let (jitter, rng) := angleJitterDraw opts (rng g) in
  let angle := baseAngle + jitter in
  placeChild opts 1 centerNode angle rng g.

(** Body of the loop over [c] below level 1. *)
Definition branchChild (opts : Options) (level parentNode : nat)
    (g : Gen) (c : nat) : Gen :=
  let spread := branchSpread opts in
  let normalized :=
    if (1 <? childrenPerNode opts)%nat
    then inject_Z (Z.of_nat c) / inject_Z (Z.of_nat (childrenPerNode opts) - 1) - (1 # 2)
    else 0 in
  let offset := spread * normalized in
  let (jitterChild, rng) := angleJitterDraw opts (rng g) in
  let parentAngle := from_option angle 0 (nodes (store g) !! parentNode) in
  let angleChild := parentAngle + offset + jitterChild in
  placeChild opts level parentNode angleChild rng g.

(** Body of the loop over [level].  [nodes[level] = levelNodes] writes at
    the length of the array, which it extends. *)
Definition growLevel (opts : Options) (centerNode : nat) (g : Gen) (level : nat) : Gen :=
  let parentNodes := default [] (nodeLevels g !! (level - 1)%nat) in
  let g := mkGen (rng g) (store g) (nodeSerial g) (connectionSerial g) (nodeLevels g) [] in
  let g :=
    if (level =? 1)%nat then
      let childCount := initialLines opts in
      let angleStep :=
        if (0 <? childCount)%nat then 360 / inject_Z (Z.of_nat childCount) else 0 in
      foldl (rootChild opts centerNode angleStep) g (seq 0 childCount)
    else
      foldl (fun g parentNode =>
               foldl (branchChild opts level parentNode) g
                     (seq 0 (childrenPerNode opts)))
            g parentNodes in
  mkGen (rng g) (store g) (nodeSerial g) (connectionSerial g)
        (nodeLevels g ++ [levelNodes g]) [].

(** [generateStructure] up to the call of [applyBranchAnimation]. *)
Definition buildTree (opts : Options) : Gen :=
  let rng := createRng (if (seed opts =? 0)%Z then 1%Z else seed opts) in
  let (centerNode, st) := addNode (mkStore [] []) 0 0 0 0 in
  let g := mkGen rng st 1 0 [[centerNode]] [] in
  foldl (growLevel opts centerNode) g (seq 1 (levels opts)).

(** ** The timeline scheduler

    The variables of [applyBranchAnimation] that its traversal updates. *)

Record Sched := mkSched {
  animRng : Rng;
  scene : Store;
  queue : list nat;
  maxTime : Q
}.

(** The offset of the line at index [i] of node [current]: stagger, then
    the random draw, then the override for the lines of the root. *)
Definition edgeOffset (opts : Options) (rootNode current i : nat) (rng : Rng)
    : Q * Rng :=
  let offset := childStagger opts * inject_Z (Z.of_nat i) in
  let (offset, rng) :=
    if Qlt_bool 0 (randomOffset opts)
    then let (r, rng) := range (- randomOffset opts) (randomOffset opts) rng in
         (offset + r, rng)
    else (offset, rng) in
  let offset :=
    if (current =? rootNode)%nat && simultaneousRoot opts then 0 else offset in
  (offset, rng).

(** [animStart] and [animEnd] of the child of a line drawn over
    [lineStart, lineEnd]. *)
Definition childWindow (opts : Options) (lineStart lineEnd : Q) : Q * Q :=
  let animStart := if smoothFlow opts then lineStart else lineEnd in
  let animEnd :=
    if smoothFlow opts then
      let e := animStart + Qmax (nodeDuration opts) (1 # 10000) in
      if Qlt_bool e lineEnd then lineEnd else e
    else animStart + nodeDuration opts in
  (animStart, animEnd).

(** Body of the loop over [i], for the line [ref] = [childLines[i]] of the
    dequeued node [current].  A reference that designates no object stands
    for the null the source skips with [continue]. *)
Definition scheduleLine (opts : Options) (rootNode current : nat)
    (s : Sched) (i ref : nat) : Sched :=
  match lineInfos (scene s) !! ref with
  | None => s
  | Some lineInfo =>
    let (offset, rng) := edgeOffset opts rootNode current i (animRng s) in
    let lineStart := from_option outTime 0 (nodes (scene s) !! current) + offset in
    let lineEnd := lineStart + lineDuration opts in
    let ls := <[ref := setLineTimes lineStart lineEnd lineInfo]> (lineInfos (scene s)) in
    match nodes (scene s) !! childNode lineInfo with
    | None => mkSched rng (mkStore (nodes (scene s)) ls) (queue s) (maxTime s)
    | Some child =>
      let (animStart, animEnd) := childWindow opts lineStart lineEnd in
      let ns := <[childNode lineInfo := setTimes animStart animEnd child]> (nodes (scene s)) in
      let maxTime := if Qlt_bool (maxTime s) animEnd then animEnd else maxTime s in
      mkSched rng (mkStore ns ls) (queue s ++ [childNode lineInfo]) maxTime
    end
  end.

Section Traversal.

Variable opts : Options.
Variable rootNode : nat.

(** The loop over [i] from index [i] on. *)
Fixpoint scheduleLines (current : nat) (i : nat) (childLines : list nat)
    (s : Sched) : Sched :=
  match childLines with
  | [] => s
  | ref :: rest =>
    scheduleLines current (S i) rest (scheduleLine opts rootNode current s i ref)
  end.

(** One turn of the [while] loop on a non-empty queue. *)
Definition visit (current : nat) (rest : list nat) (s : Sched) : Sched :=
  let childLines := from_option children [] (nodes (scene s) !! current) in
  scheduleLines current 0 childLines
                (mkSched (animRng s) (scene s) rest (maxTime s)).

(** The [while] loop, for at most [fuel] turns. *)
Fixpoint drain (fuel : nat) (s : Sched) : option Sched :=
  match queue s with
  | [] => Some s
  | current :: rest =>
    match fuel with
    | O => None
    | S fuel => drain fuel (visit current rest s)
    end
  end.

End Traversal.

(** The state in which the [while] loop starts. *)
Definition startSchedule (opts : Options) (rootNode : nat) (st : Store) : Sched :=
  let rng := createRng (if (seed opts =? 0)%Z then 123987%Z
                        else (seed opts * 17 + 53)%Z) in
  let animEnd := 0 + nodeDuration opts in
  let ns := alter (setTimes 0 animEnd) rootNode (nodes st) in
  mkSched rng (mkStore ns (lineInfos st)) [rootNode] animEnd.

(** The guard after the loop. *)
Definition totalDuration (opts : Options) (maxTime : Q) : Q :=
  if Qle_bool maxTime 0
  then (if Qlt_bool 0 (nodeDuration opts) then nodeDuration opts else 1)
  else maxTime.

(** The two numbers [setLineAnimationExpression] formats into the
    expression of a line; none when the line was never scheduled. *)
Definition setLineAnimationExpression (lineInfo : LineInfo) (totalDuration : Q)
    : option (Q * Q) :=
  match startTime lineInfo, endTime lineInfo with
  | Some startTime, Some endTime =>
    let startProgress :=
      if Qlt_bool 0 totalDuration then (startTime / totalDuration) * 100 else 0 in
    let endProgress :=
      if Qlt_bool 0 totalDuration then (endTime / totalDuration) * 100 else 100 in
    Some (startProgress, endProgress)
  | _, _ => None
  end.

(** The two numbers [setNodeAnimationExpression] formats into the
    expression of a node. *)
Definition setNodeAnimationExpression (node : Node) (totalDuration : Q) : Q * Q :=
  let startProgress :=
    if Qlt_bool 0 totalDuration then (animStart node / totalDuration) * 100 else 0 in
  let endProgress :=
    if Qlt_bool 0 totalDuration then (animEnd node / totalDuration) * 100 else 100 in
  (startProgress, endProgress).

(** What a run leaves behind: the scheduled store, the duration the
    progress slider runs over, the generator of the scheduler, and the
    normalized intervals of every line and of every node, level by level. *)
Record Animation := mkAnimation {
  timeline : Store;
  duration : Q;
  lastRng : Rng;
  lineProgress : list (option (Q * Q));
  nodeProgress : list (list (Q * Q))
}.

Definition applyBranchAnimation (opts : Options) (rootNode : nat)
    (nodeLevels : list (list nat)) (st : Store) (fuel : nat) : option Animation :=
  match drain opts rootNode fuel (startSchedule opts rootNode st) with
  | None => None
  | Some s =>
    let maxTime := totalDuration opts (maxTime s) in
    Some (mkAnimation (scene s) maxTime (animRng s)
            (map (fun lineInfo => setLineAnimationExpression lineInfo maxTime)
                 (lineInfos (scene s)))
            (map (fun levelNodes =>
                    omap (fun ref =>
                            option_map (fun node => setNodeAnimationExpression node maxTime)
                                       (nodes (scene s) !! ref))
                         levelNodes)
                 nodeLevels))
  end.

(** [generateStructure]: the tree, then its timeline.  The [while] loop is
    given one turn per node. *)
Definition generateStructure (opts : Options) : option Animation :=
  let g := buildTree opts in
  applyBranchAnimation opts 0%nat (nodeLevels g) (store g)
                       (length (nodes (store g))).

(** ** Positions

    A node object carries its angle and radius; its position is what
    [generateStructure] hands to [addNode] for the node's null layer: the
    centre of the composition for the centre node, and
    [polarToCartesian(center, radius, angle)] for every other node, with a
    zero depth appended when [make3D] is set.  [Math.PI], [Math.cos] and
    [Math.sin] belong to the host and are parameters. *)

Record Comp := mkComp {
  width : Q;
  height : Q;
  numLayers : nat
}.

Section Host.

Variable Math_PI : Q.
Variables Math_cos Math_sin : Q -> Q.

Definition toRadians (deg : Q) : Q := deg * Math_PI / 180.

Definition polarToCartesian (center : list Q) (radius angleDeg : Q) : list Q :=
  let rad := toRadians angleDeg in
  [ nth 0 center 0 + Math_cos rad * radius;
    nth 1 center 0 + Math_sin rad * radius ].

Definition nullLayerPosition (opts : Options) (comp : Comp) (node : Node) : list Q :=
  let center := [width comp / 2; height comp / 2] in
  let position :=
    if (level node =? 0)%nat then center
    else polarToCartesian center (radius node) (angle node) in
  if make3D opts then [nth 0 position 0; nth 1 position 0; 0]
  else take 2 position.

End Host.

(** * The first version of the generator

    The file opens with an earlier version of the same script, without
    animation.  Its [createRng] and [computeRadius] are those above, word
    for word.  Its nodes carry no links and are never written after their
    creation, so the arrays of the levels hold them as values; a
    connection line is a layer of the host, of which the model keeps what
    the script decides: the nodes whose layers it joins, its level and
    its serial number. *)

Module FirstVersion.

Record Node := mkNode {
  id : nat;
  level : nat;
  angle : Q;
  radius : Q
}.

Record Line := mkLine {
  parentLayer : Node;
  childLayer : Node;
  lineLevel : nat;
  idx : nat
}.

(** The variables of [generateStructure] that its loops update. *)
Record Gen := mkGen {
  rng : Rng;
  nodeSerial : nat;
  connectionSerial : nat;
  lineLayers : list Line;
  nodes : list (list Node);
  levelNodes : list Node
}.

(** The statements both loops share once the angle is known. *)
Definition placeChild (opts : Options) (level : nat) (parentNode : Node) (angle : Q)
    (rng : Rng) (g : Gen) : Gen :=
  let (radius, rng) := computeRadius level opts rng in
  let childNode := mkNode (nodeSerial g) level angle radius in
  mkGen rng (S (nodeSerial g)) (S (connectionSerial g))
        (lineLayers g ++ [mkLine parentNode childNode level (connectionSerial g)])
        (nodes g) (levelNodes g ++ [childNode]).

Definition rootChild (opts : Options) (centerNode : Node) (angleStep : Q)
    (g : Gen) (i : nat) : Gen :=
  let baseAngle := angleStep * inject_Z (Z.of_nat i) in
  let (jitter, rng) := angleJitterDraw opts (rng g) in
  let angle := baseAngle + jitter in
  placeChild opts 1 centerNode angle rng g.

Definition branchChild (opts : Options) (level : nat) (parentNode : Node)
    (g : Gen) (c : nat) : Gen :=
  let spread := branchSpread opts in
  let normalized :=
    if (1 <? childrenPerNode opts)%nat
    then inject_Z (Z.of_nat c) / inject_Z (Z.of_nat (childrenPerNode opts) - 1) - (1 # 2)
    else 0 in
  let offset := spread * normalized in
  let (jitterChild, rng) := angleJitterDraw opts (rng g) in
  let angleChild := angle parentNode + offset + jitterChild in
  placeChild opts level parentNode angleChild rng g.

Definition growLevel (opts : Options) (centerNode : Node) (g : Gen) (level : nat) : Gen :=
  let parentNodes := default [] (nodes g !! (level - 1)%nat) in
  let g := mkGen (rng g) (nodeSerial g) (connectionSerial g) (lineLayers g) (nodes g) [] in
  let g :=
    if (level =? 1)%nat then
      let childCount := initialLines opts in
      let angleStep :=
        if (0 <? childCount)%nat then 360 / inject_Z (Z.of_nat childCount) else 0 in
      foldl (rootChild opts centerNode angleStep) g (seq 0 childCount)
    else
      foldl (fun g parentNode =>
               foldl (branchChild opts level parentNode) g
                     (seq 0 (childrenPerNode opts)))
            g parentNodes in
  mkGen (rng g) (nodeSerial g) (connectionSerial g) (lineLayers g)
        (nodes g ++ [levelNodes g]) [].

(** [generateStructure] up to the call of [reorderGeneratedLayers]. *)
Definition generateStructure (opts : Options) : Gen :=
  let rng := createRng (if (seed opts =? 0)%Z then 1%Z else seed opts) in
  let centerNode := mkNode 0 0 0 0 in
  let g := mkGen rng 1 0 [] [[centerNode]] [] in
  foldl (growLevel opts centerNode) g (seq 1 (levels opts)).

End FirstVersion.

(** ** The dialog

    [readInt] and [readFloat] read the number typed in a text field: the
    argument [parsed] is what [parseInt(text, 10)] or [parseFloat(text)]
    makes of the text, with [None] for [NaN] (a text that reads as an
    infinity is not covered), and an absent bound is the [undefined] the
    source tests for.  Both also write the number back into the field,
    which belongs to the host. *)

Definition readInt (parsed : option Z) (fallback : Z) (minValue maxValue : option Z) : Z :=
  let val := match parsed with Some val => val | None => fallback end in
  let val := match minValue with Some minValue => Z.max minValue val | None => val end in
  let val := match maxValue with Some maxValue => Z.min maxValue val | None => val end in
  val.

Definition readFloat (parsed : option Q) (fallback : Q) (minValue maxValue : option Q) : Q :=
  let val := match parsed with Some val => val | None => fallback end in
  let val := match minValue with Some minValue => Qmax minValue val | None => val end in
  let val := match maxValue with Some maxValue => Qmin maxValue val | None => val end in
  val.

(** What the fields of the dialog hold when [readOptions] runs: the
    parsed text of every numeric field and the value of every checkbox the
    functions of this development read. *)
Record Dialog := mkDialog {
  initialLinesEt : option Z;
  levelsEt : option Z;
  childrenEt : option Z;
  baseRadiusEt : option Q;
  radiusStepEt : option Q;
  radiusJitterEt : option Q;
  angleJitterEt : option Q;
  branchSpreadEt : option Q;
  circleSizeEt : option Q;
  lineWidthEt : option Q;
  lineDurationEt : option Q;
  nodeDurationEt : option Q;
  childStaggerEt : option Q;
  randomOffsetEt : option Q;
  curveTensionEt : option Q;
  curveRandomnessEt : option Q;
  seedEt : option Z;
  make3DCb : bool;
  simultaneousRootCb : bool;
  smoothFlowCb : bool;
  useCurvesCb : bool
}.

(** [readOptions], for the fields of [Options].  The three counts are at
    least 1 when they leave [readInt] and are kept as natural numbers. *)
Definition readOptions (d : Dialog) : Options := {|
  initialLines :=
    Z.to_nat (readInt (initialLinesEt d) (Z.of_nat (initialLines DEFAULTS))
                      (Some 1%Z) (Some 720%Z));
  levels :=
    Z.to_nat (readInt (levelsEt d) (Z.of_nat (levels DEFAULTS)) (Some 1%Z) (Some 10%Z));
  childrenPerNode :=
    Z.to_nat (readInt (childrenEt d) (Z.of_nat (childrenPerNode DEFAULTS))
                      (Some 1%Z) (Some 8%Z));
  baseRadius := readFloat (baseRadiusEt d) (baseRadius DEFAULTS) (Some 1) None;
  radiusStep := readFloat (radiusStepEt d) (radiusStep DEFAULTS) (Some 0) None;
  radiusJitter := readFloat (radiusJitterEt d) (radiusJitter DEFAULTS) (Some 0) None;
  angleJitter := readFloat (angleJitterEt d) (angleJitter DEFAULTS) (Some 0) None;
  branchSpread := readFloat (branchSpreadEt d) (branchSpread DEFAULTS) (Some 0) (Some 360);
  circleSize := readFloat (circleSizeEt d) (circleSize DEFAULTS) (Some 2) None;
  lineWidth := readFloat (lineWidthEt d) (lineWidth DEFAULTS) (Some (5 # 10)) None;
  lineDuration :=
    readFloat (lineDurationEt d) (lineDuration DEFAULTS) (Some (5 # 100)) None;
  nodeDuration :=
    readFloat (nodeDurationEt d) (nodeDuration DEFAULTS) (Some (5 # 100)) None;
  childStagger := readFloat (childStaggerEt d) (childStagger DEFAULTS) (Some 0) None;
  randomOffset :=
    Qmax 0 (readFloat (randomOffsetEt d) (randomOffset DEFAULTS) (Some 0) None);
  curveTension :=
    Qmax 0 (Qmin 1 (readFloat (curveTensionEt d) (curveTension DEFAULTS) (Some 0) None));
  curveRandomness :=
    Qmax 0 (Qmin 1 (readFloat (curveRandomnessEt d) (curveRandomness DEFAULTS)
                              (Some 0) None));
  seed := readInt (seedEt d) (seed DEFAULTS) (Some (-2147483647)%Z) (Some 2147483646%Z);
  make3D := make3DCb d;
  simultaneousRoot := simultaneousRootCb d;
  smoothFlow := smoothFlowCb d;
  useCurves := useCurvesCb d
|}.

(** ** Colours

    A colour is an array of numbers.  [Math.round] rounds half up.  The
    bitwise operators of JavaScript convert their operands to 32-bit
    signed integers, take a shift count modulo 32 and return a 32-bit
    signed integer. *)

Definition clamp01 (value : Q) : Q := Qmax 0 (Qmin 1 value).

Definition Math_round (x : Q) : Z := Qfloor (x + (1 # 2)).

Definition toInt32 (z : Z) : Z :=
  ((z + 2147483648) mod 4294967296 - 2147483648)%Z.

Definition shl32 (a n : Z) : Z := toInt32 (Z.shiftl (toInt32 a) (Z.land n 31)).

Definition sar32 (a n : Z) : Z := Z.shiftr (toInt32 a) (Z.land n 31).

Definition or32 (a b : Z) : Z := Z.lor (toInt32 a) (toInt32 b).

Definition and32 (a b : Z) : Z := Z.land (toInt32 a) (toInt32 b).

(** [rgbArrayToHex].  A missing component is read as 0 here; in the source
    it is [undefined], which [Math.round] turns into [NaN] and the shift
    into 0, the same contribution to the result. *)
Definition rgbArrayToHex (color : list Q) : Z :=
  let r := Math_round (clamp01 (nth 0 color 0) * 255) in
  let g := Math_round (clamp01 (nth 1 color 0) * 255) in
  let b := Math_round (clamp01 (nth 2 color 0) * 255) in
  or32 (or32 (shl32 r 16) (shl32 g 8)) b.

Definition hexToRgb (hex : Z) : list Q :=
  [ inject_Z (and32 (sar32 hex 16) 255) / 255;
    inject_Z (and32 (sar32 hex 8) 255) / 255;
    inject_Z (and32 hex 255) / 255 ].

(** [out[idx] = v].  The loop of [parseColor] writes the positions
    0, 1, 2, ... in this order, so [idx] is at most the length of [out]:
    the write replaces an element or extends the array by one. *)
Definition setAt (out : list Q) (idx : nat) (v : Q) : list Q :=
  if (idx <? length out)%nat then <[idx := v]> out else out ++ [v].

(** The loop of [parseColor] over the tokens of the text.  A token is what
    [parseFloat] makes of it; [None] stands for a token the loop skips, an
    empty one or one that reads as [NaN]. *)
Fixpoint parseTokens (parts : list (option Q)) (idx : nat) (out : list Q)
    : nat * list Q :=
  match parts with
  | [] => (idx, out)
  | token :: rest =>
    if (idx <? 4)%nat then
      match token with
      | None => parseTokens rest idx out
      | Some val =>
        let val := if Qlt_bool 1 val then Qmax 0 (Qmin 255 val) / 255 else val in
        parseTokens rest (S idx) (setAt out idx (clamp01 val))
      end
    else (idx, out)
  end.

(** The [while] loop of [parseColor], for at most [fuel] turns;
    [fallback[out.length] || 1] is 1 when the element is missing or 0. *)
Fixpoint padColor (fuel : nat) (idx : nat) (fallback out : list Q) : option (list Q) :=
  if (length out <? 4)%nat then
    match fuel with
    | O => None
    | S fuel =>
      let v :=
        if (idx =? 3)%nat then 1
        else match fallback !! length out with
             | Some v => if Qeq_bool v 0 then 1 else v
             | None => 1
             end in
      padColor fuel idx fallback (out ++ [v])
    end
  else Some out.

(** [parseColor], for a [fallback] that is an array; the loop is given
    four turns. *)
Definition parseColor (parts : list (option Q)) (fallback : list Q) : option (list Q) :=
  let out := fallback in
  let (idx, out) := parseTokens parts 0 out in
  option_map (take 4) (padColor 4 idx fallback out).

(** * The candlestick chart

    The third script of the file builds a chart of synthetic prices.  Its
    data are drawn with [Math.random] and shaped with [Math.sin] and
    [Math.cos], which belong to the host: the sine and cosine are
    parameters, and so is the sequence of numbers [Math.random] returns,
    call after call. *)

Definition NUM_CANDLES : nat := 120.
Definition BASE_PRICE : Q := 2000.
Definition VOLATILITY : Q := 4.

Record Candle := mkCandle {
  open : Q;
  high : Q;
  low : Q;
  close : Q
}.

(** The variables the loop over [i] updates, and the number of calls of
    [Math.random] made so far. *)
Record Series := mkSeries {
  data : list Candle;
  currentPrice : Q;
  calls : nat
}.

Section Candles.

Variables Math_sin Math_cos : Q -> Q.
Variable Math_random : nat -> Q.

(** Body of the loop over [i]. *)
Definition addCandle (s : Series) (i : nat) : Series :=
  let open := currentPrice s in
  let directionalBias :=
    (Math_sin (inject_Z (Z.of_nat i) / 12) + Math_cos (inject_Z (Z.of_nat i) / 18))
    * (5 # 10) in
  let close :=
    open + (Math_random (calls s) - (5 # 10) + directionalBias * (1 # 10)) * VOLATILITY in
  let high := Qmax open close + Math_random (S (calls s)) * (VOLATILITY * (8 # 10)) in
  let low := Qmin open close - Math_random (S (S (calls s))) * (VOLATILITY * (8 # 10)) in
  let currentPrice := close in
  let high := if Qlt_bool high (Qmax open close) then Qmax open close else high in
  let low := if Qlt_bool (Qmin open close) low then Qmin open close else low in
  mkSeries (data s ++ [mkCandle open high low close]) currentPrice (3 + calls s).

Definition generateData (numCandles : nat) : Series :=
  foldl addCandle (mkSeries [] BASE_PRICE 0) (seq 0 numCandles).

End Candles.

(** The scan for [minPrice] and [maxPrice]; [data[0]] of an empty array is
    [undefined] and reading its [low] throws. *)
Definition scanPrice (mm : Q * Q) (candle : Candle) : Q * Q :=
  let minPrice := if Qlt_bool (low candle) (fst mm) then low candle else fst mm in
  let maxPrice := if Qlt_bool (snd mm) (high candle) then high candle else snd mm in
  (minPrice, maxPrice).

Definition priceRange (data : list Candle) : option (Q * Q) :=
  match data with
  | [] => None
  | first :: _ => Some (foldl scanPrice (low first, high first) data)
  end.

(** [pad], for a natural number; [toString] writes it in decimal.  The
    [while] loop is given [fuel] turns. *)
Definition toString (number : nat) : String.string :=
  DecimalString.NilEmpty.string_of_uint (Nat.to_uint number).

Fixpoint padLoop (fuel : nat) (str : String.string) (digits : nat) : option String.string :=
  if (String.length str <? digits)%nat then
    match fuel with
    | O => None
    | S fuel => padLoop fuel (String.append "0" str) digits
    end
  else Some str.

Definition pad (number digits : nat) : option String.string :=
  padLoop digits (toString number) digits.

(** The name the script gives to the layer of candle [c], and the name
    under which the expression of the price readout looks the layer of
    candle [index] up: [("00" + (index + 1)).slice(-3)] keeps the last
    three characters. *)
Definition candleName (c : nat) : option String.string :=
  option_map (String.append "Candle_") (pad (c + 1) 3).

Definition sliceLast (n : nat) (str : String.string) : String.string :=
  String.substring (String.length str - n) n str.

Definition readoutName (index : nat) : String.string :=
  String.append "Candle_" (sliceLast 3 (String.append "00" (toString (index + 1)))).

(** * The vocabulary of the properties

    Configurations, the quantities the specification names, and the
    invariants the proofs maintain. *)

(** ** Configurations *)

(** The scenario of the specification: seed 12345, 4 initial lines,
    2 levels, 2 children per node, no angle jitter, a spread of 60 degrees;
    the other options as in [DEFAULTS]. *)
Definition scenarioOptions : Options :=
  mkOptions 4 2 2 250 180 40 0 60 26 4 (35#100) (22#100) (5#100) (6#100)
            (45#100) (35#100) 12345 false false true false.

(** A base radius and a step of 1, no radius jitter. *)
Definition floorOptions : Options :=
  mkOptions 4 2 2 1 1 0 0 60 26 4 (35#100) (22#100) (5#100) (6#100)
            (45#100) (35#100) 12345 false false true false.

(** [DEFAULTS] without radius jitter. *)
Definition steadyOptions : Options :=
  mkOptions 12 3 2 250 180 0 8 60 26 4 (35#100) (22#100) (5#100) (6#100)
            (45#100) (35#100) 12345 false false true false.

(** One child of the root; a node lasts 0.00005 and a line 0.00001. *)
Definition tinyOptions : Options :=
  mkOptions 1 1 1 250 180 0 0 60 26 4 (1 # 100000) (1 # 20000) 0 0
            (45#100) (35#100) 12345 false false true false.

(** Two children of the root; random offsets up to 1, above the duration
    0.22 of a node. *)
Definition wideOptions : Options :=
  mkOptions 2 1 2 250 180 40 8 60 26 4 (35#100) (22#100) (5#100) 1
            (45#100) (35#100) 12345 false false true false.

Definition withSeed (s : Z) (opts : Options) : Options :=
  mkOptions (initialLines opts) (levels opts) (childrenPerNode opts)
    (baseRadius opts) (radiusStep opts) (radiusJitter opts) (angleJitter opts)
    (branchSpread opts) (circleSize opts) (lineWidth opts) (lineDuration opts)
    (nodeDuration opts) (childStagger opts) (randomOffset opts)
    (curveTension opts) (curveRandomness opts) s (make3D opts)
    (simultaneousRoot opts) (smoothFlow opts) (useCurves opts).

Definition withSimultaneousRoot (b : bool) (opts : Options) : Options :=
  mkOptions (initialLines opts) (levels opts) (childrenPerNode opts)
    (baseRadius opts) (radiusStep opts) (radiusJitter opts) (angleJitter opts)
    (branchSpread opts) (circleSize opts) (lineWidth opts) (lineDuration opts)
    (nodeDuration opts) (childStagger opts) (randomOffset opts)
    (curveTension opts) (curveRandomness opts) (seed opts) (make3D opts)
    b (smoothFlow opts) (useCurves opts).

(** ** The generator *)

(** The states the generator is meant to run on. *)
Definition validState (value : Rng) : Prop := (1 <= value <= 2147483646)%Z.

(** The generator the scheduler starts from. *)
Definition schedulerRng (opts : Options) : Rng :=
  createRng (if (seed opts =? 0)%Z then 123987%Z else (seed opts * 17 + 53)%Z).

(** The state after one more draw. *)
Definition draw (v : Rng) : Rng := snd (next v).

(** The condition under which no line can start before time 0: no random
    offset exceeds the duration of a node, and the draws, if any are made,
    come from a generator in its valid range. *)
Definition offsetsCovered (opts : Options) : Prop :=
  randomOffset opts <= nodeDuration opts /\
  (0 < randomOffset opts -> validState (schedulerRng opts)).

(** ** Counting *)

(** The sum of [c ^ k] for [k] below [n]. *)
Fixpoint geomSum (c n : nat) : nat :=
  match n with
  | O => 0
  | S n => geomSum c n + c ^ n
  end.

(** The node count the specification states: one root and
    [initialLines] times the sum of [childrenPerNode ^ k] for [k] from 0 to
    [levels - 2]. *)
Definition claimedNodeCount (opts : Options) : nat :=
  1 + initialLines opts * geomSum (childrenPerNode opts) (levels opts - 1).

(** The number of nodes of a level. *)
Definition levelWidth (opts : Options) (lvl : nat) : nat :=
  match lvl with
  | O => 1
  | S l => initialLines opts * childrenPerNode opts ^ l
  end.

(** The angles of the nodes [refs], and the children of node [ref]. *)
Definition anglesOf (st : Store) (refs : list nat) : list Q :=
  omap (fun ref => option_map angle (nodes st !! ref)) refs.

Definition childrenOf (st : Store) (ref : nat) : list nat :=
  omap (fun l => option_map childNode (lineInfos st !! l))
       (from_option children [] (nodes st !! ref)).

(** ** The shape of a store *)

(** The lines owned by the nodes [ns], in order. *)
Fixpoint allChildren (ns : list Node) : list nat :=
  match ns with
  | [] => []
  | n :: rest => children n ++ allChildren rest
  end.

(** What the builder maintains, for a store whose nodes from [q] on have
    no children yet: node [S k] is the child of line [k], the parent of a
    line comes before its child, the lines in order are the children of the
    nodes in order, and nothing carries a time. *)
Record TreeInv (st : Store) (q : nat) : Prop := mkTreeInv {
  ti_count : length (nodes st) = S (length (lineInfos st));
  ti_lines : forall k l, lineInfos st !! k = Some l ->
    childNode l = S k /\ (parentNode l <= k)%nat /\
    startTime l = None /\ endTime l = None;
  ti_kids : allChildren (take q (nodes st)) = seq 0 (length (lineInfos st));
  ti_leaf : forall j n, (q <= j)%nat -> nodes st !! j = Some n -> children n = [];
  ti_owner : forall j n k, nodes st !! j = Some n -> k ∈ children n ->
    exists l, lineInfos st !! k = Some l /\ parentNode l = j;
  ti_node : forall j n, nodes st !! j = Some n ->
    incomingLine n = match j with O => None | S k => Some k end /\
    outTime n = 0 /\ animStart n = 0 /\ animEnd n = 0
}.

(** What holds of the builder's variables after the turn for level [lvl]:
    the level's nodes are the last ones created. *)
Definition LevelInv (opts : Options) (g : Gen) (lvl : nat) : Prop :=
  exists first : nat,
    length (nodeLevels g) = S lvl /\
    nodeLevels g !! lvl = Some (seq first (levelWidth opts lvl)) /\
    (first + levelWidth opts lvl)%nat = length (nodes (store g)) /\
    TreeInv (store g) first /\
    length (nodes (store g))
    = (1 + initialLines opts * geomSum (childrenPerNode opts) lvl)%nat.

(** A store with its times erased: what the scheduler never changes. *)
Definition eraseNode (n : Node) : Node := setTimes 0 0 n.

Definition eraseLine (l : LineInfo) : LineInfo :=
  mkLineInfo (parentNode l) (childNode l) None None.

Definition erase (st : Store) : Store :=
  mkStore (eraseNode <$> nodes st) (eraseLine <$> lineInfos st).

Arguments eraseNode : simpl never.
Arguments eraseLine : simpl never.

(** The number of lines owned by the nodes before [j]. *)
Definition linesBefore (st : Store) (j : nat) : nat :=
  length (allChildren (take j (nodes st))).

(** ** The turns of the traversal *)

(** The part of the scheduler's state that the loop body reads. *)
Definition core (s : Sched) : Rng * Store * Q := (animRng s, scene s, maxTime s).

Definition outTimeAt (st : Store) (j : nat) : Q :=
  from_option outTime 0 (nodes st !! j).

(** The draw window of the line at index [i] of [current], from state [s],
    and the activation window of its child. *)
Definition lineStartOf (opts : Options) (rootNode : nat) (s : Sched)
    (current i : nat) : Q :=
  outTimeAt (scene s) current + fst (edgeOffset opts rootNode current i (animRng s)).

Definition lineEndOf (opts : Options) (rootNode : nat) (s : Sched)
    (current i : nat) : Q :=
  lineStartOf opts rootNode s current i + lineDuration opts.

Definition windowOf (opts : Options) (rootNode : nat) (s : Sched)
    (current i : nat) : Q * Q :=
  childWindow opts (lineStartOf opts rootNode s current i)
              (lineEndOf opts rootNode s current i).

(** A turn of the loop over [i] is given by (node, index, line). *)
Definition step (opts : Options) (rootNode : nat) (s : Sched)
    (e : nat * nat * nat) : Sched :=
  scheduleLine opts rootNode (fst (fst e)) s (snd (fst e)) (snd e).

(** The turns for the lines [childLines] of [current], from index [i] on. *)
Fixpoint chunk (current i : nat) (childLines : list nat) : list (nat * nat * nat) :=
  match childLines with
  | [] => []
  | ref :: rest => (current, i, ref) :: chunk current (S i) rest
  end.

(** The turns of the whole traversal when nodes are visited in the order
    of the store, starting with node [j]. *)
Fixpoint planFrom (j : nat) (ns : list Node) : list (nat * nat * nat) :=
  match ns with
  | [] => []
  | n :: rest => chunk j 0 (children n) ++ planFrom (S j) rest
  end.

Definition plan (st : Store) : list (nat * nat * nat) := planFrom 0 (nodes st).

(** ** Invariants of the traversal *)

(** After [k] turns, the lines before [k] carry their draw window and
    their children the activation window computed from it. *)
Definition windowsSet (opts : Options) (k : nat) (s : Sched) : Prop :=
  forall k', (k' < k)%nat ->
    exists l n a b,
      lineInfos (scene s) !! k' = Some l /\ nodes (scene s) !! S k' = Some n /\
      startTime l = Some a /\ endTime l = Some b /\
      b = a + lineDuration opts /\
      animStart n = fst (childWindow opts a b) /\
      animEnd n = snd (childWindow opts a b).

(** Nothing ends after the maximum, nothing ends before it starts, and the
    lines handled so far carry a draw window. *)
Definition boundedAbove (k : nat) (s : Sched) : Prop :=
  (forall j n, nodes (scene s) !! j = Some n ->
     animStart n <= animEnd n /\ animEnd n <= maxTime s) /\
  (forall k' l, lineInfos (scene s) !! k' = Some l -> (k' < k)%nat ->
     exists a b, startTime l = Some a /\ endTime l = Some b /\
                 a <= b /\ b <= maxTime s).

(** When no offset can exceed the duration of a node, nothing starts
    before time 0. *)
Definition boundedBelow (opts : Options) (k : nat) (s : Sched) : Prop :=
  (0 < randomOffset opts -> validState (animRng s)) /\
  (forall j n, (j <= k)%nat -> nodes (scene s) !! j = Some n ->
     nodeDuration opts <= outTime n) /\
  (forall j n, nodes (scene s) !! j = Some n -> 0 <= animStart n) /\
  (forall k' l a, lineInfos (scene s) !! k' = Some l -> startTime l = Some a -> 0 <= a).

(** What a run without and a run with [simultaneousRoot] share after [k]
    turns on the tree of [opts]. *)
Definition toggled (opts : Options) (k : nat) (p : Sched * Sched) : Prop :=
  erase (scene (fst p)) = erase (store (buildTree opts)) /\
  erase (scene (snd p)) = erase (store (buildTree opts)) /\
  animRng (snd p) = animRng (fst p) /\
  (0 < randomOffset opts -> animRng (fst p) = Nat.iter k draw (schedulerRng opts)) /\
  (forall k' lb, (k' < k)%nat ->
     lineInfos (scene (snd p)) !! k' = Some lb -> parentNode lb = 0%nat ->
     startTime lb = Some (outTimeAt (scene (snd p)) 0 + 0)) /\
  (forall k' la lb, (k' < k)%nat ->
     lineInfos (scene (fst p)) !! k' = Some la ->
     lineInfos (scene (snd p)) !! k' = Some lb ->
     parentNode la <> 0%nat ->
     exists xa xb,
       startTime la = Some xa /\ startTime lb = Some xb /\
       xa - outTimeAt (scene (fst p)) (parentNode la)
       == xb - outTimeAt (scene (snd p)) (parentNode la)).

(** ** The builder *)

(** The variables of [generateStructure] when its loop over the levels
    starts: the centre node alone. *)
Definition startGen (opts : Options) : Gen :=
  mkGen (createRng (if (seed opts =? 0)%Z then 1%Z else seed opts))
        (mkStore [mkNode 0 0 0 0 None [] None 0 0 0 0] []) 1 0 [[0%nat]] [].

(** [angleStep] of the loop at level 1. *)
Definition rootAngleStep (opts : Options) : Q :=
  if (0 <? initialLines opts)%nat
  then 360 / inject_Z (Z.of_nat (initialLines opts)) else 0.

(** [offset] of the child at index [c] of its parent, below level 1. *)
Definition slotOffset (opts : Options) (c : nat) : Q :=
  branchSpread opts *
  (if (1 <? childrenPerNode opts)%nat
   then inject_Z (Z.of_nat c) / inject_Z (Z.of_nat (childrenPerNode opts) - 1) - (1 # 2)
   else 0).

(** [base] of [computeRadius]: the radius of a level before jitter and
    floor. *)
Definition levelRadius (opts : Options) (lvl : nat) : Q :=
  baseRadius opts + inject_Z (Z.of_nat lvl - 1) * radiusStep opts.

(** A number without a fractional part.  Sums and products of such
    numbers are exact in binary64 as long as they stay within 2^53. *)
Definition wholeNumber (x : Q) : Prop := x == inject_Z (Qfloor x).

(** The variables of the builder at the start and at the end of the turn
    of a level. *)
Definition openLevel (g : Gen) : Gen :=
  mkGen (rng g) (store g) (nodeSerial g) (connectionSerial g) (nodeLevels g) [].

Definition closeLevel (g : Gen) : Gen :=
  mkGen (rng g) (store g) (nodeSerial g) (connectionSerial g)
        (nodeLevels g ++ [levelNodes g]) [].

(** The generator the builder starts from. *)
Definition builderRng (opts : Options) : Rng :=
  createRng (if (seed opts =? 0)%Z then 1%Z else seed opts).

(** What the builder maintains of the fields it writes once: the id of a
    node is its position; the parent of a node, the node one level up that
    owns its incoming line; the nodes recorded for a level are of that
    level. *)
Definition Linked (opts : Options) (g : Gen) : Prop :=
  nodeSerial g = length (nodes (store g)) /\
  (forall j n, nodes (store g) !! j = Some n ->
     id n = j /\ (level n <= levels opts)%nat /\
     match parent n with
     | None => j = 0%nat /\ level n = 0%nat
     | Some p =>
       j <> 0%nat /\
       exists np l,
         nodes (store g) !! p = Some np /\ level n = S (level np) /\
         lineInfos (store g) !! (j - 1)%nat = Some l /\ parentNode l = p /\
         (j - 1)%nat ∈ children np
     end) /\
  (forall l refs ref, nodeLevels g !! l = Some refs -> ref ∈ refs ->
     exists n, nodes (store g) !! ref = Some n /\ level n = l) /\
  (forall ref, ref ∈ levelNodes g ->
     exists n, nodes (store g) !! ref = Some n /\ level n = length (nodeLevels g)).

(** The position of the first node of a level. *)
Definition levelStart (opts : Options) (lvl : nat) : nat :=
  match lvl with
  | O => 0
  | S l => 1 + initialLines opts * geomSum (childrenPerNode opts) l
  end.

(** The nodes recorded for a level are the [levelWidth] nodes from
    [levelStart] on. *)
Definition Populated (opts : Options) (g : Gen) : Prop :=
  forall l refs, nodeLevels g !! l = Some refs ->
    refs = seq (levelStart opts l) (levelWidth opts l).

(** The radius of a node of level [lvl] is within the jitter of the radius
    of the level, floored at 5. *)
Definition radiusWithin (opts : Options) (lvl : nat) (r : Q) : Prop :=
  5 <= r /\
  Qmax 5 (levelRadius opts lvl - radiusJitter opts) <= r /\
  r <= Qmax 5 (levelRadius opts lvl + radiusJitter opts).

(** The angle [a] is within the jitter of [target]. *)
Definition angleWithin (opts : Options) (target a : Q) : Prop :=
  target - angleJitter opts <= a /\ a <= target + angleJitter opts.

(** What the builder maintains of the placement: the child at index [c]
    of a node sits, at level 1, around [angleStep * c] and, below, around
    the angle of its parent plus the offset of the slot [c]. *)
Definition Placed (opts : Options) (g : Gen) : Prop :=
  (0 < angleJitter opts \/ 0 < radiusJitter opts -> validState (rng g)) /\
  (forall p np c k ch,
     nodes (store g) !! p = Some np -> children np !! c = Some k ->
     nodes (store g) !! S k = Some ch ->
     radiusWithin opts (level ch) (radius ch) /\
     (level ch = 1%nat ->
      angleWithin opts (rootAngleStep opts * inject_Z (Z.of_nat c)) (angle ch)) /\
     (level ch <> 1%nat ->
      angleWithin opts (angle np + slotOffset opts c) (angle ch))).

(** ** Positions *)

(** A host for examples: [Math.PI] to five decimals, and the first two
    terms of the series of the cosine and of the sine, cut off at -1 and
    1. *)
Definition examplePI : Q := 314159 # 100000.

Definition exampleCos (x : Q) : Q := Qmax (-1) (Qmin 1 (1 - x * x / 2)).

Definition exampleSin (x : Q) : Q := Qmax (-1) (Qmin 1 (x - x * x * x / 6)).

(** What [Math.cos] and [Math.sin] return lies between -1 and 1. *)
Definition unitTrig (Math_cos Math_sin : Q -> Q) : Prop :=
  forall x, (-1 <= Math_cos x /\ Math_cos x <= 1) /\
            (-1 <= Math_sin x /\ Math_sin x <= 1).

(** ** The two versions *)

(** What the first version keeps of a node of the second, of the node a
    reference designates, and of a line. *)
Definition view (n : Node) : FirstVersion.Node :=
  FirstVersion.mkNode (id n) (level n) (angle n) (radius n).

Definition viewAt (st : Store) (ref : nat) : FirstVersion.Node :=
  from_option view (FirstVersion.mkNode 0 0 0 0) (nodes st !! ref).

Definition viewLine (st : Store) (k : nat) (l : LineInfo) : FirstVersion.Line :=
  FirstVersion.mkLine (viewAt st (parentNode l)) (viewAt st (childNode l))
                      (FirstVersion.level (viewAt st (childNode l))) k.

(** The variables of the first version that correspond to those of the
    second. *)
Definition firstView (g : Gen) : FirstVersion.Gen :=
  FirstVersion.mkGen (rng g) (nodeSerial g) (connectionSerial g)
    (imap (viewLine (store g)) (lineInfos (store g)))
    (map (map (viewAt (store g))) (nodeLevels g))
    (map (viewAt (store g)) (levelNodes g)).

(** The references the builder holds designate nodes, the first node is
    the centre node, and the serial of the next line is the number of
    lines. *)
Definition Bound (g : Gen) : Prop :=
  connectionSerial g = length (lineInfos (store g)) /\
  viewAt (store g) 0 = FirstVersion.mkNode 0 0 0 0 /\
  Forall (Forall (fun ref => (ref < length (nodes (store g)))%nat)) (nodeLevels g) /\
  Forall (fun ref => (ref < length (nodes (store g)))%nat) (levelNodes g).

(** ** The scheduler *)

(** Where the line at index [i] of node [current] starts, counted from the
    end of the window of [current]: at 0 for a line of the root under
    [simultaneousRoot], else within [randomOffset] of [childStagger * i]. *)
Definition offsetWithin (opts : Options) (current i : nat) (d : Q) : Prop :=
  if (current =? 0)%nat && simultaneousRoot opts then d == 0
  else childStagger opts * inject_Z (Z.of_nat i) - randomOffset opts <= d /\
       d <= childStagger opts * inject_Z (Z.of_nat i) + randomOffset opts.

(** After [k] turns the lines before [k] start where [offsetWithin] says,
    and the window of every node ends at its [outTime]. *)
Definition offsetsSet (opts : Options) (k : nat) (s : Sched) : Prop :=
  (0 < randomOffset opts -> validState (animRng s)) /\
  (forall j n, nodes (scene s) !! j = Some n -> outTime n = animEnd n) /\
  (forall k' e, (k' < k)%nat -> plan (store (buildTree opts)) !! k' = Some e ->
     exists l x,
       lineInfos (scene s) !! k' = Some l /\ startTime l = Some x /\
       offsetWithin opts (fst (fst e)) (snd (fst e))
                    (x - outTimeAt (scene s) (fst (fst e)))).

(** After [k] turns the maximum is the end of the window of one of the
    nodes reached so far, and no window ends later. *)
Definition latestEnd (k : nat) (s : Sched) : Prop :=
  (exists j n, (j <= k)%nat /\ nodes (scene s) !! j = Some n /\ animEnd n = maxTime s) /\
  (forall j n, nodes (scene s) !! j = Some n -> animEnd n <= maxTime s).

(** ** The dialog *)

(** The ranges the dialog enforces. *)
Definition dialogRange (o : Options) : Prop :=
  (1 <= initialLines o <= 720)%nat /\ (1 <= levels o <= 10)%nat /\
  (1 <= childrenPerNode o <= 8)%nat /\
  1 <= baseRadius o /\ 0 <= radiusStep o /\ 0 <= radiusJitter o /\
  0 <= angleJitter o /\ (0 <= branchSpread o /\ branchSpread o <= 360) /\
  2 <= circleSize o /\ (5 # 10) <= lineWidth o /\
  (5 # 100) <= lineDuration o /\ (5 # 100) <= nodeDuration o /\
  0 <= childStagger o /\ 0 <= randomOffset o /\
  (0 <= curveTension o /\ curveTension o <= 1) /\
  (0 <= curveRandomness o /\ curveRandomness o <= 1) /\
  (-2147483647 <= seed o <= 2147483646)%Z.

(** The dialog in which every field shows the value of [o]. *)
Definition dialogOf (o : Options) : Dialog :=
  mkDialog (Some (Z.of_nat (initialLines o))) (Some (Z.of_nat (levels o)))
    (Some (Z.of_nat (childrenPerNode o)))
    (Some (baseRadius o)) (Some (radiusStep o)) (Some (radiusJitter o))
    (Some (angleJitter o)) (Some (branchSpread o)) (Some (circleSize o))
    (Some (lineWidth o)) (Some (lineDuration o)) (Some (nodeDuration o))
    (Some (childStagger o)) (Some (randomOffset o)) (Some (curveTension o))
    (Some (curveRandomness o)) (Some (seed o))
    (make3D o) (simultaneousRoot o) (smoothFlow o) (useCurves o).

(** Two option records hold the same numbers. *)
Definition sameNumbers (a b : Options) : Prop :=
  initialLines a = initialLines b /\ levels a = levels b /\
  childrenPerNode a = childrenPerNode b /\ baseRadius a == baseRadius b /\
  radiusStep a == radiusStep b /\ radiusJitter a == radiusJitter b /\
  angleJitter a == angleJitter b /\ branchSpread a == branchSpread b /\
  circleSize a == circleSize b /\ lineWidth a == lineWidth b /\
  lineDuration a == lineDuration b /\ nodeDuration a == nodeDuration b /\
  childStagger a == childStagger b /\ randomOffset a == randomOffset b /\
  curveTension a == curveTension b /\ curveRandomness a == curveRandomness b /\
  seed a = seed b /\ make3D a = make3D b /\
  simultaneousRoot a = simultaneousRoot b /\ smoothFlow a = smoothFlow b /\
  useCurves a = useCurves b.

(** ** Colours *)

(** What a token that reads as [val] contributes to a colour. *)
Definition readToken (val : Q) : Q :=
  clamp01 (if Qlt_bool 1 val then Qmax 0 (Qmin 255 val) / 255 else val).

(** The components the text of a colour field provides: one per token that
    reads as a number, four at most. *)
Definition readTokens (parts : list (option Q)) : list Q :=
  take 4 (readToken <$> omap (fun token => token) parts).

Definition unitInterval (c : Q) : Prop := 0 <= c /\ c <= 1.
(** The level of channel [i] of a colour: the channel clamped to [0, 1],
    scaled to 255 and rounded. *)
Definition channelLevel (color : list Q) (i : nat) : Z :=
  Math_round (clamp01 (nth i color 0) * 255).

(** ** Candles *)

(** A candle whose wick covers its body. *)
Definition wellFormed (c : Candle) : Prop :=
  low c <= Qmin (open c) (close c) /\ Qmax (open c) (close c) <= high c.

(** The price a series ends at. *)
Definition lastClose (data : list Candle) : Q :=
  from_option close BASE_PRICE (last data).

(** [digits] zeros before [str]. *)
Fixpoint zeros (digits : nat) (str : String.string) : String.string :=
  match digits with
  | O => str
  | S digits => String.append "0" (zeros digits str)
  end.

(** The number a string of decimal digits writes. *)
Definition parseDecimal (str : String.string) : option nat :=
  option_map Nat.of_uint (DecimalString.NilEmpty.uint_of_string str).

(** * Properties *)

(** ** Comparisons *)

Lemma Qlt_bool_iff x y : Qlt_bool x y = true <-> x < y.
Proof.
  unfold Qlt_bool. rewrite negb_true_iff.
  split; intros H.
  - apply Qnot_le_lt. intros Hle. apply Qle_bool_iff in Hle. congruence.
  - destruct (Qle_bool y x) eqn:E; [|reflexivity].
    apply Qle_bool_iff in E. exfalso. exact (Qlt_not_le _ _ H E).
Qed.

Lemma Qlt_bool_false x y : Qlt_bool x y = false <-> y <= x.
Proof.
  unfold Qlt_bool. rewrite negb_false_iff. apply Qle_bool_iff.
Qed.

(** ** The seeded generator *)

Section RngFacts.

Local Open Scope Z_scope.

Lemma createRng_valid seed :
  Z.rem seed 2147483647 <> -2147483646 -> validState (createRng seed).
Proof.
  intros Hne. unfold validState, createRng.
  pose proof (Z.rem_bound_abs seed 2147483647) as Hb.
  assert (Habs : Z.abs (Z.rem seed 2147483647) < 2147483647).
  { destruct (Z.le_gt_cases 0 seed) as [Hs|Hs].
    - pose proof (Z.rem_bound_pos seed 2147483647 Hs). lia.
    - pose proof (Z.rem_bound_neg_pos seed 2147483647). lia. }
  destruct (Z.rem seed 2147483647 <=? 0) eqn:E.
  - apply Z.leb_le in E. lia.
  - apply Z.leb_gt in E. lia.
Qed.

Lemma next_valid value : validState value -> validState (snd (next value)).
Proof.
  unfold validState, next. simpl. intros Hv.
  rewrite Z.rem_mod_nonneg by lia.
  pose proof (Z.mod_pos_bound (value * 16807) 2147483647) as Hb.
  assert (Hnz : (value * 16807) mod 2147483647 <> 0).
  { intros Hz. apply Z.mod_divide in Hz; [|lia].
    rewrite Z.mul_comm in Hz.
    apply Z.gauss in Hz.
    - apply Z.divide_pos_le in Hz; lia.
    - reflexivity. }
  lia.
Qed.

Lemma next_unit value :
  validState value -> (0 <= fst (next value) /\ fst (next value) < 1)%Q.
Proof.
  intros Hv. pose proof (next_valid value Hv) as Hn.
  unfold validState, next in *. simpl in *.
  unfold Qle, Qlt, Qdiv, Qmult, Qinv, inject_Z. simpl. lia.
Qed.

Lemma range_valid lo hi value :
  validState value -> validState (snd (range lo hi value)).
Proof.
  intros Hv. unfold range.
  pose proof (next_valid value Hv) as Hn.
  destruct (next value) as [u v]. exact Hn.
Qed.

Lemma range_bounds lo hi value :
  validState value -> (lo <= hi)%Q ->
  (lo <= fst (range lo hi value) /\ fst (range lo hi value) <= hi)%Q.
Proof.
  intros Hv Hlh. unfold range.
  pose proof (next_unit value Hv) as [H0 H1].
  destruct (next value) as [u v]. simpl in *. split; nra.
Qed.


End RngFacts.

(** C6 (failing input).  The seed -2147483646 passes the dialog's clamp and
    is normalized to the state 0, outside [1, 2147483646]; from there the
    state stays 0, [next] returns a negative number and [range] a number
    below its lower end. *)
Theorem createRng_degenerate_seed :
  createRng (-2147483646) = 0%Z /\
  snd (next (createRng (-2147483646))) = 0%Z /\
  fst (next (createRng (-2147483646))) < 0 /\
  fst (range (-8) 8 (createRng (-2147483646))) < -8.
Proof.
  repeat split; vm_compute; reflexivity.
Qed.

(** ** The radius of a level *)

(** C5 (counterexample).  With [baseRadius = 1], [radiusStep = 1] and no
    jitter, levels 1 and 2 both get the floor radius 5. *)
Lemma computeRadius_floor_not_increasing :
  ~ (fst (computeRadius 1 floorOptions (createRng 12345))
     < fst (computeRadius 2 floorOptions (createRng 12345))).
Proof.
  vm_compute. intros H. discriminate H.
Qed.

Section Rounding.
Import PrimFloat.

(** C5 (rounding).  Above the floor a level need not be wider than the one
    before either.  In binary64 the sum [250 + 1 * 1e-14] is 250: with
    [baseRadius = 250], [radiusStep = 1e-14] and no jitter, levels 1 and 2
    both get the radius 250.  A step of 180 is added exactly. *)
Lemma computeRadius_step_absorbed :
  let step := (1 / 100000000000000)%float in
  (0 <? step)%float = true /\
  Binary64.computeRadius 1 250 step 0 = 250%float /\
  Binary64.computeRadius 2 250 step 0 = 250%float /\
  Binary64.computeRadius 1 250 180 0 = 250%float /\
  Binary64.computeRadius 2 250 180 0 = 430%float.
Proof.
  repeat split; vm_compute; reflexivity.
Qed.

End Rounding.

(** C5 (amended).  Without radius jitter and with a positive step the radius
    never decreases with the level.  It increases strictly where the radius
    of the higher level, before the floor, exceeds 5 and the sum that gives
    it is exact in binary64 as it is in the rationals: [baseRadius] and
    [radiusStep] whole numbers, [baseRadius] not negative, the sum at most
    2^53. *)
Theorem computeRadius_monotone (opts : Options) (k1 k2 : nat) (r1 r2 : Rng) :
  radiusJitter opts == 0 -> 0 < radiusStep opts -> (1 <= k1)%nat -> (k1 < k2)%nat ->
  fst (computeRadius k1 opts r1) <= fst (computeRadius k2 opts r2) /\
  (wholeNumber (baseRadius opts) -> wholeNumber (radiusStep opts) ->
   0 <= baseRadius opts -> levelRadius opts k2 <= 9007199254740992 ->
   5 < levelRadius opts k2 ->
   fst (computeRadius k1 opts r1) < fst (computeRadius k2 opts r2)).
Proof.
  intros Hj Hstep Hk1 Hk.
  unfold computeRadius, levelRadius.
  assert (Hno : Qlt_bool 0 (radiusJitter opts) = false).
  { apply Qlt_bool_false. rewrite Hj. apply Qle_refl. }
  rewrite Hno. simpl.
  set (b1 := baseRadius opts + inject_Z (Z.of_nat k1 - 1) * radiusStep opts + 0).
  set (b2 := baseRadius opts + inject_Z (Z.of_nat k2 - 1) * radiusStep opts + 0).
  assert (H0 : 0 <= inject_Z (Z.of_nat k1 - 1)).
  { change 0 with (inject_Z 0). rewrite <- Zle_Qle. lia. }
  assert (H12 : inject_Z (Z.of_nat k1 - 1) + 1 <= inject_Z (Z.of_nat k2 - 1)).
  { change 1 with (inject_Z 1). rewrite <- inject_Z_plus, <- Zle_Qle. lia. }
  assert (Hb : b1 < b2) by (unfold b1, b2; nra).
  assert (Hb2 : b2 == baseRadius opts + inject_Z (Z.of_nat k2 - 1) * radiusStep opts)
    by (unfold b2; ring).
  destruct (Q.max_spec 5 b1) as [[Ha Ea]|[Ha Ea]];
  destruct (Q.max_spec 5 b2) as [[Hc Ec]|[Hc Ec]];
  rewrite Ea, Ec; split; intros; lra.
Qed.

Lemma computeRadius_monotone_witness :
  fst (computeRadius 1 steadyOptions (createRng 12345))
  < fst (computeRadius 2 steadyOptions (createRng 12345)).
Proof.
  refine (proj2 (computeRadius_monotone steadyOptions 1 2 _ _ _ _ _ _) _ _ _ _ _).
  - reflexivity.
  - reflexivity.
  - lia.
  - lia.
  - reflexivity.
  - reflexivity.
  - discriminate.
  - discriminate.
  - reflexivity.
Defined.

(** ** Seeds *)

(** C9.  The builder run with seed 0 leaves exactly what it leaves with
    seed 1 (generator, store with every angle, radius, id and link, serials,
    levels), so every node is placed at the same position; the scheduler
    starts from the generator of the constant 123987, which is not the
    generator of 0 * 17 + 53. *)
Theorem seed_zero_builds_as_seed_one (Math_PI : Q) (Math_cos Math_sin : Q -> Q)
    (opts : Options) (comp : Comp) (rootNode : nat) (st : Store) :
  buildTree (withSeed 0 opts) = buildTree (withSeed 1 opts) /\
  map (nullLayerPosition Math_PI Math_cos Math_sin (withSeed 0 opts) comp)
      (nodes (store (buildTree (withSeed 0 opts))))
  = map (nullLayerPosition Math_PI Math_cos Math_sin (withSeed 1 opts) comp)
        (nodes (store (buildTree (withSeed 1 opts)))) /\
  animRng (startSchedule (withSeed 0 opts) rootNode st) = createRng 123987 /\
  createRng 123987 <> createRng (0 * 17 + 53).
Proof.
  split; [reflexivity|]. split; [reflexivity|]. split; [reflexivity|].
  vm_compute. discriminate.
Qed.

(** ** The shape of the built tree *)

Lemma allChildren_app a b : allChildren (a ++ b) = allChildren a ++ allChildren b.
Proof.
  induction a as [|n a IH]; simpl; [reflexivity|].
  rewrite IH. apply app_assoc.
Qed.

Lemma allChildren_leaves ns :
  (forall i n, ns !! i = Some n -> children n = []) -> allChildren ns = [].
Proof.
  induction ns as [|n ns IH]; intros H; simpl; [reflexivity|].
  rewrite (H 0%nat n eq_refl). simpl. apply IH.
  intros i m Hi. apply (H (S i) m). exact Hi.
Qed.

Lemma treeInv_advance st q q' : TreeInv st q -> (q <= q')%nat -> TreeInv st q'.
Proof.
  intros [Hc Hl Hk Hf Ho Hn] Hq. split; try assumption.
  - rewrite <- (take_drop q (take q' (nodes st))).
    rewrite allChildren_app, take_take, Nat.min_l by exact Hq.
    rewrite Hk. rewrite allChildren_leaves; [apply app_nil_r|].
    intros i n Hi. rewrite lookup_drop in Hi.
    apply lookup_take_Some in Hi as [Hi _].
    apply (Hf (q + i)%nat); [lia|exact Hi].
  - intros j n Hj. apply Hf. lia.
Qed.

Lemma placeChild_store opts lvl p ang r g :
  (p < length (nodes (store g)))%nat ->
  store (placeChild opts lvl p ang r g) =
  mkStore
    (alter (pushChild (length (lineInfos (store g)))) p (nodes (store g)) ++
     [mkNode (nodeSerial g) lvl ang (fst (computeRadius lvl opts r)) (Some p) []
             (Some (length (lineInfos (store g)))) 0 0 0 0])
    (lineInfos (store g) ++
     [mkLineInfo p (length (nodes (store g))) None None]).
Proof.
  intros Hp. unfold placeChild.
  destruct (computeRadius lvl opts r) as [rad r']. simpl.
  f_equal.
  rewrite alter_app_l by exact Hp.
  rewrite <- (length_alter (pushChild (length (lineInfos (store g)))) (nodes (store g)) p) at 1.
  rewrite <- (Nat.add_0_r (length (alter _ p (nodes (store g))))).
  rewrite alter_app_r. reflexivity.
Qed.

Lemma placeChild_fields opts lvl p ang r g :
  nodeLevels (placeChild opts lvl p ang r g) = nodeLevels g /\
  levelNodes (placeChild opts lvl p ang r g)
  = levelNodes g ++ [length (nodes (store g))] /\
  nodeSerial (placeChild opts lvl p ang r g) = S (nodeSerial g) /\
  rng (placeChild opts lvl p ang r g) = snd (computeRadius lvl opts r).
Proof.
  unfold placeChild. destruct (computeRadius lvl opts r) as [rad r']. simpl. auto.
Qed.

Lemma placeChild_inv opts lvl p ang r g :
  (p < length (nodes (store g)))%nat ->
  TreeInv (store g) (S p) ->
  TreeInv (store (placeChild opts lvl p ang r g)) (S p) /\
  length (nodes (store (placeChild opts lvl p ang r g)))
  = S (length (nodes (store g))).
Proof.
  intros Hp [Hc Hl Hk Hf Ho Hn].
  rewrite placeChild_store by exact Hp.
  set (L := length (lineInfos (store g))) in *.
  set (ns := nodes (store g)) in *.
  destruct (lookup_lt_is_Some_2 ns p Hp) as [np Hnp].
  split; [|simpl; rewrite length_app, length_alter; simpl; lia].
  split; simpl.
  - rewrite !length_app, length_alter. simpl. fold L. lia.
  - intros k l Hkl. apply lookup_app_Some in Hkl as [Hkl|[Hge Hkl]].
    + apply Hl. exact Hkl.
    + fold L in Hge, Hkl. destruct (k - L)%nat eqn:E; [|discriminate].
      simpl in Hkl. injection Hkl as <-. simpl.
      assert (k = L) by lia. subst k. repeat split; try reflexivity; lia.
  - rewrite take_app_le by (rewrite length_alter; exact Hp).
    assert (Hap : alter (pushChild L) p ns !! p = Some (pushChild L np))
      by (rewrite list_lookup_alter_eq, Hnp; reflexivity).
    rewrite (take_S_r _ p _ Hap), take_alter_ge by lia.
    rewrite allChildren_app. simpl. rewrite app_nil_r.
    rewrite length_app. simpl. rewrite Nat.add_1_r, seq_S. simpl. fold L.
    rewrite <- Hk. rewrite (take_S_r ns p np Hnp), allChildren_app. simpl.
    rewrite app_nil_r. fold L. rewrite app_assoc. reflexivity.
  - intros j n Hj Hjn. apply lookup_app_Some in Hjn as [Hjn|[Hge Hjn]].
    + rewrite list_lookup_alter_ne in Hjn by lia. apply (Hf j); [exact Hj|exact Hjn].
    + rewrite length_alter in Hjn. destruct (j - length ns)%nat; [|discriminate].
      simpl in Hjn. injection Hjn as <-. reflexivity.
  - intros j n k Hjn Hk'. apply lookup_app_Some in Hjn as [Hjn|[Hge Hjn]].
    + destruct (decide (p = j)) as [->|Hne].
      * rewrite list_lookup_alter_eq, Hnp in Hjn. simpl in Hjn. injection Hjn as <-.
        simpl in Hk'. apply elem_of_app in Hk' as [Hk'|Hk'].
        -- destruct (Ho j np k Hnp Hk') as (l & Hkl & Hpl).
           exists l. split; [apply lookup_app_l_Some; exact Hkl|exact Hpl].
        -- apply list_elem_of_singleton in Hk'. subst k.
           eexists. split; [apply list_lookup_middle; reflexivity|reflexivity].
      * rewrite list_lookup_alter_ne in Hjn by exact Hne.
        destruct (Ho j n k Hjn Hk') as (l & Hkl & Hpl).
        exists l. split; [apply lookup_app_l_Some; exact Hkl|exact Hpl].
    + rewrite length_alter in Hjn. destruct (j - length ns)%nat; [|discriminate].
      simpl in Hjn. injection Hjn as <-. simpl in Hk'. inversion Hk'.
  - intros j n Hjn. apply lookup_app_Some in Hjn as [Hjn|[Hge Hjn]].
    + destruct (decide (p = j)) as [->|Hne].
      * rewrite list_lookup_alter_eq, Hnp in Hjn. simpl in Hjn. injection Hjn as <-.
        simpl. apply (Hn j np Hnp).
      * rewrite list_lookup_alter_ne in Hjn by exact Hne. apply (Hn j n Hjn).
    + rewrite length_alter in Hjn, Hge.
      destruct (j - length ns)%nat eqn:E; [|discriminate].
      simpl in Hjn. injection Hjn as <-. simpl.
      assert (j = length ns) by lia. subst j. fold ns in Hc. rewrite Hc.
      repeat split; reflexivity.
Qed.

(** A loop whose every turn places one child under [p]. *)
Lemma foldl_place opts lvl p (f : Gen -> nat -> Gen) :
  (forall g i, exists ang r, f g i = placeChild opts lvl p ang r g) ->
  forall (l : list nat) (g : Gen),
    (p < length (nodes (store g)))%nat ->
    TreeInv (store g) (S p) ->
    TreeInv (store (foldl f g l)) (S p) /\
    length (nodes (store (foldl f g l)))
    = (length (nodes (store g)) + length l)%nat /\
    nodeLevels (foldl f g l) = nodeLevels g /\
    levelNodes (foldl f g l)
    = levelNodes g ++ seq (length (nodes (store g))) (length l).
Proof.
  intros Hf l. induction l as [|i l IH]; intros g Hp Hinv; simpl.
  - rewrite Nat.add_0_r, app_nil_r. auto.
  - destruct (Hf g i) as (ang & r & ->).
    destruct (placeChild_inv opts lvl p ang r g Hp Hinv) as [Hinv' Hlen].
    destruct (placeChild_fields opts lvl p ang r g) as (Hnl & Hln & _).
    destruct (IH (placeChild opts lvl p ang r g)) as (H1 & H2 & H3 & H4);
      [lia|exact Hinv'|].
    rewrite H2, H3, H4, Hnl, Hln, Hlen.
    split; [exact H1|]. split; [lia|]. split; [reflexivity|].
    rewrite <- app_assoc. reflexivity.
Qed.

Lemma rootChild_places opts centerNode angleStep g i :
  exists ang r, rootChild opts centerNode angleStep g i
                = placeChild opts 1 centerNode ang r g.
Proof.
  unfold rootChild. destruct (angleJitterDraw opts (rng g)) as [j r].
  eauto.
Qed.

Lemma branchChild_places opts lvl p g c :
  exists ang r, branchChild opts lvl p g c = placeChild opts lvl p ang r g.
Proof.
  unfold branchChild. destruct (angleJitterDraw opts (rng g)) as [j r].
  eauto.
Qed.

(** The loop over the parents [f0, f0 + 1, ..., f0 + c - 1]. *)
Lemma foldl_parents opts lvl (c : nat) :
  forall (f0 : nat) (g : Gen),
    (f0 + c <= length (nodes (store g)))%nat ->
    TreeInv (store g) f0 ->
    let g' := foldl (fun g parentNode =>
                       foldl (branchChild opts lvl parentNode) g
                             (seq 0 (childrenPerNode opts)))
                    g (seq f0 c) in
    TreeInv (store g') (f0 + c) /\
    length (nodes (store g'))
    = (length (nodes (store g)) + c * childrenPerNode opts)%nat /\
    nodeLevels g' = nodeLevels g /\
    levelNodes g'
    = levelNodes g ++ seq (length (nodes (store g))) (c * childrenPerNode opts).
Proof.
  induction c as [|c IH]; intros f0 g Hle Hinv; simpl.
  - rewrite Nat.add_0_r, app_nil_r. auto.
  - destruct (foldl_place opts lvl f0 (branchChild opts lvl f0)
                (branchChild_places opts lvl f0)
                (seq 0 (childrenPerNode opts)) g) as (H1 & H2 & H3 & H4);
      [lia|apply (treeInv_advance _ f0); [exact Hinv|lia]|].
    rewrite length_seq in H2, H4.
    set (g1 := foldl (branchChild opts lvl f0) g (seq 0 (childrenPerNode opts))) in *.
    destruct (IH (S f0) g1) as (K1 & K2 & K3 & K4); [lia|exact H1|].
    simpl in K1, K2, K3, K4.
    rewrite K2, K3, K4, H2, H3, H4.
    replace (f0 + S c)%nat with (S (f0 + c)) by lia.
    split; [exact K1|]. split; [lia|]. split; [reflexivity|].
    rewrite <- app_assoc, <- seq_app. reflexivity.
Qed.

(** ** Counting nodes *)

Lemma levelWidth_succ opts l :
  levelWidth opts (S (S l))
  = (levelWidth opts (S l) * childrenPerNode opts)%nat.
Proof. unfold levelWidth. rewrite Nat.pow_succ_r'. lia. Qed.

Lemma geomSum_succ opts l :
  (initialLines opts * geomSum (childrenPerNode opts) (S (S l)))%nat
  = (initialLines opts * geomSum (childrenPerNode opts) (S l)
     + levelWidth opts (S l) * childrenPerNode opts)%nat.
Proof.
  unfold levelWidth. change (geomSum (childrenPerNode opts) (S (S l)))
    with (geomSum (childrenPerNode opts) (S l) + childrenPerNode opts ^ S l)%nat.
  rewrite Nat.pow_succ_r'. lia.
Qed.

Lemma growLevel_inv opts g lvl :
  LevelInv opts g lvl -> LevelInv opts (growLevel opts 0%nat g (S lvl)) (S lvl).
Proof.
  intros (first & Hlv & Hlast & Htot & Htree & Hcount).
  unfold growLevel. simpl Nat.sub. rewrite Nat.sub_0_r, Hlast. simpl default.
  set (g0 := mkGen (rng g) (store g) (nodeSerial g) (connectionSerial g)
                   (nodeLevels g) []).
  destruct lvl as [|l].
  - (* level 1 *)
    simpl Nat.eqb. cbv iota.
    simpl in Hcount. rewrite Nat.mul_0_r in Hcount.
    assert (Hf0 : first = 0%nat) by (simpl in Htot; lia). subst first.
    destruct (foldl_place opts 1 0%nat
                (rootChild opts 0%nat
                   (if (0 <? initialLines opts)%nat
                    then 360 / inject_Z (Z.of_nat (initialLines opts)) else 0))
                (rootChild_places opts 0%nat _)
                (seq 0 (initialLines opts)) g0) as (H1 & H2 & H3 & H4).
    { simpl. simpl in Htot. lia. }
    { simpl. apply (treeInv_advance _ 0%nat); [exact Htree|lia]. }
    rewrite length_seq in H2, H4. simpl in H2, H3, H4.
    simpl in Htot.
    exists 1%nat. simpl. repeat apply conj.
    + rewrite H3, length_app, Hlv. simpl. lia.
    + rewrite H3, lookup_app_r by lia. rewrite Hlv. simpl.
      rewrite H4, <- Htot, Nat.mul_1_r. reflexivity.
    + rewrite H2, <- Htot. lia.
    + exact H1.
    + rewrite H2, <- Htot. lia.
  - (* deeper levels *)
    simpl Nat.eqb. cbv iota.
    destruct (foldl_parents opts (S (S l)) (levelWidth opts (S l)) first g0)
      as (H1 & H2 & H3 & H4).
    { unfold g0. cbn [store]. lia. }
    { exact Htree. }
    cbv zeta in H1, H2, H3, H4.
    change (nodeLevels g0) with (nodeLevels g) in H3.
    change (levelNodes g0) with (@nil nat) in H4.
    change (store g0) with (store g) in H2, H4.
    exists (length (nodes (store g))). cbn [store nodeLevels levelNodes rng].
    rewrite levelWidth_succ. repeat apply conj.
    + rewrite H3, length_app, Hlv. simpl. lia.
    + rewrite H3, lookup_app_r by lia. rewrite Hlv, Nat.sub_diag, H4.
      reflexivity.
    + rewrite H2. reflexivity.
    + rewrite Htot in H1. exact H1.
    + rewrite H2, Hcount, geomSum_succ. lia.
Qed.

Lemma buildTree_inv opts : LevelInv opts (buildTree opts) (levels opts).
Proof.
  unfold buildTree. simpl.
  set (g0 := mkGen _ _ 1 0 [[0%nat]] []).
  assert (H0 : LevelInv opts g0 0).
  { exists 0%nat. simpl. repeat apply conj; try reflexivity; try lia.
    split; simpl; try reflexivity.
    - intros k l Hk. rewrite lookup_nil in Hk. discriminate.
    - intros j n _ Hj. destruct j; [|simpl in Hj; discriminate].
      injection Hj as <-. reflexivity.
    - intros j n k Hj Hk. destruct j; [|simpl in Hj; discriminate].
      injection Hj as <-. simpl in Hk. inversion Hk.
    - intros j n Hj. destruct j; [|simpl in Hj; discriminate].
      injection Hj as <-. simpl. auto. }
  generalize (levels opts). intros n.
  induction n as [|n IH]; [exact H0|].
  rewrite seq_S, foldl_app. simpl. apply growLevel_inv. exact IH.
Qed.

(** C1 (counterexample).  In the scenario the builder creates 13 nodes,
    the stated formula gives 5. *)
Lemma node_count_formula_off_by_one_level :
  length (nodes (store (buildTree scenarioOptions))) = 13%nat /\
  claimedNodeCount scenarioOptions = 5%nat /\
  length (nodes (store (buildTree scenarioOptions)))
  <> claimedNodeCount scenarioOptions.
Proof.
  split; [vm_compute; reflexivity|]. split; [vm_compute; reflexivity|].
  vm_compute. discriminate.
Qed.

(** ** The scenario *)

(** C2.  In the scenario, whatever the other options, the builder creates
    13 nodes, the nodes of level 1 have the angles 0, 90, 180, 270 in this
    order, and the children of the level-1 node at angle 0 have the angles
    -30 and 30. *)
Theorem scenario_angles (opts : Options) :
  seed opts = 12345%Z -> initialLines opts = 4%nat -> levels opts = 2%nat ->
  childrenPerNode opts = 2%nat -> angleJitter opts = 0 -> branchSpread opts = 60 ->
  let g := buildTree opts in
  length (nodes (store g)) = 13%nat /\
  nodeLevels g !! 1%nat = Some [1; 2; 3; 4]%nat /\
  Forall2 Qeq (anglesOf (store g) [1; 2; 3; 4]%nat) [0; 90; 180; 270] /\
  (forall ref a, ref ∈ [1; 2; 3; 4]%nat ->
     option_map angle (nodes (store g) !! ref) = Some a -> a == 0 ->
     Forall2 Qeq (anglesOf (store g) (childrenOf (store g) ref)) [-30; 30]).
Proof.
  destruct opts. simpl. intros -> -> -> -> -> ->.
  cbv beta iota zeta delta
    [buildTree growLevel rootChild branchChild placeChild computeRadius
     angleJitterDraw seed initialLines levels childrenPerNode angleJitter
     branchSpread radiusJitter baseRadius radiusStep].
  change (Qlt_bool 0 0) with false.
  destruct (Qlt_bool 0 radiusJitter0);
    cbn -[Qplus Qmult Qdiv Qmax Qopp Qminus inject_Z Z.rem Z.mul Z.sub
          Z.of_nat Qeq createRng];
    (split; [reflexivity|]); (split; [reflexivity|]);
    (split; [repeat constructor|]);
    intros ref a Href Ha H0;
    repeat (apply elem_of_cons in Href as [->|Href]);
    try (inversion Href; fail);
    simpl in Ha; injection Ha as <-;
    try (exfalso; vm_compute in H0; discriminate H0);
    repeat constructor.
Qed.

Lemma scenario_angles_witness :
  length (nodes (store (buildTree scenarioOptions))) = 13%nat.
Proof.
  refine (proj1 (scenario_angles scenarioOptions _ _ _ _ _ _)); reflexivity.
Defined.

(** ** The traversal on a built tree *)

Lemma eraseNode_setTimes a b n : eraseNode (setTimes a b n) = eraseNode n.
Proof. reflexivity. Qed.

Lemma eraseLine_setLineTimes a b l : eraseLine (setLineTimes a b l) = eraseLine l.
Proof. reflexivity. Qed.

Lemma erase_node st st' j n :
  erase st = erase st' -> nodes st !! j = Some n ->
  exists n', nodes st' !! j = Some n' /\ eraseNode n' = eraseNode n.
Proof.
  intros He Hj. apply (f_equal nodes) in He. simpl in He.
  assert (H : (eraseNode <$> nodes st') !! j = Some (eraseNode n))
    by (rewrite <- He, list_lookup_fmap, Hj; reflexivity).
  rewrite list_lookup_fmap in H.
  destruct (nodes st' !! j) as [n'|]; [|discriminate].
  exists n'. split; [reflexivity|]. simpl in H. congruence.
Qed.

Lemma erase_line st st' k l :
  erase st = erase st' -> lineInfos st !! k = Some l ->
  exists l', lineInfos st' !! k = Some l' /\ eraseLine l' = eraseLine l.
Proof.
  intros He Hk. apply (f_equal lineInfos) in He. simpl in He.
  assert (H : (eraseLine <$> lineInfos st') !! k = Some (eraseLine l))
    by (rewrite <- He, list_lookup_fmap, Hk; reflexivity).
  rewrite list_lookup_fmap in H.
  destruct (lineInfos st' !! k) as [l'|]; [|discriminate].
  exists l'. split; [reflexivity|]. simpl in H. congruence.
Qed.

Lemma erase_lengths st st' :
  erase st = erase st' ->
  length (nodes st) = length (nodes st') /\
  length (lineInfos st) = length (lineInfos st').
Proof.
  intros He. split.
  - apply (f_equal nodes) in He. simpl in He.
    apply (f_equal length) in He. rewrite !length_fmap in He. exact He.
  - apply (f_equal lineInfos) in He. simpl in He.
    apply (f_equal length) in He. rewrite !length_fmap in He. exact He.
Qed.

Lemma eraseNode_children n n' : eraseNode n' = eraseNode n -> children n' = children n.
Proof. intros H. apply (f_equal children) in H. exact H. Qed.

Lemma eraseLine_ends l l' :
  eraseLine l' = eraseLine l ->
  parentNode l' = parentNode l /\ childNode l' = childNode l.
Proof.
  intros H. split; [apply (f_equal parentNode) in H|apply (f_equal childNode) in H];
    exact H.
Qed.

Section TraversalFacts.

Variable opts : Options.
Variable rootNode : nat.

(** The loop body when the line and its child exist. *)
Lemma scheduleLine_eq s current i ref l ch :
  lineInfos (scene s) !! ref = Some l ->
  nodes (scene s) !! childNode l = Some ch ->
  scheduleLine opts rootNode current s i ref =
  mkSched (snd (edgeOffset opts rootNode current i (animRng s)))
    (mkStore
       (<[childNode l := setTimes (fst (windowOf opts rootNode s current i))
                                  (snd (windowOf opts rootNode s current i)) ch]>
          (nodes (scene s)))
       (<[ref := setLineTimes (lineStartOf opts rootNode s current i) (lineEndOf opts rootNode s current i) l]>
          (lineInfos (scene s))))
    (queue s ++ [childNode l])
    (if Qlt_bool (maxTime s) (snd (windowOf opts rootNode s current i))
     then snd (windowOf opts rootNode s current i) else maxTime s).
Proof.
  intros Hl Hc. unfold scheduleLine, windowOf, lineEndOf, lineStartOf, outTimeAt.
  rewrite Hl.
  destruct (edgeOffset opts rootNode current i (animRng s)) as [off r].
  cbn [fst snd]. rewrite Hc.
  match goal with
  | |- context [childWindow ?o ?a ?b] => destruct (childWindow o a b) as [wa wb]
  end.
  reflexivity.
Qed.

Lemma scheduleLine_erase s current i ref :
  erase (scene (scheduleLine opts rootNode current s i ref)) = erase (scene s).
Proof.
  unfold scheduleLine.
  destruct (lineInfos (scene s) !! ref) as [l|] eqn:Hl; [|reflexivity].
  destruct (edgeOffset opts rootNode current i (animRng s)) as [off r].
  assert (Hls : forall a b,
    eraseLine <$> <[ref := setLineTimes a b l]> (lineInfos (scene s))
    = eraseLine <$> lineInfos (scene s)).
  { intros a b. rewrite list_fmap_insert, eraseLine_setLineTimes.
    apply list_insert_id. rewrite list_lookup_fmap, Hl. reflexivity. }
  destruct (nodes (scene s) !! childNode l) as [ch|] eqn:Hc.
  - destruct (childWindow opts _ _) as [a b]. unfold erase. simpl.
    rewrite Hls. f_equal.
    rewrite list_fmap_insert, eraseNode_setTimes.
    apply list_insert_id. rewrite list_lookup_fmap, Hc. reflexivity.
  - unfold erase. simpl. rewrite Hls. reflexivity.
Qed.

Lemma scheduleLine_core s1 s2 current i ref :
  core s1 = core s2 ->
  core (scheduleLine opts rootNode current s1 i ref)
  = core (scheduleLine opts rootNode current s2 i ref).
Proof.
  destruct s1 as [r1 st1 q1 m1], s2 as [r2 st2 q2 m2]. unfold core. simpl.
  intros H. injection H as -> -> ->.
  unfold scheduleLine. simpl.
  destruct (lineInfos st2 !! ref) as [l|]; [|reflexivity].
  destruct (edgeOffset opts rootNode current i r2) as [off r].
  destruct (nodes st2 !! childNode l) as [ch|]; reflexivity.
Qed.

Lemma scheduleLines_chunk current childLines :
  forall i s,
    scheduleLines opts rootNode current i childLines s
    = foldl (step opts rootNode) s (chunk current i childLines).
Proof.
  induction childLines as [|ref rest IH]; intros i s; simpl; [reflexivity|].
  rewrite IH. reflexivity.
Qed.

Lemma foldl_step_erase es : forall s, erase (scene (foldl (step opts rootNode) s es)) = erase (scene s).
Proof.
  induction es as [|e es IH]; intros s; simpl; [reflexivity|].
  rewrite IH. apply scheduleLine_erase.
Qed.

Lemma foldl_step_core es :
  forall s1 s2, core s1 = core s2 -> core (foldl (step opts rootNode) s1 es) = core (foldl (step opts rootNode) s2 es).
Proof.
  induction es as [|e es IH]; intros s1 s2 H; simpl; [exact H|].
  apply IH. apply scheduleLine_core. exact H.
Qed.

End TraversalFacts.

Lemma seq_middle (a b c : list nat) :
  forall start len, a ++ b ++ c = seq start len ->
  b = seq (start + length a) (length b).
Proof.
  induction a as [|x a IH]; intros start len H; simpl in *.
  - rewrite Nat.add_0_r. revert start len H.
    induction b as [|y b IHb]; intros start len H; simpl in *; [reflexivity|].
    destruct len as [|len]; [discriminate|]. simpl in H.
    injection H as Hy H. subst y. f_equal. apply (IHb _ _ H).
  - destruct len as [|len]; [discriminate|]. simpl in H.
    injection H as Hx H. subst x.
    replace (start + S (length a))%nat with (S start + length a)%nat by lia.
    apply (IH _ _ H).
Qed.

Lemma elem_of_allChildren k ns :
  k ∈ allChildren ns -> exists i n, ns !! i = Some n /\ k ∈ children n.
Proof.
  induction ns as [|n ns IH]; simpl; intros H; [inversion H|].
  apply elem_of_app in H as [H|H].
  - exists 0%nat, n. auto.
  - destruct (IH H) as (i & m & Hi & Hm). exists (S i), m. auto.
Qed.

Section BuiltTree.

Variable st : Store.
Hypothesis Htree : TreeInv st (length (nodes st)).

Lemma tree_allChildren : allChildren (nodes st) = seq 0 (length (lineInfos st)).
Proof.
  rewrite <- (ti_kids _ _ Htree), firstn_all. reflexivity.
Qed.

Lemma tree_children j n :
  nodes st !! j = Some n ->
  children n = seq (linesBefore st j) (length (children n)) /\
  linesBefore st (S j) = (linesBefore st j + length (children n))%nat /\
  (linesBefore st j + length (children n) <= length (lineInfos st))%nat.
Proof.
  intros Hj. unfold linesBefore.
  pose proof tree_allChildren as Hall.
  rewrite <- (take_drop_middle (nodes st) j n Hj) in Hall.
  rewrite allChildren_app in Hall. simpl in Hall.
  split; [|split].
  - apply (seq_middle _ _ _ _ _ Hall).
  - rewrite (take_S_r _ _ _ Hj), allChildren_app, length_app. simpl.
    rewrite app_nil_r. reflexivity.
  - apply (f_equal length) in Hall.
    rewrite !length_app, length_seq in Hall. lia.
Qed.

Lemma tree_linesBefore_all :
  linesBefore st (length (nodes st)) = length (lineInfos st).
Proof.
  unfold linesBefore. rewrite firstn_all, tree_allChildren, length_seq.
  reflexivity.
Qed.

Lemma tree_linesBefore_ge j :
  (j < length (nodes st))%nat -> (j <= linesBefore st j)%nat.
Proof.
  intros Hj. destruct (le_lt_dec j (linesBefore st j)) as [H|H]; [exact H|].
  exfalso.
  pose proof tree_allChildren as Hall.
  rewrite <- (take_drop j (nodes st)), allChildren_app in Hall.
  pose proof (ti_count _ _ Htree) as Hcount.
  assert (Hk : (allChildren (take j (nodes st)) ++ allChildren (drop j (nodes st)))
               !! linesBefore st j = Some (linesBefore st j)).
  { rewrite Hall. apply lookup_seq_lt. lia. }
  rewrite lookup_app_r in Hk by (unfold linesBefore; lia).
  unfold linesBefore in Hk at 1. rewrite Nat.sub_diag in Hk.
  apply list_elem_of_lookup_2 in Hk.
  apply elem_of_allChildren in Hk as (i & n & Hi & Hn).
  rewrite lookup_drop in Hi.
  destruct (ti_owner _ _ Htree _ _ _ Hi Hn) as (l & Hl & Hp).
  destruct (ti_lines _ _ Htree _ _ Hl) as (_ & Hle & _).
  lia.
Qed.

End BuiltTree.

Lemma buildTree_tree opts :
  TreeInv (store (buildTree opts)) (length (nodes (store (buildTree opts)))).
Proof.
  destruct (buildTree_inv opts) as (first & _ & _ & Htot & Htree & _).
  apply (treeInv_advance _ first); [exact Htree|lia].
Qed.

Section DrainPlan.

Variable opts : Options.
Variable rootNode : nat.
Variable st0 : Store.
Hypothesis Htree : TreeInv st0 (length (nodes st0)).

(** In a state with the shape of the tree, line [k] and its child exist. *)
Lemma tree_line_child s k :
  erase (scene s) = erase st0 -> (k < length (lineInfos st0))%nat ->
  exists l ch, lineInfos (scene s) !! k = Some l /\
               nodes (scene s) !! S k = Some ch /\
               childNode l = S k /\ (parentNode l <= k)%nat.
Proof.
  intros He Hk.
  destruct (lookup_lt_is_Some_2 _ _ Hk) as [l0 Hl0].
  destruct (erase_line _ _ _ _ (eq_sym He) Hl0) as (l & Hl & Hel).
  apply eraseLine_ends in Hel as [Hp Hc].
  destruct (ti_lines _ _ Htree _ _ Hl0) as (Hc0 & Hp0 & _).
  pose proof (ti_count _ _ Htree) as Hcount.
  destruct (erase_lengths _ _ He) as [Hn _].
  destruct (lookup_lt_is_Some_2 (nodes (scene s)) (S k)) as [ch Hch]; [lia|].
  exists l, ch. repeat split; try assumption; congruence.
Qed.

Lemma chunk_queue current len :
  forall k0 i0 s,
    erase (scene s) = erase st0 ->
    (k0 + len <= length (lineInfos st0))%nat ->
    queue (foldl (step opts rootNode) s (chunk current i0 (seq k0 len)))
    = queue s ++ seq (S k0) len.
Proof.
  induction len as [|len IH]; intros k0 i0 s He Hk; simpl.
  - rewrite app_nil_r. reflexivity.
  - destruct (tree_line_child s k0 He) as (l & ch & Hl & Hch & Hc & _); [lia|].
    rewrite IH.
    + unfold step at 1. simpl. rewrite <- Hc in Hch.
      rewrite (scheduleLine_eq _ _ _ _ _ _ _ _ Hl Hch). simpl.
      rewrite Hc, <- app_assoc. reflexivity.
    + unfold step. rewrite scheduleLine_erase. exact He.
    + lia.
Qed.

(** The [while] loop visits the nodes in the order of the store and ends
    with an empty queue within one turn per node. *)
Lemma drain_plan fuel :
  forall j s,
    erase (scene s) = erase st0 ->
    (j <= length (nodes st0))%nat ->
    queue s = seq j (S (linesBefore st0 j) - j) ->
    (length (nodes st0) - j <= fuel)%nat ->
    exists s', drain opts rootNode fuel s = Some s' /\ queue s' = [] /\
               core s' = core (foldl (step opts rootNode) s
                                     (planFrom j (drop j (nodes st0)))).
Proof.
  induction fuel as [|fuel IH]; intros j s He Hj Hq Hfuel.
  - assert (j = length (nodes st0)) by lia. subst j.
    rewrite (tree_linesBefore_all _ Htree) in Hq.
    pose proof (ti_count _ _ Htree) as Hcount.
    replace (S (length (lineInfos st0)) - length (nodes st0))%nat with 0%nat in Hq by lia.
    simpl in Hq. exists s. simpl. rewrite Hq, drop_all. simpl. auto.
  - destruct (decide (j = length (nodes st0))) as [->|Hne].
    + rewrite (tree_linesBefore_all _ Htree) in Hq.
      pose proof (ti_count _ _ Htree) as Hcount.
      replace (S (length (lineInfos st0)) - length (nodes st0))%nat with 0%nat in Hq by lia.
      simpl in Hq. exists s. simpl. rewrite Hq, drop_all. simpl. auto.
    + assert (Hlt : (j < length (nodes st0))%nat) by lia.
      pose proof (tree_linesBefore_ge _ Htree j Hlt) as Hge.
      destruct (lookup_lt_is_Some_2 _ _ Hlt) as [n0 Hn0].
      destruct (tree_children _ Htree j n0 Hn0) as (Hkids & Hnext & Hbound).
      destruct (erase_node _ _ _ _ (eq_sym He) Hn0) as (n & Hn & Hen).
      apply eraseNode_children in Hen.
      replace (S (linesBefore st0 j) - j)%nat
        with (S (linesBefore st0 j - j)) in Hq by lia.
      simpl in Hq. simpl. rewrite Hq. unfold visit. rewrite Hn. simpl.
      rewrite Hen, scheduleLines_chunk.
      set (s0 := mkSched (animRng s) (scene s)
                         (seq (S j) (linesBefore st0 j - j)) (maxTime s)).
      set (s1 := foldl (step opts rootNode) s0 (chunk j 0 (children n0))).
      destruct (IH (S j) s1) as (s' & Hd & Hq' & Hcore).
      * unfold s1. rewrite foldl_step_erase. exact He.
      * lia.
      * unfold s1. rewrite Hkids, chunk_queue by (exact He || exact Hbound).
        simpl. rewrite Hnext.
        replace (linesBefore st0 j + length (children n0) - j)%nat
          with ((linesBefore st0 j - j) + length (children n0))%nat by lia.
        rewrite seq_app. do 2 f_equal. lia.
      * lia.
      * exists s'. split; [exact Hd|]. split; [exact Hq'|].
        rewrite Hcore. rewrite (drop_S _ _ _ Hn0). simpl.
        rewrite foldl_app. apply foldl_step_core.
        unfold s1. apply foldl_step_core. reflexivity.
Qed.

End DrainPlan.

(** Induction along a left fold, with the position of the turn. *)
Lemma foldl_ind_index {X E : Type} (f : X -> E -> X) (I : nat -> X -> Prop)
    (es : list E) (x0 : X) :
  I 0%nat x0 ->
  (forall k e x, es !! k = Some e -> I k x -> I (S k) (f x e)) ->
  I (length es) (foldl f x0 es).
Proof.
  intros H0 Hstep.
  assert (H : forall m, (m <= length es)%nat -> I m (foldl f x0 (take m es))).
  { induction m as [|m IH]; intros Hm; [exact H0|].
    destruct (lookup_lt_is_Some_2 es m) as [e He]; [lia|].
    rewrite (take_S_r _ _ _ He), foldl_app. simpl.
    apply (Hstep m e); [exact He|apply IH; lia]. }
  specialize (H (length es) (le_n _)). rewrite firstn_all in H. exact H.
Qed.

Lemma foldl_pair {X Y E : Type} (f : X -> E -> X) (g : Y -> E -> Y) (es : list E) :
  forall x y,
    foldl (fun p e => (f (fst p) e, g (snd p) e)) (x, y) es
    = (foldl f x es, foldl g y es).
Proof.
  induction es as [|e es IH]; intros x y; simpl; [reflexivity|]. apply IH.
Qed.

Lemma chunk_snd current childLines :
  forall i, snd <$> chunk current i childLines = childLines.
Proof.
  induction childLines as [|ref rest IH]; intros i; simpl; [reflexivity|].
  rewrite IH. reflexivity.
Qed.

Lemma chunk_elem current childLines e :
  forall i, e ∈ chunk current i childLines ->
            fst (fst e) = current /\ snd e ∈ childLines.
Proof.
  induction childLines as [|ref rest IH]; intros i H; simpl in H; [inversion H|].
  apply elem_of_cons in H as [->|H].
  - simpl. split; [reflexivity|]. apply elem_of_cons. auto.
  - destruct (IH _ H) as [H1 H2]. split; [exact H1|].
    apply elem_of_cons. auto.
Qed.

Lemma planFrom_snd ns : forall j, snd <$> planFrom j ns = allChildren ns.
Proof.
  induction ns as [|n ns IH]; intros j; simpl; [reflexivity|].
  rewrite fmap_app, chunk_snd, IH. reflexivity.
Qed.

Lemma planFrom_elem ns e :
  forall j, e ∈ planFrom j ns ->
            exists n, ns !! (fst (fst e) - j)%nat = Some n /\
                      (j <= fst (fst e))%nat /\ snd e ∈ children n.
Proof.
  induction ns as [|n ns IH]; intros j H; simpl in H; [inversion H|].
  apply elem_of_app in H as [H|H].
  - apply chunk_elem in H as [H1 H2]. exists n.
    rewrite H1, Nat.sub_diag. auto.
  - destruct (IH _ H) as (m & Hm & Hj & Hc). exists m.
    replace (fst (fst e) - j)%nat with (S (fst (fst e) - S j)) by lia.
    split; [exact Hm|]. split; [lia|exact Hc].
Qed.

Section TreePlan.

Variable opts : Options.
Variable rootNode : nat.
Variable st0 : Store.
Hypothesis Htree : TreeInv st0 (length (nodes st0)).

Lemma plan_length : length (plan st0) = length (lineInfos st0).
Proof.
  unfold plan. rewrite <- (length_fmap snd), planFrom_snd.
  rewrite (tree_allChildren _ Htree), length_seq. reflexivity.
Qed.

(** The turn at position [k] of the traversal handles line [k], and its
    node is the parent of that line. *)
Lemma plan_entry k e :
  plan st0 !! k = Some e ->
  snd e = k /\ (k < length (lineInfos st0))%nat /\
  exists l0, lineInfos st0 !! k = Some l0 /\ parentNode l0 = fst (fst e).
Proof.
  intros He.
  assert (Hs : (snd <$> plan st0) !! k = Some (snd e))
    by (rewrite list_lookup_fmap, He; reflexivity).
  unfold plan in Hs. rewrite planFrom_snd, (tree_allChildren _ Htree) in Hs.
  apply lookup_seq in Hs as [Hs Hk]. simpl in Hs.
  split; [exact Hs|]. split; [exact Hk|].
  apply list_elem_of_lookup_2 in He. unfold plan in He.
  apply planFrom_elem in He as (n & Hn & _ & Hc).
  rewrite Nat.sub_0_r in Hn.
  destruct (ti_owner _ _ Htree _ _ _ Hn Hc) as (l0 & Hl0 & Hp).
  rewrite Hs in Hl0. eauto.
Qed.

(** The turn at position [k], on a state with the shape of the tree. *)
Lemma step_tree s k e :
  erase (scene s) = erase st0 -> plan st0 !! k = Some e ->
  exists l ch,
    lineInfos (scene s) !! k = Some l /\ nodes (scene s) !! S k = Some ch /\
    childNode l = S k /\ parentNode l = fst (fst e) /\ (fst (fst e) <= k)%nat /\
    step opts rootNode s e =
    mkSched (snd (edgeOffset opts rootNode (fst (fst e)) (snd (fst e)) (animRng s)))
      (mkStore
         (<[S k := setTimes (fst (windowOf opts rootNode s (fst (fst e)) (snd (fst e))))
                            (snd (windowOf opts rootNode s (fst (fst e)) (snd (fst e))))
                            ch]> (nodes (scene s)))
         (<[k := setLineTimes (lineStartOf opts rootNode s (fst (fst e)) (snd (fst e)))
                              (lineEndOf opts rootNode s (fst (fst e)) (snd (fst e)))
                              l]> (lineInfos (scene s))))
      (queue s ++ [S k])
      (if Qlt_bool (maxTime s) (snd (windowOf opts rootNode s (fst (fst e)) (snd (fst e))))
       then snd (windowOf opts rootNode s (fst (fst e)) (snd (fst e)))
       else maxTime s).
Proof.
  intros He Hk.
  destruct (plan_entry k e Hk) as (Hs & Hlt & l0 & Hl0 & Hp0).
  destruct (tree_line_child st0 Htree s k He Hlt) as (l & ch & Hl & Hch & Hc & Hp).
  destruct (erase_line _ _ _ _ He Hl) as (l0' & Hl0' & Hel).
  rewrite Hl0 in Hl0'. injection Hl0' as <-.
  apply eraseLine_ends in Hel as [Hpp _].
  exists l, ch. split; [exact Hl|]. split; [exact Hch|]. split; [exact Hc|].
  split; [congruence|]. split; [lia|].
  unfold step. rewrite Hs. rewrite <- Hc in Hch.
  rewrite (scheduleLine_eq _ _ _ _ _ _ _ _ Hl Hch), Hc. reflexivity.
Qed.

End TreePlan.

(** The traversal of the built tree ends within one turn per node, with an
    empty queue, after the turns of [plan] in order. *)
Theorem traversal_result (opts : Options) :
  exists s,
    drain opts 0%nat (length (nodes (store (buildTree opts))))
          (startSchedule opts 0%nat (store (buildTree opts))) = Some s /\
    queue s = [] /\
    core s = core (foldl (step opts 0%nat)
                         (startSchedule opts 0%nat (store (buildTree opts)))
                         (plan (store (buildTree opts)))).
Proof.
  pose proof (buildTree_tree opts) as Htree.
  set (st0 := store (buildTree opts)) in *.
  destruct (drain_plan opts 0%nat st0 Htree (length (nodes st0)) 0%nat
              (startSchedule opts 0%nat st0)) as (s & Hd & Hq & Hc).
  - unfold startSchedule, erase. simpl. f_equal.
    rewrite (list_fmap_alter eraseNode (setTimes 0 (0 + nodeDuration opts))
                             (fun n => n))
      by (apply Forall_forall; reflexivity).
    apply list_alter_id. reflexivity.
  - lia.
  - reflexivity.
  - lia.
  - exists s. rewrite drop_0 in Hc. auto.
Qed.

(** ** Windows and offsets *)

Lemma childWindow_bounds opts ls le :
  ls <= le -> 0 <= nodeDuration opts ->
  ls <= fst (childWindow opts ls le) /\
  fst (childWindow opts ls le) <= snd (childWindow opts ls le) /\
  le <= snd (childWindow opts ls le) /\
  fst (childWindow opts ls le) + nodeDuration opts <= snd (childWindow opts ls le).
Proof.
  intros Hl Hn. unfold childWindow.
  destruct (smoothFlow opts); simpl.
  - pose proof (Q.le_max_l (nodeDuration opts) (1 # 10000)) as H1.
    pose proof (Q.le_max_r (nodeDuration opts) (1 # 10000)) as H2.
    destruct (Qlt_bool (ls + Qmax (nodeDuration opts) (1 # 10000)) le) eqn:E.
    + apply Qlt_bool_iff in E. repeat split; lra.
    + apply Qlt_bool_false in E. repeat split; lra.
  - repeat split; lra.
Qed.

Lemma edgeOffset_rng opts rootNode current i r :
  snd (edgeOffset opts rootNode current i r)
  = if Qlt_bool 0 (randomOffset opts) then snd (next r) else r.
Proof.
  unfold edgeOffset, range.
  destruct (Qlt_bool 0 (randomOffset opts)); [|reflexivity].
  destruct (next r) as [u v]. reflexivity.
Qed.

Lemma edgeOffset_lower opts rootNode current i r :
  0 <= childStagger opts -> 0 <= randomOffset opts ->
  (0 < randomOffset opts -> validState r) ->
  - randomOffset opts <= fst (edgeOffset opts rootNode current i r).
Proof.
  intros Hcs Hro Hv. unfold edgeOffset.
  assert (Hi : 0 <= inject_Z (Z.of_nat i)).
  { change 0 with (inject_Z 0). rewrite <- Zle_Qle. lia. }
  destruct (Qlt_bool 0 (randomOffset opts)) eqn:E.
  - apply Qlt_bool_iff in E.
    pose proof (range_bounds (- randomOffset opts) (randomOffset opts) r
                  (Hv E)) as Hb.
    destruct (range (- randomOffset opts) (randomOffset opts) r) as [x r'].
    simpl in *. destruct Hb as [Hb _]; [lra|].
    destruct ((current =? rootNode)%nat && simultaneousRoot opts); simpl; [lra|nra].
  - simpl. destruct ((current =? rootNode)%nat && simultaneousRoot opts); simpl; [lra|nra].
Qed.

Lemma edgeOffset_valid opts rootNode current i r :
  (0 < randomOffset opts -> validState r) ->
  0 < randomOffset opts ->
  validState (snd (edgeOffset opts rootNode current i r)).
Proof.
  intros Hv Hro. rewrite edgeOffset_rng.
  destruct (Qlt_bool 0 (randomOffset opts)) eqn:E.
  - apply next_valid. auto.
  - auto.
Qed.

(** ** Invariants of the traversal of the built tree *)

Section Run.

Variable opts : Options.

Let st0 := store (buildTree opts).
Let s0 := startSchedule opts 0%nat st0.

Lemma start_erase : erase (scene s0) = erase st0.
Proof.
  unfold s0, startSchedule, erase. simpl. f_equal.
  rewrite (list_fmap_alter eraseNode (setTimes 0 (0 + nodeDuration opts))
                           (fun n => n))
    by (apply Forall_forall; reflexivity).
  apply list_alter_id. reflexivity.
Qed.

(** An invariant of the turns holds of the state the loop ends in. *)
Lemma run_invariant (P : nat -> Sched -> Prop) :
  (forall k s s', core s = core s' -> P k s -> P k s') ->
  P 0%nat s0 ->
  (forall k e s l ch,
     plan st0 !! k = Some e ->
     erase (scene s) = erase st0 ->
     lineInfos (scene s) !! k = Some l -> nodes (scene s) !! S k = Some ch ->
     childNode l = S k -> parentNode l = fst (fst e) -> (fst (fst e) <= k)%nat ->
     P k s ->
     P (S k)
       (mkSched (snd (edgeOffset opts 0%nat (fst (fst e)) (snd (fst e)) (animRng s)))
          (mkStore
             (<[S k := setTimes (fst (windowOf opts 0%nat s (fst (fst e)) (snd (fst e))))
                                (snd (windowOf opts 0%nat s (fst (fst e)) (snd (fst e))))
                                ch]> (nodes (scene s)))
             (<[k := setLineTimes (lineStartOf opts 0%nat s (fst (fst e)) (snd (fst e)))
                                  (lineEndOf opts 0%nat s (fst (fst e)) (snd (fst e)))
                                  l]> (lineInfos (scene s))))
          (queue s ++ [S k])
          (if Qlt_bool (maxTime s)
                (snd (windowOf opts 0%nat s (fst (fst e)) (snd (fst e))))
           then snd (windowOf opts 0%nat s (fst (fst e)) (snd (fst e)))
           else maxTime s))) ->
  forall s, core s = core (foldl (step opts 0%nat) s0 (plan st0)) ->
            P (length (lineInfos st0)) s /\ erase (scene s) = erase st0.
Proof.
  intros Hcore H0 Hstep s Hs.
  pose proof (buildTree_tree opts) as Htree. fold st0 in Htree.
  assert (H : (fun k s => P k s /\ erase (scene s) = erase st0)
                (length (plan st0)) (foldl (step opts 0%nat) s0 (plan st0))).
  { apply foldl_ind_index.
    - split; [exact H0|apply start_erase].
    - intros k e x He [HP Hx].
      destruct (step_tree opts 0%nat st0 Htree x k e Hx He)
        as (l & ch & Hl & Hch & Hc & Hp & Hle & Heq).
      split.
      + rewrite Heq. apply (Hstep k e x l ch); assumption.
      + unfold step. rewrite scheduleLine_erase. exact Hx. }
  simpl in H. rewrite (plan_length st0 Htree) in H. destruct H as [HP He].
  split.
  - apply (Hcore _ _ _ (eq_sym Hs)). exact HP.
  - unfold core in Hs. injection Hs as _ Hsc _. rewrite Hsc. exact He.
Qed.

(** [generateStructure] returns, and what it returns is read off the state
    in which the loop ends. *)
Lemma generateStructure_result :
  exists s,
    drain opts 0%nat (length (nodes st0)) s0 = Some s /\
    core s = core (foldl (step opts 0%nat) s0 (plan st0)) /\
    generateStructure opts =
    Some (mkAnimation (scene s) (totalDuration opts (maxTime s)) (animRng s)
            (map (fun lineInfo =>
                    setLineAnimationExpression lineInfo
                      (totalDuration opts (maxTime s)))
                 (lineInfos (scene s)))
            (map (fun levelNodes =>
                    omap (fun ref =>
                            option_map
                              (fun node => setNodeAnimationExpression node
                                             (totalDuration opts (maxTime s)))
                              (nodes (scene s) !! ref))
                         levelNodes)
                 (nodeLevels (buildTree opts)))).
Proof.
  destruct (traversal_result opts) as (s & Hd & _ & Hc).
  exists s. split; [exact Hd|]. split; [exact Hc|].
  unfold generateStructure, applyBranchAnimation. rewrite Hd. reflexivity.
Qed.

(** The maximum never falls below the end of the root's own window. *)
Lemma run_maxTime s :
  core s = core (foldl (step opts 0%nat) s0 (plan st0)) ->
  0 + nodeDuration opts <= maxTime s.
Proof.
  intros Hs.
  apply (run_invariant (fun _ s => 0 + nodeDuration opts <= maxTime s)); try exact Hs.
  - intros k x x' Hc. unfold core in Hc. injection Hc as _ _ ->. auto.
  - simpl. apply Qle_refl.
  - intros k e x l ch _ _ _ _ _ _ _ HP. simpl.
    destruct (Qlt_bool (maxTime x) _) eqn:E; [|exact HP].
    apply Qlt_bool_iff in E. lra.
Qed.

End Run.

(** C1 (amended).  For every configuration the builder creates
    [1 + initialLines * sum_{k=0}^{levels-1} childrenPerNode^k] nodes, the
    root included: the sum has one term per level, [levels] terms in all.
    The run ends with that many nodes in its timeline. *)
Theorem node_count (opts : Options) :
  length (nodes (store (buildTree opts)))
  = (1 + initialLines opts * geomSum (childrenPerNode opts) (levels opts))%nat /\
  exists a,
    generateStructure opts = Some a /\
    length (nodes (timeline a))
    = (1 + initialLines opts * geomSum (childrenPerNode opts) (levels opts))%nat.
Proof.
  destruct (buildTree_inv opts) as (first & _ & _ & _ & _ & Hcount).
  split; [exact Hcount|].
  destruct (generateStructure_result opts) as (s & _ & Hc & Hg).
  eexists. split; [exact Hg|]. simpl.
  destruct (run_invariant opts (fun _ _ => True)) with (s := s) as [_ He]; auto.
  destruct (erase_lengths _ _ He) as [Hn _]. rewrite Hn. exact Hcount.
Qed.


(** ** The window of a node and its incoming line *)

Section Windows.

Variable opts : Options.

Let st0 := store (buildTree opts).
Let s0 := startSchedule opts 0%nat st0.

Lemma run_windowsSet s :
  core s = core (foldl (step opts 0%nat) s0 (plan st0)) ->
  windowsSet opts (length (lineInfos st0)) s.
Proof.
  intros Hs.
  apply (run_invariant opts (windowsSet opts)); try exact Hs.
  - intros k x x' Hc HP. unfold core in Hc. injection Hc as _ Hsc _.
    unfold windowsSet in *. rewrite <- Hsc. exact HP.
  - intros k' Hk'. lia.
  - intros k e x l ch _ _ Hl Hch _ _ _ HP k' Hk'. simpl.
    destruct (decide (k' = k)) as [->|Hne].
    + eexists _, _, _, _.
      rewrite list_lookup_insert_eq by (apply lookup_lt_Some in Hl; exact Hl).
      rewrite list_lookup_insert_eq by (apply lookup_lt_Some in Hch; exact Hch).
      repeat split; reflexivity.
    + destruct (HP k') as (l' & n' & a & b & H1 & H2 & H3 & H4 & H5 & H6 & H7); [lia|].
      exists l', n', a, b.
      rewrite list_lookup_insert_ne by lia.
      rewrite list_lookup_insert_ne by lia.
      auto 10.
Qed.

End Windows.

(** C4 (counterexample).  With [nodeDuration = 0.00005] and
    [lineDuration = 0.00001] the only child ends 0.0001 after its start,
    not at [max(start + nodeDuration, drawEnd)]. *)
Lemma smoothFlow_floor_counterexample :
  exists a node l s e,
    generateStructure tinyOptions = Some a /\
    smoothFlow tinyOptions = true /\ 0 < nodeDuration tinyOptions /\
    nodes (timeline a) !! 1%nat = Some node /\ incomingLine node = Some 0%nat /\
    lineInfos (timeline a) !! 0%nat = Some l /\
    startTime l = Some s /\ endTime l = Some e /\
    animStart node = s /\
    ~ animEnd node == Qmax (animStart node + nodeDuration tinyOptions) e.
Proof.
  eexists _, _, _, _, _.
  split; [vm_compute; reflexivity|].
  split; [reflexivity|]. split; [reflexivity|].
  split; [reflexivity|]. split; [reflexivity|].
  split; [reflexivity|]. split; [reflexivity|]. split; [reflexivity|].
  split; [reflexivity|].
  vm_compute. discriminate.
Qed.

(** C4 (amended).  With [smoothFlow], every node but the root starts with
    the draw of its incoming line and ends at
    [max(start + max(nodeDuration, 0.0001), drawEnd)]; that is
    [max(start + nodeDuration, drawEnd)] whenever [nodeDuration >= 0.0001]. *)
Theorem smoothFlow_window (opts : Options) :
  smoothFlow opts = true ->
  exists a,
    generateStructure opts = Some a /\
    forall ref node,
      nodes (timeline a) !! ref = Some node -> ref <> 0%nat ->
      exists k l s e,
        incomingLine node = Some k /\ lineInfos (timeline a) !! k = Some l /\
        childNode l = ref /\ startTime l = Some s /\ endTime l = Some e /\
        animStart node = s /\
        animEnd node == Qmax (s + Qmax (nodeDuration opts) (1 # 10000)) e /\
        ((1 # 10000) <= nodeDuration opts ->
         animEnd node == Qmax (s + nodeDuration opts) e).
Proof.
  intros Hsmooth.
  destruct (generateStructure_result opts) as (s & Hd & Hc & Hg).
  eexists. split; [exact Hg|]. simpl.
  pose proof (run_windowsSet opts s Hc) as Hw.
  destruct (run_invariant opts (fun _ _ => True)) with (s := s) as [_ He];
    auto.
  pose proof (buildTree_tree opts) as Htree.
  set (st0 := store (buildTree opts)) in *.
  intros ref node Hnode Hne.
  destruct ref as [|k]; [congruence|].
  destruct (erase_node _ _ _ _ He Hnode) as (n0 & Hn0 & Hen).
  destruct (ti_node _ _ Htree _ _ Hn0) as (Hin & _).
  assert (Hk : (k < length (lineInfos st0))%nat).
  { apply lookup_lt_Some in Hn0. rewrite (ti_count _ _ Htree) in Hn0. lia. }
  destruct (Hw k Hk) as (l & n & a & b & Hl & Hn & Ha & Hb & _ & HaS & HaE).
  rewrite Hnode in Hn. injection Hn as <-.
  destruct (tree_line_child st0 Htree s k He Hk) as (l' & ch & Hl' & _ & Hcl & _).
  rewrite Hl in Hl'. injection Hl' as <-.
  exists k, l, a, b.
  split. { apply (f_equal incomingLine) in Hen. simpl in Hen. congruence. }
  split; [exact Hl|]. split; [exact Hcl|]. split; [exact Ha|]. split; [exact Hb|].
  unfold childWindow in HaS, HaE. rewrite Hsmooth in HaS, HaE. simpl in HaS, HaE.
  split; [exact HaS|].
  set (M := Qmax (nodeDuration opts) (1 # 10000)) in *.
  assert (HM : animEnd node == Qmax (a + M) b).
  { rewrite HaE.
    destruct (Qlt_bool (a + M) b) eqn:E.
    - apply Qlt_bool_iff in E. symmetry. apply Q.max_r. lra.
    - apply Qlt_bool_false in E. symmetry. apply Q.max_l. exact E. }
  split; [exact HM|].
  intros Hnd. rewrite HM.
  assert (HMn : M == nodeDuration opts) by (apply Q.max_l; exact Hnd).
  destruct (Q.max_spec (a + M) b) as [[H1 H2]|[H1 H2]];
  destruct (Q.max_spec (a + nodeDuration opts) b) as [[H3 H4]|[H3 H4]];
  rewrite H2, H4; lra.
Qed.

Lemma smoothFlow_window_witness :
  exists a, generateStructure DEFAULTS = Some a.
Proof.
  destruct (smoothFlow_window DEFAULTS eq_refl) as (a & Ha & _).
  exists a. exact Ha.
Defined.

(** ** Normalized intervals *)

Lemma normalize_le a b D : 0 < D -> a <= b -> a / D * 100 <= b / D * 100.
Proof.
  intros HD Hab. unfold Qdiv.
  pose proof (Qinv_lt_0_compat D HD) as Hi. nra.
Qed.

Lemma normalize_top b D : 0 < D -> b <= D -> b / D * 100 <= 100.
Proof.
  intros HD Hb. unfold Qdiv.
  pose proof (Qinv_lt_0_compat D HD) as Hi.
  assert (H1 : D * / D == 1) by (apply Qmult_inv_r; lra).
  nra.
Qed.

Lemma normalize_bottom a D : 0 < D -> 0 <= a -> 0 <= a / D * 100.
Proof.
  intros HD Ha. unfold Qdiv.
  pose proof (Qinv_lt_0_compat D HD) as Hi. nra.
Qed.

Ltac proj_simpl :=
  cbn [animStart animEnd outTime inTime setTimes scene nodes lineInfos maxTime
       animRng startTime endTime setLineTimes queue fst snd].

Section Bounds.

Variable opts : Options.
Hypothesis Hnode : 0 < nodeDuration opts.
Hypothesis Hline : 0 < lineDuration opts.

Let st0 := store (buildTree opts).
Let s0 := startSchedule opts 0%nat st0.

Lemma start_node j n :
  nodes (scene s0) !! j = Some n ->
  animStart n = 0 /\
  (j = 0%nat /\ outTime n = 0 + nodeDuration opts /\ animEnd n = 0 + nodeDuration opts \/
   j <> 0%nat /\ outTime n = 0 /\ animEnd n = 0).
Proof.
  pose proof (buildTree_tree opts) as Htree. fold st0 in Htree.
  unfold s0, startSchedule. simpl. intros Hj.
  destruct (decide (j = 0%nat)) as [->|Hne].
  - rewrite list_lookup_alter_eq in Hj.
    destruct (nodes st0 !! 0%nat) as [n0|]; [|discriminate].
    simpl in Hj. injection Hj as <-. simpl. auto.
  - rewrite list_lookup_alter_ne in Hj by congruence.
    destruct (ti_node _ _ Htree _ _ Hj) as (_ & H1 & H2 & H3). auto.
Qed.

Lemma start_line k l :
  lineInfos (scene s0) !! k = Some l -> startTime l = None /\ endTime l = None.
Proof.
  pose proof (buildTree_tree opts) as Htree. fold st0 in Htree.
  unfold s0, startSchedule. simpl. intros Hk.
  destruct (ti_lines _ _ Htree _ _ Hk) as (_ & _ & H1 & H2). auto.
Qed.

Lemma run_boundedAbove s :
  core s = core (foldl (step opts 0%nat) s0 (plan st0)) ->
  boundedAbove (length (lineInfos st0)) s.
Proof.
  intros Hs.
  apply (run_invariant opts boundedAbove); try exact Hs.
  - intros k x x' Hc HP. unfold core in Hc. injection Hc as _ Hsc Hm.
    unfold boundedAbove in *. rewrite <- Hsc, <- Hm. exact HP.
  - split.
    + intros j n Hj.
      change (maxTime (startSchedule opts 0%nat (store (buildTree opts))))
        with (0 + nodeDuration opts).
      destruct (start_node j n Hj) as (Ha & [(_ & _ & Hb)|(_ & _ & Hb)]);
        rewrite Ha, Hb; split; lra.
    + intros k' l _ Hk'. lia.
  - intros k e x l ch _ _ Hl Hch _ _ _ [HN HL].
    set (ls := lineStartOf opts 0%nat x (fst (fst e)) (snd (fst e))).
    set (le := lineEndOf opts 0%nat x (fst (fst e)) (snd (fst e))).
    assert (Hle : ls <= le) by (unfold le, lineEndOf; fold ls; lra).
    destruct (childWindow_bounds opts ls le Hle) as (W1 & W2 & W3 & W4); [lra|].
    change (childWindow opts ls le)
      with (windowOf opts 0%nat x (fst (fst e)) (snd (fst e))) in W1, W2, W3, W4.
    set (w := windowOf opts 0%nat x (fst (fst e)) (snd (fst e))) in *.
    assert (Hmax : maxTime x <= (if Qlt_bool (maxTime x) (snd w) then snd w else maxTime x)
                   /\ snd w <= (if Qlt_bool (maxTime x) (snd w) then snd w else maxTime x)).
    { destruct (Qlt_bool (maxTime x) (snd w)) eqn:E.
      - apply Qlt_bool_iff in E. lra.
      - apply Qlt_bool_false in E. lra. }
    destruct Hmax as [Hm1 Hm2]. clearbody w ls le.
    split; proj_simpl.
    + intros j n Hj. destruct (decide (j = S k)) as [->|Hne].
      * rewrite list_lookup_insert_eq in Hj by (apply lookup_lt_Some in Hch; exact Hch).
        injection Hj as <-. proj_simpl. split; lra.
      * rewrite list_lookup_insert_ne in Hj by congruence.
        destruct (HN j n Hj). split; lra.
    + intros k' l' Hk' Hlt. destruct (decide (k' = k)) as [->|Hne].
      * rewrite list_lookup_insert_eq in Hk' by (apply lookup_lt_Some in Hl; exact Hl).
        injection Hk' as <-. exists ls, le. proj_simpl. repeat split; try reflexivity; lra.
      * rewrite list_lookup_insert_ne in Hk' by congruence.
        destruct (HL k' l' Hk') as (a & b & Ha & Hb & Hab & Hbm); [lia|].
        exists a, b. repeat split; try assumption. lra.
Qed.

Hypothesis Hstagger : 0 <= childStagger opts.
Hypothesis Hoffset : 0 <= randomOffset opts.
Hypothesis Hsmall : randomOffset opts <= nodeDuration opts.
Hypothesis Hvalid : 0 < randomOffset opts -> validState (animRng s0).

Lemma run_boundedBelow s :
  core s = core (foldl (step opts 0%nat) s0 (plan st0)) ->
  boundedBelow opts (length (lineInfos st0)) s.
Proof.
  intros Hs.
  apply (run_invariant opts (boundedBelow opts)); try exact Hs.
  - intros k x x' Hc HP. unfold core in Hc. injection Hc as Hr Hsc _.
    unfold boundedBelow in *. rewrite <- Hsc, <- Hr. exact HP.
  - split; [exact Hvalid|]. split; [|split].
    + intros j n Hj0 Hj. assert (j = 0%nat) by lia. subst j.
      destruct (start_node _ n Hj) as (_ & [(_ & Hb & _)|(Hne & _)]);
        [rewrite Hb; lra|congruence].
    + intros j n Hj. destruct (start_node j n Hj) as (Ha & _). rewrite Ha. lra.
    + intros k' l a Hk' Ha. destruct (start_line k' l Hk') as [Hn _]. congruence.
  - intros k e x l ch _ _ Hl Hch _ _ Hcur (HR & HO & HS & HL).
    set (cur := fst (fst e)) in *. set (i := snd (fst e)) in *.
    destruct (lookup_lt_is_Some_2 (nodes (scene x)) cur) as [nc Hnc].
    { apply lookup_lt_Some in Hch. lia. }
    pose proof (HO cur nc Hcur Hnc) as Hout.
    pose proof (edgeOffset_lower opts 0%nat cur i (animRng x) Hstagger Hoffset HR) as Hoff.
    set (ls := lineStartOf opts 0%nat x cur i).
    set (le := lineEndOf opts 0%nat x cur i).
    assert (Hls : 0 <= ls).
    { unfold ls, lineStartOf, outTimeAt. rewrite Hnc. simpl. lra. }
    assert (Hle : ls <= le) by (unfold le, lineEndOf; fold ls; lra).
    destruct (childWindow_bounds opts ls le Hle) as (W1 & W2 & W3 & W4); [lra|].
    change (childWindow opts ls le) with (windowOf opts 0%nat x cur i) in W1, W2, W3, W4.
    set (w := windowOf opts 0%nat x cur i) in *. clearbody w ls le.
    split; [|split; [|split]]; proj_simpl.
    + intros Hro. apply edgeOffset_valid; assumption.
    + intros j n Hj Hjn. destruct (decide (j = S k)) as [->|Hne].
      * rewrite list_lookup_insert_eq in Hjn by (apply lookup_lt_Some in Hch; exact Hch).
        injection Hjn as <-. proj_simpl. lra.
      * rewrite list_lookup_insert_ne in Hjn by congruence.
        apply (HO j n); [lia|exact Hjn].
    + intros j n Hjn. destruct (decide (j = S k)) as [->|Hne].
      * rewrite list_lookup_insert_eq in Hjn by (apply lookup_lt_Some in Hch; exact Hch).
        injection Hjn as <-. proj_simpl. lra.
      * rewrite list_lookup_insert_ne in Hjn by congruence. apply (HS j n Hjn).
    + intros k' l' a Hk' Ha. destruct (decide (k' = k)) as [->|Hne].
      * rewrite list_lookup_insert_eq in Hk' by (apply lookup_lt_Some in Hl; exact Hl).
        injection Hk' as <-. simpl in Ha. injection Ha as <-. exact Hls.
      * rewrite list_lookup_insert_ne in Hk' by congruence. apply (HL k' l' a Hk' Ha).
Qed.

End Bounds.

(** C3 (counterexample).  With [randomOffset = 1] above
    [nodeDuration = 0.22], the second line of the root is drawn from a
    negative time on: its normalized interval starts (and even ends) below 0. *)
Lemma normalized_start_negative :
  exists a s e,
    0 <= randomOffset wideOptions /\ 0 <= childStagger wideOptions /\
    0 < nodeDuration wideOptions /\ 0 < lineDuration wideOptions /\
    generateStructure wideOptions = Some a /\
    lineProgress a !! 1%nat = Some (Some (s, e)) /\
    s < 0 /\ e < 0.
Proof.
  eexists _, _, _.
  split; [vm_compute; discriminate|]. split; [vm_compute; discriminate|].
  split; [reflexivity|]. split; [reflexivity|].
  split; [vm_compute; reflexivity|].
  split; [reflexivity|].
  split; reflexivity.
Qed.

(** C3 (amended).  For every valid configuration the run ends and every
    normalized interval, of a line or of a node, ends at or after its start
    and at or below 100; it starts at or above 0 when [offsetsCovered]
    holds, in particular when [randomOffset = 0]. *)
Theorem normalized_intervals (opts : Options) :
  0 <= randomOffset opts -> 0 <= childStagger opts ->
  0 < nodeDuration opts -> 0 < lineDuration opts ->
  exists a,
    generateStructure opts = Some a /\ 0 < duration a /\
    (forall k l, lineInfos (timeline a) !! k = Some l ->
       exists x y s e,
         startTime l = Some x /\ endTime l = Some y /\
         s = x / duration a * 100 /\ e = y / duration a * 100 /\
         lineProgress a !! k = Some (Some (s, e)) /\
         s <= e /\ e <= 100 /\ (offsetsCovered opts -> 0 <= s)) /\
    (forall j n, nodes (timeline a) !! j = Some n ->
       setNodeAnimationExpression n (duration a)
       = (animStart n / duration a * 100, animEnd n / duration a * 100) /\
       animStart n / duration a * 100 <= animEnd n / duration a * 100 /\
       animEnd n / duration a * 100 <= 100 /\
       (offsetsCovered opts -> 0 <= animStart n / duration a * 100)) /\
    (forall lvl ps p, nodeProgress a !! lvl = Some ps -> p ∈ ps ->
       fst p <= snd p /\ snd p <= 100 /\ (offsetsCovered opts -> 0 <= fst p)).
Proof.
  intros Hoffset Hstagger Hnode Hline.
  destruct (generateStructure_result opts) as (s & Hd & Hc & Hg).
  pose proof (run_maxTime opts s Hc) as Hm.
  assert (Hpos : 0 < maxTime s) by lra.
  assert (HD : totalDuration opts (maxTime s) = maxTime s).
  { unfold totalDuration. destruct (Qle_bool (maxTime s) 0) eqn:E; [|reflexivity].
    apply Qle_bool_iff in E. lra. }
  assert (HDb : Qlt_bool 0 (maxTime s) = true) by (apply Qlt_bool_iff; exact Hpos).
  pose proof (run_boundedAbove opts Hnode Hline s Hc) as [HN HL].
  destruct (run_invariant opts (fun _ _ => True)) with (s := s) as [_ He]; auto.
  destruct (erase_lengths _ _ He) as [_ Hlen].
  assert (Hbelow : offsetsCovered opts ->
            boundedBelow opts (length (lineInfos (store (buildTree opts)))) s).
  { intros [Hsmall Hvalid].
    apply (run_boundedBelow opts Hnode Hline Hstagger Hoffset Hsmall Hvalid s Hc). }
  assert (Hnodes : forall j n, nodes (scene s) !! j = Some n ->
    setNodeAnimationExpression n (maxTime s)
    = (animStart n / maxTime s * 100, animEnd n / maxTime s * 100) /\
    animStart n / maxTime s * 100 <= animEnd n / maxTime s * 100 /\
    animEnd n / maxTime s * 100 <= 100 /\
    (offsetsCovered opts -> 0 <= animStart n / maxTime s * 100)).
  { intros j n Hj. destruct (HN j n Hj) as [H1 H2].
    split. { unfold setNodeAnimationExpression. rewrite HDb. reflexivity. }
    split; [apply normalize_le; assumption|].
    split; [apply normalize_top; assumption|].
    intros Hcov. destruct (Hbelow Hcov) as (_ & _ & HS & _).
    apply normalize_bottom; [assumption|]. apply (HS j n Hj). }
  eexists. split; [exact Hg|]. cbn [duration timeline lineProgress nodeProgress].
  rewrite HD. split; [exact Hpos|]. split; [|split].
  - intros k l Hk.
    destruct (HL k l Hk) as (x & y & Hx & Hy & Hxy & Hym).
    { apply lookup_lt_Some in Hk. lia. }
    exists x, y, (x / maxTime s * 100), (y / maxTime s * 100).
    split; [exact Hx|]. split; [exact Hy|].
    split; [reflexivity|]. split; [reflexivity|].
    split.
    { change (map ?f ?l) with (f <$> l). rewrite list_lookup_fmap, Hk. simpl.
      unfold setLineAnimationExpression. rewrite Hx, Hy, HDb. reflexivity. }
    split; [apply normalize_le; assumption|].
    split; [apply normalize_top; assumption|].
    intros Hcov. destruct (Hbelow Hcov) as (_ & _ & _ & HLs).
    apply normalize_bottom; [assumption|]. apply (HLs k l x Hk Hx).
  - exact Hnodes.
  - intros lvl ps p Hlvl Hp.
    change (map ?f ?l) with (f <$> l) in Hlvl.
    rewrite list_lookup_fmap in Hlvl.
    destruct (nodeLevels (buildTree opts) !! lvl) as [refs|]; [|discriminate].
    simpl in Hlvl. injection Hlvl as <-.
    apply list_elem_of_omap in Hp as (ref & _ & Hp).
    destruct (nodes (scene s) !! ref) as [n|] eqn:Hn; [|discriminate].
    simpl in Hp. injection Hp as <-.
    destruct (Hnodes ref n Hn) as (E & H1 & H2 & H3).
    rewrite E. simpl. auto.
Qed.

Lemma normalized_intervals_witness :
  exists a, generateStructure DEFAULTS = Some a /\ 0 < duration a.
Proof.
  destruct (normalized_intervals DEFAULTS) as (a & Ha & Hd & _).
  - vm_compute. discriminate.
  - vm_compute. discriminate.
  - reflexivity.
  - reflexivity.
  - exists a. split; [exact Ha|exact Hd].
Defined.

(** ** Toggling [simultaneousRoot] *)

Lemma outTimeAt_insert_ne st ls' j i x :
  j <> i ->
  outTimeAt (mkStore (<[i := x]> (nodes st)) ls') j = outTimeAt st j.
Proof.
  intros Hne. unfold outTimeAt. simpl.
  rewrite list_lookup_insert_ne by congruence. reflexivity.
Qed.

Lemma edgeOffset_root opts rootNode i r :
  simultaneousRoot opts = true -> fst (edgeOffset opts rootNode rootNode i r) = 0.
Proof.
  intros Hs. unfold edgeOffset. rewrite Nat.eqb_refl, Hs.
  destruct (Qlt_bool 0 (randomOffset opts));
    [destruct (range (- randomOffset opts) (randomOffset opts) r)|];
    reflexivity.
Qed.

Lemma edgeOffset_toggle b b' opts rootNode current i r :
  current <> rootNode ->
  fst (edgeOffset (withSimultaneousRoot b opts) rootNode current i r)
  = fst (edgeOffset (withSimultaneousRoot b' opts) rootNode current i r).
Proof.
  intros Hne. unfold edgeOffset.
  apply Nat.eqb_neq in Hne. rewrite Hne.
  cbn [randomOffset childStagger withSimultaneousRoot].
  destruct (Qlt_bool 0 (randomOffset opts));
    [destruct (range (- randomOffset opts) (randomOffset opts) r)|];
    reflexivity.
Qed.

(** A window depends on the start of the line only by translation. *)
Lemma childWindow_shift opts ls ls' :
  fst (childWindow opts ls (ls + lineDuration opts)) - ls
  == fst (childWindow opts ls' (ls' + lineDuration opts)) - ls' /\
  snd (childWindow opts ls (ls + lineDuration opts)) - ls
  == snd (childWindow opts ls' (ls' + lineDuration opts)) - ls'.
Proof.
  unfold childWindow. destruct (smoothFlow opts); simpl.
  - set (M := Qmax (nodeDuration opts) (1 # 10000)).
    split; [ring|].
    destruct (Qlt_bool (ls + M) (ls + lineDuration opts)) eqn:E1;
    destruct (Qlt_bool (ls' + M) (ls' + lineDuration opts)) eqn:E2;
    try apply Qlt_bool_iff in E1; try apply Qlt_bool_iff in E2;
    try apply Qlt_bool_false in E1; try apply Qlt_bool_false in E2;
    lra.
  - split; ring.
Qed.

Section Toggle.

Variable opts : Options.

Let oA := withSimultaneousRoot false opts.
Let oB := withSimultaneousRoot true opts.
Let st0 := store (buildTree opts).
Let s0 := startSchedule opts 0%nat st0.

Lemma run_toggled :
  toggled opts (length (lineInfos st0))
          (foldl (step oA 0%nat) s0 (plan st0), foldl (step oB 0%nat) s0 (plan st0)).
Proof.
  pose proof (buildTree_tree opts) as Htree. fold st0 in Htree.
  rewrite <- (plan_length st0 Htree), <- foldl_pair.
  apply (foldl_ind_index _ (toggled opts)).
  - split; [apply (start_erase opts)|]. split; [apply (start_erase opts)|].
    split; [reflexivity|]. split; [reflexivity|].
    split; intros; lia.
  - intros k e [sA sB] He (HeA & HeB & Hr & Hit & Hroot & Hoff).
    cbn [fst snd] in *. fold st0 in HeA, HeB.
    destruct (step_tree oA 0%nat st0 Htree sA k e HeA He)
      as (lA & chA & HlA & HchA & HcA & HpA & Hle & HeqA).
    destruct (step_tree oB 0%nat st0 Htree sB k e HeB He)
      as (lB & chB & HlB & HchB & HcB & HpB & _ & HeqB).
    set (cur := fst (fst e)) in *. set (i := snd (fst e)) in *.
    assert (HkA : (k < length (lineInfos (scene sA)))%nat)
      by (apply lookup_lt_Some in HlA; exact HlA).
    assert (HkB : (k < length (lineInfos (scene sB)))%nat)
      by (apply lookup_lt_Some in HlB; exact HlB).
    unfold toggled. cbn [fst snd].
    split; [unfold step; rewrite scheduleLine_erase; exact HeA|].
    split; [unfold step; rewrite scheduleLine_erase; exact HeB|].
    rewrite HeqA, HeqB. cbn [animRng scene lineInfos].
    split; [|split; [|split]].
    + rewrite !edgeOffset_rng, Hr. reflexivity.
    + intros Hro. rewrite edgeOffset_rng.
      assert (E : Qlt_bool 0 (randomOffset oA) = true) by (apply Qlt_bool_iff; exact Hro).
      rewrite E, (Hit Hro). reflexivity.
    + intros k' lb Hk' Hlb Hp.
      rewrite outTimeAt_insert_ne by lia.
      destruct (decide (k' = k)) as [->|Hne].
      * rewrite list_lookup_insert_eq in Hlb by exact HkB.
        injection Hlb as <-. cbn [parentNode setLineTimes] in Hp.
        cbn [startTime setLineTimes]. f_equal.
        unfold lineStartOf. fold cur i.
        assert (Hc0 : cur = 0%nat) by congruence.
        rewrite Hc0, (edgeOffset_root oB 0%nat i (animRng sB) eq_refl).
        reflexivity.
      * rewrite list_lookup_insert_ne in Hlb by congruence.
        rewrite (Hroot k' lb) by (lia || assumption).
        reflexivity.
    + intros k' la lb Hk' Hla Hlb Hp.
      destruct (decide (k' = k)) as [->|Hne].
      * rewrite list_lookup_insert_eq in Hla by exact HkA.
        rewrite list_lookup_insert_eq in Hlb by exact HkB.
        injection Hla as <-. injection Hlb as <-.
        cbn [parentNode setLineTimes] in *.
        eexists _, _. split; [reflexivity|]. split; [reflexivity|].
        rewrite HpA. fold cur.
        rewrite outTimeAt_insert_ne by lia.
        rewrite outTimeAt_insert_ne by lia.
        unfold lineStartOf. fold cur i. rewrite Hr. unfold oA, oB.
        rewrite (edgeOffset_toggle false true opts 0%nat cur i (animRng sA))
          by congruence.
        ring.
      * rewrite list_lookup_insert_ne in Hla by congruence.
        rewrite list_lookup_insert_ne in Hlb by congruence.
        destruct (Hoff k' la lb) as (xa & xb & Hxa & Hxb & Hx); try assumption; [lia|].
        exists xa, xb. split; [exact Hxa|]. split; [exact Hxb|].
        assert (Hpk : (parentNode la <= k')%nat).
        { destruct (tree_line_child st0 Htree sA k' HeA) as (l' & _ & Hl' & _ & _ & Hp').
          - apply lookup_lt_Some in Hla. destruct (erase_lengths _ _ HeA). lia.
          - congruence. }
        rewrite outTimeAt_insert_ne by lia.
        rewrite outTimeAt_insert_ne by lia.
        exact Hx.
Qed.

End Toggle.

(** C10.  With a positive [randomOffset] the scheduler draws once per line,
    whether [simultaneousRoot] is set or not, also for the lines of the
    root whose offset it then replaces by 0.  The two runs leave the same
    tree and the same generator, and for every line that does not leave
    the root the same offset from the end of the parent's window to the
    start of the line, hence the same activation window of the child
    relative to that end. *)
Theorem simultaneousRoot_toggle (opts : Options) :
  0 < randomOffset opts ->
  exists a b,
    generateStructure (withSimultaneousRoot false opts) = Some a /\
    generateStructure (withSimultaneousRoot true opts) = Some b /\
    erase (timeline a) = erase (timeline b) /\
    lastRng a = Nat.iter (length (lineInfos (timeline a))) draw (schedulerRng opts) /\
    lastRng b = lastRng a /\
    (forall k lb, lineInfos (timeline b) !! k = Some lb -> parentNode lb = 0%nat ->
       startTime lb = Some (outTimeAt (timeline b) 0 + 0)) /\
    (forall k la lb,
       lineInfos (timeline a) !! k = Some la ->
       lineInfos (timeline b) !! k = Some lb ->
       parentNode la <> 0%nat ->
       exists xa xb na nb,
         parentNode lb = parentNode la /\ childNode lb = childNode la /\
         startTime la = Some xa /\ startTime lb = Some xb /\
         nodes (timeline a) !! childNode la = Some na /\
         nodes (timeline b) !! childNode lb = Some nb /\
         xa - outTimeAt (timeline a) (parentNode la)
         == xb - outTimeAt (timeline b) (parentNode lb) /\
         animStart na - outTimeAt (timeline a) (parentNode la)
         == animStart nb - outTimeAt (timeline b) (parentNode lb) /\
         animEnd na - outTimeAt (timeline a) (parentNode la)
         == animEnd nb - outTimeAt (timeline b) (parentNode lb)).
Proof.
  intros Hro.
  set (oA := withSimultaneousRoot false opts).
  set (oB := withSimultaneousRoot true opts).
  destruct (generateStructure_result oA) as (sA & _ & HcA & HgA).
  destruct (generateStructure_result oB) as (sB & _ & HcB & HgB).
  pose proof (run_windowsSet oA sA HcA) as HwA.
  pose proof (run_windowsSet oB sB HcB) as HwB.
  pose proof (buildTree_tree opts) as Htree.
  set (st0 := store (buildTree opts)) in *.
  change (store (buildTree oA)) with st0 in *.
  change (store (buildTree oB)) with st0 in *.
  change (startSchedule oA 0%nat st0) with (startSchedule opts 0%nat st0) in *.
  change (startSchedule oB 0%nat st0) with (startSchedule opts 0%nat st0) in *.
  destruct (run_toggled opts) as (HeA & HeB & Hr & Hit & Hroot & Hoff).
  fold st0 oA oB in HeA, HeB, Hr, Hit, Hroot, Hoff.
  cbn [fst snd] in HeA, HeB, Hr, Hit, Hroot, Hoff.
  unfold core in HcA, HcB.
  injection HcA as HrA HsA _. injection HcB as HrB HsB _.
  rewrite <- HrA, <- HsA in *. rewrite <- HrB, <- HsB in *.
  clear HrA HsA HrB HsB.
  destruct (erase_lengths _ _ HeA) as [_ HlenA].
  destruct (erase_lengths _ _ HeB) as [_ HlenB].
  eexists _, _. split; [exact HgA|]. split; [exact HgB|].
  cbn [timeline lastRng].
  split; [congruence|].
  split; [rewrite HlenA; apply (Hit Hro)|].
  split; [exact Hr|].
  split.
  - intros k lb Hlb Hp. apply (Hroot k lb); try assumption.
    apply lookup_lt_Some in Hlb. lia.
  - intros k la lb Hla Hlb Hp.
    assert (Hk : (k < length (lineInfos st0))%nat)
      by (apply lookup_lt_Some in Hla; lia).
    destruct (Hoff k la lb Hk Hla Hlb Hp) as (xa & xb & Hxa & Hxb & Hx).
    destruct (HwA k Hk) as (la' & na & a1 & b1 & H1 & H2 & H3 & H4 & H5 & H6 & H7).
    destruct (HwB k Hk) as (lb' & nb & a2 & b2 & K1 & K2 & K3 & K4 & K5 & K6 & K7).
    rewrite Hla in H1. injection H1 as <-. rewrite Hlb in K1. injection K1 as <-.
    rewrite Hxa in H3. injection H3 as <-. rewrite Hxb in K3. injection K3 as <-.
    destruct (erase_line _ _ _ _ HeA Hla) as (l0 & Hl0 & ElA).
    destruct (erase_line _ _ _ _ HeB Hlb) as (l0' & Hl0' & ElB).
    rewrite Hl0 in Hl0'. injection Hl0' as <-.
    apply eraseLine_ends in ElA as [PA CA]. apply eraseLine_ends in ElB as [PB CB].
    destruct (ti_lines _ _ Htree _ _ Hl0) as (C0 & _).
    exists xa, xb, na, nb.
    split; [congruence|]. split; [congruence|].
    split; [exact Hxa|]. split; [exact Hxb|].
    split; [rewrite <- CA, C0; exact H2|].
    split; [rewrite <- CB, C0; exact K2|].
    replace (parentNode lb) with (parentNode la) by congruence.
    split; [exact Hx|].
    destruct (childWindow_shift opts xa xb) as [S1 S2].
    rewrite H6, H7, K6, K7, H5, K5.
    change (childWindow oA) with (childWindow opts).
    change (childWindow oB) with (childWindow opts).
    change (lineDuration oA) with (lineDuration opts).
    change (lineDuration oB) with (lineDuration opts).
    split; lra.
Qed.

Lemma simultaneousRoot_toggle_witness :
  exists a b,
    generateStructure (withSimultaneousRoot false DEFAULTS) = Some a /\
    generateStructure (withSimultaneousRoot true DEFAULTS) = Some b /\
    lastRng b = lastRng a.
Proof.
  destruct (simultaneousRoot_toggle DEFAULTS eq_refl)
    as (a & b & Ha & Hb & _ & _ & Hr & _).
  exists a, b. auto.
Defined.

(** ** Seeds and draws *)




Section DialogSeeds.

Local Open Scope Z_scope.

Lemma rem_degenerate x :
  Z.rem x 2147483647 = -2147483646 ->
  x = 2147483647 * Z.quot x 2147483647 - 2147483646 /\ Z.quot x 2147483647 <= 0.
Proof.
  intros Hr. pose proof (Z.quot_rem' x 2147483647) as Hqr. rewrite Hr in Hqr.
  split; [lia|].
  destruct (Z.le_gt_cases 0 x) as [Hpos|Hneg].
  - pose proof (Z.rem_bound_pos x 2147483647 Hpos). lia.
  - apply Z.quot_le_upper_bound; lia.
Qed.

Lemma builderRng_valid opts :
  -2147483647 <= seed opts <= 2147483646 ->
  (validState (builderRng opts) <-> seed opts <> -2147483646).
Proof.
  intros Hs. unfold builderRng.
  destruct (seed opts =? 0) eqn:E.
  - apply Z.eqb_eq in E. split; [lia|]. intros _. vm_compute. split; discriminate.
  - apply Z.eqb_neq in E. split.
    + intros Hv Heq. rewrite Heq in Hv. vm_compute in Hv. destruct Hv as [Hv _].
      apply Hv. reflexivity.
    + intros Hne. apply createRng_valid. intros Hr.
      apply rem_degenerate in Hr as [Hx Hq]. lia.
Qed.

Lemma schedulerRng_valid opts :
  -2147483647 <= seed opts <= 2147483646 ->
  (validState (schedulerRng opts) <-> seed opts <> -252645138).
Proof.
  intros Hs. unfold schedulerRng.
  destruct (seed opts =? 0) eqn:E.
  - apply Z.eqb_eq in E. split; [lia|]. intros _. vm_compute. split; discriminate.
  - apply Z.eqb_neq in E. split.
    + intros Hv Heq. rewrite Heq in Hv. vm_compute in Hv. destruct Hv as [Hv _].
      apply Hv. reflexivity.
    + intros Hne. apply createRng_valid. intros Hr.
      apply rem_degenerate in Hr as [Hx Hq].
      set (q := Z.quot (seed opts * 17 + 53) 2147483647) in *. clearbody q.
      assert (Hcases : q = -17 \/ q = -16 \/ q = -15 \/ q = -14 \/ q = -13 \/ q = -12
                       \/ q = -11 \/ q = -10 \/ q = -9 \/ q = -8 \/ q = -7 \/ q = -6
                       \/ q = -5 \/ q = -4 \/ q = -3 \/ q = -2 \/ q = -1 \/ q = 0) by lia.
      repeat (destruct Hcases as [->|Hcases]; [lia|]). lia.
Qed.

End DialogSeeds.

(** X2.  Among the seeds the dialog lets through, from -2147483647 to
    2147483646, exactly one leaves the generator of the builder outside its
    valid range, -2147483646, and exactly one the generator of the
    scheduler, -252645138: for it [seed * 17 + 53] is normalized to the
    state 0. *)
Theorem dialog_seeds_valid (opts : Options) :
  (-2147483647 <= seed opts <= 2147483646)%Z ->
  (validState (builderRng opts) <-> seed opts <> (-2147483646)%Z) /\
  (validState (schedulerRng opts) <-> seed opts <> (-252645138)%Z) /\
  schedulerRng (withSeed (-252645138) opts) = 0%Z.
Proof.
  intros Hs. split; [apply builderRng_valid; exact Hs|].
  split; [apply schedulerRng_valid; exact Hs|]. reflexivity.
Qed.

Lemma dialog_seeds_valid_witness : validState (schedulerRng DEFAULTS).
Proof.
  refine (proj2 (proj1 (proj2 (dialog_seeds_valid DEFAULTS _))) _).
  - simpl. lia.
  - simpl. lia.
Defined.

(** * The builder, turn by turn *)

(** Induction along a left fold, over the states the fold goes through. *)
Lemma foldl_prefix_ind {X E : Type} (f : X -> E -> X) (P : X -> Prop)
    (es : list E) (x0 : X) :
  P x0 ->
  (forall k e, es !! k = Some e ->
     P (foldl f x0 (take k es)) -> P (f (foldl f x0 (take k es)) e)) ->
  P (foldl f x0 es).
Proof.
  intros H0 Hstep.
  pose proof (foldl_ind_index f (fun k x => x = foldl f x0 (take k es) /\ P x) es x0)
    as H.
  simpl in H. apply H.
  - split; [reflexivity|exact H0].
  - intros k e x He [-> HP]. split.
    + rewrite (take_S_r _ _ _ He), foldl_app. reflexivity.
    + apply Hstep; assumption.
Qed.

Lemma buildTree_unfold opts :
  buildTree opts = foldl (growLevel opts 0%nat) (startGen opts) (seq 1 (levels opts)).
Proof. reflexivity. Qed.

Lemma startGen_inv opts : LevelInv opts (startGen opts) 0.
Proof.
  exists 0%nat. simpl. repeat apply conj; try reflexivity; try lia.
  split; simpl; try reflexivity.
  - intros k l Hk. rewrite lookup_nil in Hk. discriminate.
  - intros j n _ Hj. destruct j; [|simpl in Hj; discriminate].
    injection Hj as <-. reflexivity.
  - intros j n k Hj Hk. destruct j; [|simpl in Hj; discriminate].
    injection Hj as <-. simpl in Hk. inversion Hk.
  - intros j n Hj. destruct j; [|simpl in Hj; discriminate].
    injection Hj as <-. simpl. auto.
Qed.

Lemma levels_inv opts n :
  LevelInv opts (foldl (growLevel opts 0%nat) (startGen opts) (seq 1 n)) n.
Proof.
  induction n as [|n IH]; [apply startGen_inv|].
  rewrite seq_S, foldl_app. simpl. apply growLevel_inv. exact IH.
Qed.

Lemma placeChild_parent opts lvl p ang r g np :
  nodes (store g) !! p = Some np ->
  nodes (store (placeChild opts lvl p ang r g)) !! p
  = Some (pushChild (length (lineInfos (store g))) np).
Proof.
  intros Hnp. pose proof (lookup_lt_Some _ _ _ Hnp) as Hp.
  rewrite placeChild_store by exact Hp. simpl.
  rewrite lookup_app_l by (rewrite length_alter; exact Hp).
  rewrite list_lookup_alter_eq, Hnp. reflexivity.
Qed.

Lemma placeChild_length opts lvl p ang r g :
  (p < length (nodes (store g)))%nat ->
  length (nodes (store (placeChild opts lvl p ang r g))) = S (length (nodes (store g))).
Proof.
  intros Hp. rewrite placeChild_store by exact Hp. simpl.
  rewrite length_app, length_alter. simpl. lia.
Qed.

(** A loop that places children under [p] adds one child per turn. *)
Lemma foldl_place_children opts lvl p (f : Gen -> nat -> Gen) :
  (forall g i, exists ang r, f g i = placeChild opts lvl p ang r g) ->
  forall (l : list nat) (g : Gen) np,
    nodes (store g) !! p = Some np ->
    exists np', nodes (store (foldl f g l)) !! p = Some np' /\
                length (children np') = (length (children np) + length l)%nat.
Proof.
  intros Hf l. induction l as [|i l IH]; intros g np Hnp; simpl.
  - exists np. split; [exact Hnp|lia].
  - destruct (Hf g i) as (ang & r & ->).
    destruct (IH _ _ (placeChild_parent opts lvl p ang r g np Hnp)) as (np' & H1 & H2).
    exists np'. split; [exact H1|]. rewrite H2. simpl. rewrite length_app. simpl. lia.
Qed.

Section BuildInduction.

Variable opts : Options.
Variable P : Gen -> Prop.

Hypothesis Hstart : P (startGen opts).
Hypothesis Hopen : forall g, P g -> P (openLevel g).
Hypothesis Hclose : forall g lvl,
  P g -> LevelInv opts (closeLevel g) lvl -> P (closeLevel g).
Hypothesis Hroot : forall g i n0,
  P g -> (1 <= levels opts)%nat -> (i < initialLines opts)%nat ->
  nodeLevels g = [[0%nat]] -> levelNodes g = seq 1 i ->
  length (nodes (store g)) = S i ->
  nodes (store g) !! 0%nat = Some n0 -> length (children n0) = i ->
  TreeInv (store g) 1 ->
  P (rootChild opts 0%nat (rootAngleStep opts) g i).
Hypothesis Hbranch : forall g lvl parents p c np,
  P g -> (2 <= lvl <= levels opts)%nat -> length (nodeLevels g) = lvl ->
  nodeLevels g !! (lvl - 1)%nat = Some parents -> p ∈ parents ->
  (c < childrenPerNode opts)%nat ->
  nodes (store g) !! p = Some np -> length (children np) = c ->
  TreeInv (store g) (S p) ->
  P (branchChild opts lvl p g c).

Lemma growLevel_ind g l :
  (l < levels opts)%nat ->
  LevelInv opts g l -> P g -> P (growLevel opts 0%nat g (S l)).
Proof.
  intros Hl Hinv HP.
  pose proof (growLevel_inv opts g l Hinv) as Hnext.
  destruct Hinv as (first & Hlv & Hlast & Htot & Htree & Hcount).
  unfold growLevel in Hnext |- *.
  simpl Nat.sub in Hnext |- *. rewrite Nat.sub_0_r, Hlast in Hnext |- *.
  simpl default in Hnext |- *.
  fold (openLevel g). set (g0 := openLevel g).
  match goal with
  | |- P (mkGen (rng ?x) _ _ _ _ _) =>
    change (P (closeLevel x));
    change (LevelInv opts (closeLevel x) (S l)) in Hnext
  end.
  apply (Hclose _ (S l)); [|exact Hnext]. clear Hnext.
  destruct l as [|l].
  - (* level 1 *)
    simpl Nat.eqb. cbv iota. fold (rootAngleStep opts).
    simpl in Hcount. rewrite Nat.mul_0_r in Hcount.
    assert (Hf0 : first = 0%nat) by (simpl in Htot; lia). subst first.
    assert (Hnl : nodeLevels g = [[0%nat]]).
    { destruct (nodeLevels g) as [|x [|y t]]; simpl in Hlv, Hlast; try discriminate.
      injection Hlast as ->. reflexivity. }
    destruct (lookup_lt_is_Some_2 (nodes (store g)) 0%nat) as [n0 Hn0]; [lia|].
    pose proof (ti_leaf _ _ Htree 0%nat n0 (le_n _) Hn0) as Hkids0.
    apply foldl_prefix_ind; [apply Hopen; exact HP|].
    intros k e Hk HPk. apply lookup_seq in Hk as [-> Hk]. simpl Nat.add.
    rewrite take_seq, Nat.min_l in HPk |- * by lia.
    destruct (foldl_place opts 1 0%nat (rootChild opts 0%nat (rootAngleStep opts))
                (rootChild_places opts 0%nat _) (seq 0 k) g0) as (H1 & H2 & H3 & H4).
    { unfold g0. simpl. lia. }
    { unfold g0. simpl. apply (treeInv_advance _ 0%nat); [exact Htree|lia]. }
    destruct (foldl_place_children opts 1 0%nat (rootChild opts 0%nat (rootAngleStep opts))
                (rootChild_places opts 0%nat _) (seq 0 k) g0 n0 Hn0) as (n0' & Hn0' & Hlen0).
    rewrite length_seq in H2, H4, Hlen0.
    apply (Hroot _ k n0'); try assumption.
    + rewrite H3. exact Hnl.
    + rewrite H4. unfold g0. simpl. rewrite Hcount. reflexivity.
    + rewrite H2. unfold g0. simpl. lia.
    + rewrite Hlen0, Hkids0. reflexivity.
  - (* deeper levels *)
    simpl Nat.eqb. cbv iota.
    set (w := levelWidth opts (S l)) in *.
    apply foldl_prefix_ind; [apply Hopen; exact HP|].
    intros a p Ha HPa. apply lookup_seq in Ha as [-> Ha].
    rewrite take_seq, Nat.min_l in HPa |- * by lia.
    destruct (foldl_parents opts (S (S l)) a first g0) as (H1 & H2 & H3 & H4).
    { unfold g0. simpl. lia. }
    { exact Htree. }
    cbv zeta in H1, H2, H3, H4.
    set (x := foldl (fun g parentNode =>
                       foldl (branchChild opts (S (S l)) parentNode) g
                             (seq 0 (childrenPerNode opts)))
                    g0 (seq first a)) in *.
    assert (Hpx : (first + a < length (nodes (store x)))%nat).
    { rewrite H2. unfold g0. simpl. lia. }
    destruct (lookup_lt_is_Some_2 (nodes (store x)) (first + a)%nat Hpx) as [np Hnp].
    pose proof (ti_leaf _ _ H1 _ np (le_n _) Hnp) as Hkidsp.
    apply foldl_prefix_ind; [exact HPa|].
    intros c e Hc HPc. apply lookup_seq in Hc as [-> Hc]. simpl Nat.add.
    rewrite take_seq, Nat.min_l in HPc |- * by lia.
    destruct (foldl_place opts (S (S l)) (first + a)%nat
                (branchChild opts (S (S l)) (first + a)%nat)
                (branchChild_places opts (S (S l)) (first + a)%nat)
                (seq 0 c) x) as (K1 & K2 & K3 & K4).
    { exact Hpx. }
    { apply (treeInv_advance _ (first + a)%nat); [exact H1|lia]. }
    destruct (foldl_place_children opts (S (S l)) (first + a)%nat
                (branchChild opts (S (S l)) (first + a)%nat)
                (branchChild_places opts (S (S l)) (first + a)%nat)
                (seq 0 c) x np Hnp) as (np' & Hnp' & Hlenp).
    rewrite length_seq in K2, K4, Hlenp.
    apply (Hbranch _ (S (S l)) (seq first w) (first + a)%nat c np'); try assumption.
    + lia.
    + rewrite K3, H3. unfold g0. simpl. exact Hlv.
    + rewrite K3, H3. unfold g0. simpl. exact Hlast.
    + apply elem_of_seq. lia.
    + rewrite Hlenp, Hkidsp. reflexivity.
Qed.

(** An invariant of the turns of the builder holds of what it builds. *)
Lemma buildTree_ind : P (buildTree opts).
Proof.
  rewrite buildTree_unfold.
  assert (H : forall n, (n <= levels opts)%nat ->
            P (foldl (growLevel opts 0%nat) (startGen opts) (seq 1 n))).
  { induction n as [|n IH]; intros Hn; [exact Hstart|].
    rewrite seq_S, foldl_app. simpl.
    apply growLevel_ind; [lia|apply levels_inv|apply IH; lia]. }
  apply H. lia.
Qed.

End BuildInduction.

(** ** Links, levels and placement *)

(** The nodes after a child was placed under [p]: the old ones, [p] with
    one more child, and the new node. *)
Lemma placeChild_old opts lvl p ang r g j n :
  (p < length (nodes (store g)))%nat ->
  nodes (store g) !! j = Some n ->
  nodes (store (placeChild opts lvl p ang r g)) !! j
  = Some (if decide (p = j) then pushChild (length (lineInfos (store g))) n else n).
Proof.
  intros Hp Hj. pose proof (lookup_lt_Some _ _ _ Hj) as Hlt.
  rewrite placeChild_store by exact Hp. simpl.
  rewrite lookup_app_l by (rewrite length_alter; exact Hlt).
  destruct (decide (p = j)) as [->|Hne].
  - rewrite list_lookup_alter_eq, Hj. reflexivity.
  - rewrite list_lookup_alter_ne by exact Hne. exact Hj.
Qed.

Lemma placeChild_nodes opts lvl p ang r g j n' :
  (p < length (nodes (store g)))%nat ->
  nodes (store (placeChild opts lvl p ang r g)) !! j = Some n' ->
  (exists n, nodes (store g) !! j = Some n /\
             n' = if decide (p = j) then pushChild (length (lineInfos (store g))) n
                  else n) \/
  (j = length (nodes (store g)) /\
   n' = mkNode (nodeSerial g) lvl ang (fst (computeRadius lvl opts r)) (Some p) []
               (Some (length (lineInfos (store g)))) 0 0 0 0).
Proof.
  intros Hp Hj.
  destruct (le_lt_dec (length (nodes (store g))) j) as [Hge|Hlt].
  - right. rewrite placeChild_store in Hj by exact Hp. simpl in Hj.
    rewrite lookup_app_r in Hj by (rewrite length_alter; exact Hge).
    rewrite length_alter in Hj.
    destruct (j - length (nodes (store g)))%nat eqn:E; [|destruct n; discriminate].
    simpl in Hj. injection Hj as <-. split; [lia|reflexivity].
  - left. destruct (lookup_lt_is_Some_2 _ _ Hlt) as [n Hn].
    exists n. split; [exact Hn|].
    rewrite (placeChild_old opts lvl p ang r g j n Hp Hn) in Hj. congruence.
Qed.

Lemma placeChild_new opts lvl p ang r g :
  (p < length (nodes (store g)))%nat ->
  nodes (store (placeChild opts lvl p ang r g)) !! length (nodes (store g))
  = Some (mkNode (nodeSerial g) lvl ang (fst (computeRadius lvl opts r)) (Some p) []
                 (Some (length (lineInfos (store g)))) 0 0 0 0).
Proof.
  intros Hp. rewrite placeChild_store by exact Hp. simpl.
  rewrite lookup_app_r by (rewrite length_alter; lia).
  rewrite length_alter, Nat.sub_diag. reflexivity.
Qed.

Lemma placeChild_lines opts lvl p ang r g :
  (p < length (nodes (store g)))%nat ->
  lineInfos (store (placeChild opts lvl p ang r g))
  = lineInfos (store g) ++ [mkLineInfo p (length (nodes (store g))) None None].
Proof.
  intros Hp. rewrite placeChild_store by exact Hp. reflexivity.
Qed.

Lemma placeChild_linked opts lvl p ang r g np :
  Linked opts g -> (lvl <= levels opts)%nat ->
  nodes (store g) !! p = Some np -> lvl = S (level np) ->
  lvl = length (nodeLevels g) -> TreeInv (store g) (S p) ->
  Linked opts (placeChild opts lvl p ang r g).
Proof.
  intros (Hser & Hnodes & Hlev & Hcur) Hlvl Hnp Hup Hlen Htree.
  pose proof (lookup_lt_Some _ _ _ Hnp) as Hp.
  pose proof (ti_count _ _ Htree) as Hcount.
  destruct (placeChild_fields opts lvl p ang r g) as (Fnl & Fln & Fser & _).
  assert (Hkeep : forall j n, nodes (store g) !! j = Some n ->
            exists n', nodes (store (placeChild opts lvl p ang r g)) !! j = Some n' /\
                       level n' = level n /\
                       forall k, k ∈ children n -> k ∈ children n').
  { intros j n Hj. eexists. split; [apply placeChild_old; [exact Hp|exact Hj]|].
    destruct (decide (p = j)); simpl; [|auto].
    split; [reflexivity|]. intros k Hk. apply elem_of_app. auto. }
  split; [|split; [|split]].
  - rewrite Fser, placeChild_length by exact Hp. congruence.
  - intros j n' Hj.
    destruct (placeChild_nodes opts lvl p ang r g j n' Hp Hj) as [(n & Hn & ->)|[-> ->]].
    + destruct (Hnodes j n Hn) as (Hid & Hle & Hpar).
      assert (Hsame : id (if decide (p = j) then pushChild (length (lineInfos (store g))) n
                          else n) = id n /\
                      level (if decide (p = j)
                             then pushChild (length (lineInfos (store g))) n else n)
                      = level n /\
                      parent (if decide (p = j)
                              then pushChild (length (lineInfos (store g))) n else n)
                      = parent n)
        by (destruct (decide (p = j)); auto).
      destruct Hsame as (-> & -> & ->).
      split; [exact Hid|]. split; [exact Hle|].
      destruct (parent n) as [q|]; [|exact Hpar].
      destruct Hpar as (Hj0 & nq & l & Hq & Hlq & Hl & Hpl & Hin).
      split; [exact Hj0|].
      destruct (Hkeep q nq Hq) as (nq' & Hq' & Hlq' & Hkids).
      exists nq', l. split; [exact Hq'|]. split; [congruence|].
      split; [rewrite placeChild_lines by exact Hp; apply lookup_app_l_Some; exact Hl|].
      split; [exact Hpl|]. apply Hkids. exact Hin.
    + simpl. split; [exact Hser|]. split; [exact Hlvl|].
      split; [lia|].
      exists (pushChild (length (lineInfos (store g))) np),
             (mkLineInfo p (length (nodes (store g))) None None).
      split.
      { rewrite (placeChild_old opts lvl p ang r g p np Hp Hnp).
        destruct (decide (p = p)); [reflexivity|congruence]. }
      split; [exact Hup|].
      assert (Hk : (length (nodes (store g)) - 1)%nat = length (lineInfos (store g)))
        by lia.
      rewrite Hk. split.
      { rewrite placeChild_lines by exact Hp.
        rewrite lookup_app_r, Nat.sub_diag by lia. reflexivity. }
      split; [reflexivity|]. simpl. apply elem_of_app. right. apply list_elem_of_singleton.
      reflexivity.
  - intros l refs ref Hl Href. rewrite Fnl in Hl.
    destruct (Hlev l refs ref Hl Href) as (n & Hn & Hln).
    destruct (Hkeep ref n Hn) as (n' & Hn' & Hln' & _).
    exists n'. split; [exact Hn'|congruence].
  - intros ref Href. rewrite Fln in Href. rewrite Fnl.
    apply elem_of_app in Href as [Href|Href].
    + destruct (Hcur ref Href) as (n & Hn & Hln).
      destruct (Hkeep ref n Hn) as (n' & Hn' & Hln' & _).
      exists n'. split; [exact Hn'|congruence].
    + apply list_elem_of_singleton in Href. subst ref.
      eexists. split; [apply placeChild_new; exact Hp|]. simpl. exact Hlen.
Qed.

Lemma buildTree_linked opts : Linked opts (buildTree opts).
Proof.
  apply buildTree_ind.
  - (* the centre node *)
    split; [reflexivity|]. split; [|split].
    + intros j n Hj. destruct j; [|simpl in Hj; discriminate].
      injection Hj as <-. simpl. split; [reflexivity|]. split; [lia|auto].
    + intros l refs ref Hl Href. destruct l; [|simpl in Hl; discriminate].
      injection Hl as <-. apply list_elem_of_singleton in Href. subst ref.
      eexists. split; reflexivity.
    + intros ref Href. inversion Href.
  - intros g (H1 & H2 & H3 & H4). split; [exact H1|]. split; [exact H2|].
    split; [exact H3|]. intros ref Href. inversion Href.
  - intros g lvl (H1 & H2 & H3 & H4) _. split; [exact H1|]. split; [exact H2|].
    split; [|intros ref Href; inversion Href].
    intros l refs ref Hl Href. cbn [closeLevel nodeLevels store] in *.
    apply lookup_app_Some in Hl as [Hl|[Hge Hl]].
    + apply (H3 l refs ref Hl Href).
    + destruct (l - length (nodeLevels g))%nat eqn:E; [|destruct n; discriminate].
      simpl in Hl. injection Hl as <-.
      destruct (H4 ref Href) as (n & Hn & Hln).
      exists n. split; [exact Hn|]. lia.
  - intros g i n0 HP Hlv Hi Hnl Hln Hlen Hn0 Hkids Htree.
    destruct (rootChild_places opts 0%nat (rootAngleStep opts) g i) as (ang & r & ->).
    apply (placeChild_linked opts 1 0%nat ang r g n0); try assumption.
    + destruct HP as (_ & _ & H3 & _).
      destruct (H3 0%nat [0%nat] 0%nat) as (n & Hn & Hl0).
      { rewrite Hnl. reflexivity. }
      { apply list_elem_of_singleton. reflexivity. }
      rewrite Hn0 in Hn. injection Hn as <-. rewrite Hl0. reflexivity.
    + rewrite Hnl. reflexivity.
  - intros g lvl parents p c np HP Hlvl Hlen Hpar Hp Hc Hnp Hkids Htree.
    destruct (branchChild_places opts lvl p g c) as (ang & r & ->).
    apply (placeChild_linked opts lvl p ang r g np); try assumption.
    + lia.
    + destruct HP as (_ & _ & H3 & _).
      destruct (H3 _ _ _ Hpar Hp) as (n & Hn & Hl0).
      rewrite Hnp in Hn. injection Hn as <-. lia.
    + symmetry. exact Hlen.
Qed.

(** X3.  The builder leaves a tree: the id of a node is its position;
    the centre node, at position 0, has no parent, no incoming line and
    level 0; the node at position [k + 1] has line [k] as its incoming
    line, and its parent owns that line, was created before it and is
    exactly one level up; no level exceeds [levels]. *)
Theorem buildTree_links (opts : Options) (j : nat) (n : Node) :
  nodes (store (buildTree opts)) !! j = Some n ->
  id n = j /\ (level n <= levels opts)%nat /\
  match j with
  | O => parent n = None /\ incomingLine n = None /\ level n = 0%nat
  | S k =>
    exists p np l,
      parent n = Some p /\ incomingLine n = Some k /\ (p <= k)%nat /\
      nodes (store (buildTree opts)) !! p = Some np /\ level n = S (level np) /\
      lineInfos (store (buildTree opts)) !! k = Some l /\
      parentNode l = p /\ childNode l = S k /\ k ∈ children np
  end.
Proof.
  intros Hj.
  destruct (buildTree_linked opts) as (_ & Hnodes & _).
  pose proof (buildTree_tree opts) as Htree.
  destruct (Hnodes j n Hj) as (Hid & Hle & Hpar).
  destruct (ti_node _ _ Htree j n Hj) as (Hin & _).
  split; [exact Hid|]. split; [exact Hle|].
  destruct j as [|k].
  - destruct (parent n) as [q|].
    + destruct Hpar as [Hne _]. congruence.
    + destruct Hpar as [_ Hl0]. auto.
  - destruct (parent n) as [q|]; [|destruct Hpar; discriminate].
    destruct Hpar as (_ & nq & l & Hq & Hlq & Hl & Hpl & Hk).
    simpl in Hl, Hk. rewrite Nat.sub_0_r in Hl, Hk.
    destruct (ti_lines _ _ Htree k l Hl) as (Hc & Hp & _).
    exists q, nq, l. repeat split; try assumption; congruence.
Qed.

Lemma buildTree_links_witness :
  exists n, nodes (store (buildTree scenarioOptions)) !! 5%nat = Some n /\ id n = 5%nat.
Proof.
  destruct (nodes (store (buildTree scenarioOptions)) !! 5%nat) as [n|] eqn:E;
    [|vm_compute in E; discriminate].
  exists n. split; [reflexivity|].
  exact (proj1 (buildTree_links scenarioOptions 5 n E)).
Defined.

Lemma angleJitterDraw_spec opts r :
  0 <= angleJitter opts ->
  (0 < angleJitter opts \/ 0 < radiusJitter opts -> validState r) ->
  (- angleJitter opts <= fst (angleJitterDraw opts r) /\
   fst (angleJitterDraw opts r) <= angleJitter opts) /\
  (0 < angleJitter opts \/ 0 < radiusJitter opts ->
   validState (snd (angleJitterDraw opts r))).
Proof.
  intros H0 Hv. unfold angleJitterDraw.
  destruct (Qlt_bool 0 (angleJitter opts)) eqn:E.
  - apply Qlt_bool_iff in E. split.
    + apply range_bounds; [apply Hv; auto|lra].
    + intros _. apply range_valid. apply Hv. auto.
  - simpl. split; [split; lra|exact Hv].
Qed.

Lemma computeRadius_spec opts lvl r :
  0 <= radiusJitter opts ->
  (0 < angleJitter opts \/ 0 < radiusJitter opts -> validState r) ->
  radiusWithin opts lvl (fst (computeRadius lvl opts r)) /\
  (0 < angleJitter opts \/ 0 < radiusJitter opts ->
   validState (snd (computeRadius lvl opts r))).
Proof.
  intros H0 Hv. unfold computeRadius, radiusWithin. fold (levelRadius opts lvl).
  destruct (Qlt_bool 0 (radiusJitter opts)) eqn:E.
  - apply Qlt_bool_iff in E.
    pose proof (range_bounds (- radiusJitter opts) (radiusJitter opts) r) as Hb.
    pose proof (range_valid (- radiusJitter opts) (radiusJitter opts) r) as Hr.
    destruct (range (- radiusJitter opts) (radiusJitter opts) r) as [x r'].
    simpl in *. destruct Hb as [Hb1 Hb2]; [apply Hv; auto|lra|].
    split; [|intros _; apply Hr, Hv; auto].
    split; [apply Q.le_max_l|]. split; apply Q.max_le_compat_l; lra.
  - simpl. split; [|exact Hv].
    split; [apply Q.le_max_l|]. split; apply Q.max_le_compat_l; lra.
Qed.

Lemma computeRadius_floor lvl opts r : 5 <= fst (computeRadius lvl opts r).
Proof.
  unfold computeRadius.
  destruct (Qlt_bool 0 (radiusJitter opts)); [|apply Q.le_max_l].
  destruct (range _ _ r). apply Q.le_max_l.
Qed.

Lemma placeChild_placed opts lvl p ang r g np c :
  Placed opts g -> TreeInv (store g) (S p) ->
  nodes (store g) !! p = Some np -> length (children np) = c ->
  radiusWithin opts lvl (fst (computeRadius lvl opts r)) ->
  (0 < angleJitter opts \/ 0 < radiusJitter opts ->
   validState (snd (computeRadius lvl opts r))) ->
  (lvl = 1%nat -> angleWithin opts (rootAngleStep opts * inject_Z (Z.of_nat c)) ang) ->
  (lvl <> 1%nat -> angleWithin opts (angle np + slotOffset opts c) ang) ->
  Placed opts (placeChild opts lvl p ang r g).
Proof.
  intros [_ Hall] Htree Hnp Hc Hrad Hvalid Hroot Hbranch.
  pose proof (lookup_lt_Some _ _ _ Hnp) as Hp.
  pose proof (ti_count _ _ Htree) as Hcount.
  destruct (placeChild_fields opts lvl p ang r g) as (_ & _ & _ & Frng).
  split; [rewrite Frng; exact Hvalid|].
  intros p' np' c' k' ch' Hp' Hk' Hch'.
  assert (Hold : forall n c0 k0,
            nodes (store g) !! p' = Some n -> children n !! c0 = Some k0 ->
            angle np' = angle n -> nodes (store (placeChild opts lvl p ang r g)) !! S k0 = Some ch' ->
            radiusWithin opts (level ch') (radius ch') /\
            (level ch' = 1%nat ->
             angleWithin opts (rootAngleStep opts * inject_Z (Z.of_nat c0)) (angle ch')) /\
            (level ch' <> 1%nat ->
             angleWithin opts (angle np' + slotOffset opts c0) (angle ch'))).
  { intros n c0 k0 Hn Hk0 Hang Hch0.
    destruct (ti_owner _ _ Htree p' n k0 Hn (list_elem_of_lookup_2 _ _ _ Hk0))
      as (l & Hl & _).
    apply lookup_lt_Some in Hl.
    destruct (placeChild_nodes opts lvl p ang r g (S k0) ch' Hp Hch0)
      as [(ch & Hch & ->)|[Hj _]]; [|lia].
    destruct (Hall p' n c0 k0 ch Hn Hk0 Hch) as (R1 & R2 & R3).
    rewrite Hang.
    destruct (decide (p = S k0)); simpl; auto. }
  destruct (placeChild_nodes opts lvl p ang r g p' np' Hp Hp') as [(n & Hn & ->)|[-> ->]].
  - destruct (decide (p = p')) as [<-|Hne].
    + rewrite Hnp in Hn. injection Hn as <-. simpl in Hk'.
      apply lookup_app_Some in Hk' as [Hk'|[Hge Hk']].
      * apply (Hold np c' k' Hnp Hk'); [reflexivity|exact Hch'].
      * destruct (c' - length (children np))%nat eqn:E; [|destruct n; discriminate].
        simpl in Hk'. injection Hk' as <-.
        assert (c' = c) by lia. subst c'.
        replace (S (length (lineInfos (store g)))) with (length (nodes (store g)))
          in Hch' by lia.
        rewrite placeChild_new in Hch' by exact Hp. injection Hch' as <-. simpl.
        split; [exact Hrad|]. split; [exact Hroot|exact Hbranch].
    + apply (Hold n c' k' Hn Hk'); [reflexivity|exact Hch'].
  - simpl in Hk'. rewrite lookup_nil in Hk'. discriminate.
Qed.

Lemma buildTree_placed opts :
  0 <= angleJitter opts -> 0 <= radiusJitter opts ->
  (0 < angleJitter opts \/ 0 < radiusJitter opts -> validState (builderRng opts)) ->
  Placed opts (buildTree opts).
Proof.
  intros Ha Hr Hv. apply buildTree_ind.
  - split; [exact Hv|].
    intros p np c k ch Hp Hk. destruct p; [|simpl in Hp; discriminate].
    injection Hp as <-. simpl in Hk. rewrite lookup_nil in Hk. discriminate.
  - intros g HP. exact HP.
  - intros g lvl HP _. exact HP.
  - intros g i n0 [HV HP] Hlv Hi Hnl Hln Hlen Hn0 Hkids Htree.
    unfold rootChild.
    destruct (angleJitterDraw_spec opts (rng g) Ha HV) as ([J1 J2] & JV).
    destruct (angleJitterDraw opts (rng g)) as [jitter r]. simpl in J1, J2, JV.
    destruct (computeRadius_spec opts 1 r Hr JV) as [R RV].
    apply (placeChild_placed opts 1 0%nat _ r g n0 i); try assumption.
    + split; assumption.
    + intros _. unfold angleWithin. split; lra.
    + intros H. congruence.
  - intros g lvl parents p c np [HV HP] Hlvl Hlen Hpar Hp Hc Hnp Hkids Htree.
    unfold branchChild.
    destruct (angleJitterDraw_spec opts (rng g) Ha HV) as ([J1 J2] & JV).
    destruct (angleJitterDraw opts (rng g)) as [jitter r]. simpl in J1, J2, JV.
    destruct (computeRadius_spec opts lvl r Hr JV) as [R RV].
    rewrite Hnp. simpl from_option.
    apply (placeChild_placed opts lvl p _ r g np c); try assumption.
    + split; assumption.
    + intros H. lia.
    + intros _. unfold angleWithin, slotOffset. split; lra.
Qed.

(** X4.  Where the builder puts the child at index [c] of a node, for
    every configuration without negative jitter whose generator starts in
    its valid range (or draws nothing): at level 1 its angle is within
    [angleJitter] of [c] times [360 / initialLines]; below, within
    [angleJitter] of the angle of its parent plus
    [branchSpread * (c / (childrenPerNode - 1) - 1/2)] (plus 0 for a single
    child); and its radius is within [radiusJitter] of
    [baseRadius + (level - 1) * radiusStep], floored at 5.  Without jitter
    the angle and the radius are exactly these. *)
Theorem buildTree_placement (opts : Options) (p c k : nat) (np ch : Node) :
  0 <= angleJitter opts -> 0 <= radiusJitter opts ->
  (0 < angleJitter opts \/ 0 < radiusJitter opts -> validState (builderRng opts)) ->
  nodes (store (buildTree opts)) !! p = Some np -> children np !! c = Some k ->
  nodes (store (buildTree opts)) !! S k = Some ch ->
  radiusWithin opts (level ch) (radius ch) /\
  (level ch = 1%nat ->
   angleWithin opts (rootAngleStep opts * inject_Z (Z.of_nat c)) (angle ch)) /\
  (level ch <> 1%nat -> angleWithin opts (angle np + slotOffset opts c) (angle ch)) /\
  (angleJitter opts == 0 ->
   angle ch == if (level ch =? 1)%nat then rootAngleStep opts * inject_Z (Z.of_nat c)
               else angle np + slotOffset opts c) /\
  (radiusJitter opts == 0 -> radius ch == Qmax 5 (levelRadius opts (level ch))).
Proof.
  intros Ha Hr Hv Hp Hk Hch.
  destruct (buildTree_placed opts Ha Hr Hv) as [_ Hall].
  destruct (Hall p np c k ch Hp Hk Hch) as (R & A1 & A2).
  split; [exact R|]. split; [exact A1|]. split; [exact A2|]. split.
  - intros H0. destruct (level ch =? 1)%nat eqn:E.
    + apply Nat.eqb_eq in E. destruct (A1 E) as [X Y]. lra.
    + apply Nat.eqb_neq in E. destruct (A2 E) as [X Y]. lra.
  - intros H0. destruct R as (_ & X & Y).
    assert (E1 : levelRadius opts (level ch) - radiusJitter opts
                 == levelRadius opts (level ch)) by lra.
    assert (E2 : levelRadius opts (level ch) + radiusJitter opts
                 == levelRadius opts (level ch)) by lra.
    rewrite E1 in X. rewrite E2 in Y. apply Qle_antisym; assumption.
Qed.

Lemma buildTree_placement_witness :
  exists np ch,
    nodes (store (buildTree DEFAULTS)) !! 1%nat = Some np /\
    nodes (store (buildTree DEFAULTS)) !! 13%nat = Some ch /\
    angleWithin DEFAULTS (angle np + slotOffset DEFAULTS 0) (angle ch).
Proof.
  destruct (nodes (store (buildTree DEFAULTS)) !! 1%nat) as [np|] eqn:E1;
    [|vm_compute in E1; discriminate].
  destruct (nodes (store (buildTree DEFAULTS)) !! 13%nat) as [ch|] eqn:E2;
    [|vm_compute in E2; discriminate].
  exists np, ch. split; [reflexivity|]. split; [reflexivity|].
  assert (Hk : children np !! 0%nat = Some 12%nat).
  { vm_compute in E1. injection E1 as <-. reflexivity. }
  assert (Hl : level ch <> 1%nat).
  { vm_compute in E2. injection E2 as <-. discriminate. }
  refine (proj1 (proj2 (proj2
            (buildTree_placement DEFAULTS 1 0 12 np ch _ _ _ E1 Hk E2))) Hl).
  - discriminate.
  - discriminate.
  - intros _. vm_compute. split; discriminate.
Defined.

(** X5.  Whatever the options, negative radii included, the centre node
    has radius 0 and angle 0 and every other node a radius of at least 5. *)
Theorem buildTree_radius_floor (opts : Options) (j : nat) (n : Node) :
  nodes (store (buildTree opts)) !! j = Some n ->
  match j with
  | O => radius n = 0 /\ angle n = 0
  | S _ => 5 <= radius n
  end.
Proof.
  revert j n.
  apply (buildTree_ind opts (fun g => forall j n, nodes (store g) !! j = Some n ->
           match j with O => radius n = 0 /\ angle n = 0 | S _ => 5 <= radius n end)).
  - intros j n Hj. destruct j; [|simpl in Hj; discriminate].
    injection Hj as <-. auto.
  - intros g HP. exact HP.
  - intros g lvl HP _. exact HP.
  - intros g i n0 HP _ _ _ _ Hlen _ _ _ j n Hj.
    destruct (rootChild_places opts 0%nat (rootAngleStep opts) g i) as (ang & r & E).
    rewrite E in Hj.
    destruct (placeChild_nodes opts 1 0%nat ang r g j n) as [(n' & Hn' & ->)|[-> ->]];
      [lia|exact Hj| |].
    + specialize (HP j n' Hn'). destruct (decide (0%nat = j)); exact HP.
    + rewrite Hlen. simpl. apply computeRadius_floor.
  - intros g lvl parents p c np HP _ _ _ _ _ Hnp _ _ j n Hj.
    destruct (branchChild_places opts lvl p g c) as (ang & r & E).
    rewrite E in Hj. pose proof (lookup_lt_Some _ _ _ Hnp) as Hp.
    destruct (placeChild_nodes opts lvl p ang r g j n Hp Hj) as [(n' & Hn' & ->)|[-> ->]].
    + specialize (HP j n' Hn'). destruct (decide (p = j)); exact HP.
    + destruct (length (nodes (store g))); [lia|]. simpl. apply computeRadius_floor.
Qed.

Lemma buildTree_radius_floor_witness :
  exists n, nodes (store (buildTree floorOptions)) !! 1%nat = Some n /\ 5 <= radius n.
Proof.
  destruct (nodes (store (buildTree floorOptions)) !! 1%nat) as [n|] eqn:E;
    [|vm_compute in E; discriminate].
  exists n. split; [reflexivity|].
  exact (buildTree_radius_floor floorOptions 1 n E).
Defined.

Lemma buildTree_populated opts : Populated opts (buildTree opts).
Proof.
  apply buildTree_ind.
  - intros l refs Hl. destruct l; [|simpl in Hl; discriminate].
    injection Hl as <-. reflexivity.
  - intros g HP. exact HP.
  - intros g lvl HP (first & Hlv & Hlast & Htot & _ & Hcount) l refs Hl.
    cbn [closeLevel nodeLevels store] in *.
    rewrite length_app in Hlv. simpl in Hlv.
    apply lookup_app_Some in Hl as [Hl|[Hge Hl]]; [apply (HP l refs Hl)|].
    destruct (l - length (nodeLevels g))%nat eqn:E; [|destruct n; discriminate].
    simpl in Hl. injection Hl as <-.
    assert (l = lvl) by lia. subst l.
    rewrite lookup_app_r in Hlast by lia.
    replace (lvl - length (nodeLevels g))%nat with 0%nat in Hlast by lia.
    simpl in Hlast. injection Hlast as ->. f_equal.
    destruct lvl as [|lvl]; simpl in *; lia.
  - intros g i n0 HP _ _ _ _ _ _ _ _.
    destruct (rootChild_places opts 0%nat (rootAngleStep opts) g i) as (ang & r & ->).
    destruct (placeChild_fields opts 1 0%nat ang r g) as (Fnl & _).
    unfold Populated. rewrite Fnl. exact HP.
  - intros g lvl parents p c np HP _ _ _ _ _ _ _ _.
    destruct (branchChild_places opts lvl p g c) as (ang & r & ->).
    destruct (placeChild_fields opts lvl p ang r g) as (Fnl & _).
    unfold Populated. rewrite Fnl. exact HP.
Qed.

(** X6.  The builder records one list of nodes per level, the centre
    node's included: level [l] holds the [initialLines *
    childrenPerNode ^ (l - 1)] nodes created after those of the levels
    above it, in the order of their creation, and every one of them is of
    level [l]. *)
Theorem buildTree_levels (opts : Options) :
  length (nodeLevels (buildTree opts)) = S (levels opts) /\
  forall l, (l <= levels opts)%nat ->
    nodeLevels (buildTree opts) !! l
    = Some (seq (levelStart opts l) (levelWidth opts l)) /\
    levelStart opts (S l) = (levelStart opts l + levelWidth opts l)%nat /\
    forall ref, (levelStart opts l <= ref < levelStart opts (S l))%nat ->
      exists n, nodes (store (buildTree opts)) !! ref = Some n /\ level n = l.
Proof.
  destruct (buildTree_inv opts) as (first & Hlen & _).
  destruct (buildTree_linked opts) as (_ & _ & Hlev & _).
  pose proof (buildTree_populated opts) as Hpop.
  split; [exact Hlen|]. intros l Hl.
  destruct (lookup_lt_is_Some_2 (nodeLevels (buildTree opts)) l) as [refs Hrefs]; [lia|].
  pose proof (Hpop l refs Hrefs) as ->.
  assert (Hnext : levelStart opts (S l) = (levelStart opts l + levelWidth opts l)%nat).
  { destruct l as [|l]; simpl; lia. }
  split; [exact Hrefs|]. split; [exact Hnext|].
  intros ref Href. apply (Hlev l _ ref Hrefs). apply elem_of_seq. lia.
Qed.

(** * The two versions of the builder *)

(** Two left folds that commute with a view of their states, along the
    states the second goes through. *)
Lemma foldl_commute {X1 X2 E : Type} (abs : X2 -> X1) (W : X2 -> Prop)
    (f1 : X1 -> E -> X1) (f2 : X2 -> E -> X2) (es : list E) (x0 : X2) :
  W x0 ->
  (forall k e, es !! k = Some e -> W (foldl f2 x0 (take k es)) ->
     f1 (abs (foldl f2 x0 (take k es))) e = abs (f2 (foldl f2 x0 (take k es)) e) /\
     W (f2 (foldl f2 x0 (take k es)) e)) ->
  foldl f1 (abs x0) es = abs (foldl f2 x0 es) /\ W (foldl f2 x0 es).
Proof.
  intros H0 Hstep.
  pose proof (foldl_ind_index f2
                (fun k x => x = foldl f2 x0 (take k es) /\
                            foldl f1 (abs x0) (take k es) = abs x /\ W x) es x0) as H.
  simpl in H. destruct H as (_ & H1 & H2).
  - auto.
  - intros k e x He (-> & Hc & Hw).
    destruct (Hstep k e He Hw) as [Hs Hw'].
    rewrite (take_S_r _ _ _ He), !foldl_app. simpl.
    split; [reflexivity|]. split; [rewrite Hc; exact Hs|exact Hw'].
  - rewrite firstn_all in H1. auto.
Qed.

Lemma viewAt_placeChild opts lvl p ang r g ref :
  (p < length (nodes (store g)))%nat -> (ref < length (nodes (store g)))%nat ->
  viewAt (store (placeChild opts lvl p ang r g)) ref = viewAt (store g) ref.
Proof.
  intros Hp Href. unfold viewAt.
  destruct (lookup_lt_is_Some_2 _ _ Href) as [n Hn].
  rewrite (placeChild_old opts lvl p ang r g ref n Hp Hn), Hn.
  destruct (decide (p = ref)); reflexivity.
Qed.

Lemma fmap_viewAt_ext st st' refs :
  Forall (fun ref => viewAt st' ref = viewAt st ref) refs ->
  map (viewAt st') refs = map (viewAt st) refs.
Proof.
  induction 1 as [|ref refs H _ IH]; simpl; [reflexivity|]. rewrite H, IH. reflexivity.
Qed.

Lemma placeChild_serial opts lvl p ang r g :
  connectionSerial (placeChild opts lvl p ang r g) = S (connectionSerial g).
Proof.
  unfold placeChild. destruct (computeRadius lvl opts r). reflexivity.
Qed.

(** Placing a child in the second version is placing it in the first. *)
Lemma placeChild_view opts lvl p ang r g :
  (p < length (nodes (store g)))%nat -> TreeInv (store g) (S p) -> Bound g ->
  firstView (placeChild opts lvl p ang r g)
  = FirstVersion.placeChild opts lvl (viewAt (store g) p) ang r (firstView g) /\
  Bound (placeChild opts lvl p ang r g).
Proof.
  intros Hp Htree (Hser & Hroot & Hnl & Hln).
  pose proof (ti_count _ _ Htree) as Hcount.
  destruct (placeChild_fields opts lvl p ang r g) as (Fnl & Fln & Fser & Frng).
  pose proof (placeChild_serial opts lvl p ang r g) as Fcs.
  pose proof (placeChild_lines opts lvl p ang r g Hp) as Fls.
  pose proof (placeChild_length opts lvl p ang r g Hp) as Flen.
  assert (Hold : forall ref, (ref < length (nodes (store g)))%nat ->
            viewAt (store (placeChild opts lvl p ang r g)) ref = viewAt (store g) ref)
    by (intros ref Href; apply viewAt_placeChild; assumption).
  assert (Hnew : viewAt (store (placeChild opts lvl p ang r g)) (length (nodes (store g)))
                 = FirstVersion.mkNode (nodeSerial g) lvl ang
                     (fst (computeRadius lvl opts r))).
  { unfold viewAt. rewrite placeChild_new by exact Hp. reflexivity. }
  split.
  - unfold firstView, FirstVersion.placeChild.
    rewrite Fnl, Fln, Fser, Frng, Fcs, Fls.
    set (st' := store (placeChild opts lvl p ang r g)) in *. clearbody st'.
    cbn [FirstVersion.nodeSerial FirstVersion.connectionSerial FirstVersion.lineLayers
         FirstVersion.nodes FirstVersion.levelNodes FirstVersion.rng].
    destruct (computeRadius lvl opts r) as [rad r']. cbn [fst snd] in *.
    f_equal.
    + rewrite imap_app. f_equal.
      * apply imap_ext. intros k l Hk.
        destruct (ti_lines _ _ Htree k l Hk) as (Hc & Hpk & _).
        apply lookup_lt_Some in Hk.
        unfold viewLine. rewrite !Hold by lia. reflexivity.
      * simpl. unfold viewLine. cbn [parentNode childNode].
        rewrite Hnew, (Hold p Hp), Nat.add_0_r, Hser. reflexivity.
    + apply map_ext_Forall. eapply Forall_impl; [exact Hnl|].
      intros refs Hrefs. apply fmap_viewAt_ext.
      eapply Forall_impl; [exact Hrefs|]. intros ref Href. apply Hold. exact Href.
    + rewrite map_app. simpl. rewrite Hnew. f_equal.
      apply fmap_viewAt_ext.
      eapply Forall_impl; [exact Hln|]. intros ref Href. apply Hold. exact Href.
  - split; [rewrite Fcs, Fls, length_app; simpl; lia|].
    split; [rewrite Hold by lia; exact Hroot|].
    rewrite Fnl, Fln, Flen. split.
    + eapply Forall_impl; [exact Hnl|]. intros refs Hrefs.
      eapply Forall_impl; [exact Hrefs|]. intros ref Href. simpl in *. lia.
    + apply Forall_app. split.
      * eapply Forall_impl; [exact Hln|]. intros ref Href. simpl in *. lia.
      * apply Forall_singleton. lia.
Qed.

Lemma rootChild_view opts angleStep g i :
  (0 < length (nodes (store g)))%nat -> TreeInv (store g) 1 -> Bound g ->
  firstView (rootChild opts 0%nat angleStep g i)
  = FirstVersion.rootChild opts (FirstVersion.mkNode 0 0 0 0) angleStep (firstView g) i /\
  Bound (rootChild opts 0%nat angleStep g i).
Proof.
  intros Hp Htree Hb. unfold rootChild, FirstVersion.rootChild.
  change (FirstVersion.rng (firstView g)) with (rng g).
  destruct (angleJitterDraw opts (rng g)) as [jitter r].
  destruct Hb as (Hser & Hroot & Hrest). rewrite <- Hroot.
  apply placeChild_view; [exact Hp|exact Htree|].
  split; [exact Hser|]. split; [exact Hroot|exact Hrest].
Qed.

Lemma branchChild_view opts lvl p g c :
  (p < length (nodes (store g)))%nat -> TreeInv (store g) (S p) -> Bound g ->
  firstView (branchChild opts lvl p g c)
  = FirstVersion.branchChild opts lvl (viewAt (store g) p) (firstView g) c /\
  Bound (branchChild opts lvl p g c).
Proof.
  intros Hp Htree Hb. unfold branchChild, FirstVersion.branchChild.
  change (FirstVersion.rng (firstView g)) with (rng g).
  destruct (angleJitterDraw opts (rng g)) as [jitter r].
  assert (Hang : from_option angle 0 (nodes (store g) !! p)
                 = FirstVersion.angle (viewAt (store g) p)).
  { unfold viewAt. destruct (nodes (store g) !! p); reflexivity. }
  rewrite Hang. apply placeChild_view; assumption.
Qed.

(** A loop that places children leaves the nodes it finds as they
    look to the first version. *)
Lemma foldl_place_view opts lvl p (f : Gen -> nat -> Gen) :
  (forall g i, exists ang r, f g i = placeChild opts lvl p ang r g) ->
  forall (l : list nat) (g : Gen),
    (p < length (nodes (store g)))%nat ->
    (length (nodes (store g)) <= length (nodes (store (foldl f g l))))%nat /\
    forall ref, (ref < length (nodes (store g)))%nat ->
      viewAt (store (foldl f g l)) ref = viewAt (store g) ref.
Proof.
  intros Hf l. induction l as [|i l IH]; intros g Hp; simpl; [auto|].
  destruct (Hf g i) as (ang & r & ->).
  pose proof (placeChild_length opts lvl p ang r g Hp) as Hlen.
  destruct (IH (placeChild opts lvl p ang r g)) as [H1 H2]; [lia|].
  split; [lia|]. intros ref Href.
  rewrite H2 by lia. apply viewAt_placeChild; assumption.
Qed.

Lemma foldl_parents_view opts lvl (c : nat) :
  forall (f0 : nat) (g : Gen),
    (f0 + c <= length (nodes (store g)))%nat ->
    let g' := foldl (fun g parentNode =>
                       foldl (branchChild opts lvl parentNode) g
                             (seq 0 (childrenPerNode opts)))
                    g (seq f0 c) in
    (length (nodes (store g)) <= length (nodes (store g')))%nat /\
    forall ref, (ref < length (nodes (store g)))%nat ->
      viewAt (store g') ref = viewAt (store g) ref.
Proof.
  induction c as [|c IH]; intros f0 g Hle; simpl; [auto|].
  destruct (foldl_place_view opts lvl f0 (branchChild opts lvl f0)
              (branchChild_places opts lvl f0)
              (seq 0 (childrenPerNode opts)) g) as [H1 H2]; [lia|].
  set (g1 := foldl (branchChild opts lvl f0) g (seq 0 (childrenPerNode opts))) in *.
  destruct (IH (S f0) g1) as [K1 K2]; [lia|]. simpl in K1, K2.
  split; [lia|]. intros ref Href. rewrite K2 by lia. apply H2. exact Href.
Qed.

(** The loop over the children of one parent. *)
Lemma children_view opts lvl p g :
  (p < length (nodes (store g)))%nat -> TreeInv (store g) (S p) -> Bound g ->
  foldl (FirstVersion.branchChild opts lvl (viewAt (store g) p)) (firstView g)
        (seq 0 (childrenPerNode opts))
  = firstView (foldl (branchChild opts lvl p) g (seq 0 (childrenPerNode opts))) /\
  Bound (foldl (branchChild opts lvl p) g (seq 0 (childrenPerNode opts))).
Proof.
  intros Hp Htree Hb.
  apply (foldl_commute firstView Bound); [exact Hb|].
  intros c e Hc Hw. apply lookup_seq in Hc as [-> Hc]. simpl Nat.add.
  rewrite take_seq, Nat.min_l in Hw |- * by lia.
  destruct (foldl_place opts lvl p (branchChild opts lvl p)
              (branchChild_places opts lvl p) (seq 0 c) g Hp Htree) as (K1 & K2 & _).
  destruct (foldl_place_view opts lvl p (branchChild opts lvl p)
              (branchChild_places opts lvl p) (seq 0 c) g Hp) as [_ V].
  set (x := foldl (branchChild opts lvl p) g (seq 0 c)) in *.
  destruct (branchChild_view opts lvl p x c) as [E W]; [lia|exact K1|exact Hw|].
  rewrite (V p Hp) in E. split; [symmetry; exact E|exact W].
Qed.

Lemma growLevel_view opts g l :
  LevelInv opts g l -> Bound g ->
  FirstVersion.growLevel opts (FirstVersion.mkNode 0 0 0 0) (firstView g) (S l)
  = firstView (growLevel opts 0%nat g (S l)) /\
  Bound (growLevel opts 0%nat g (S l)).
Proof.
  intros (first & Hlv & Hlast & Htot & Htree & Hcount) Hb.
  unfold growLevel, FirstVersion.growLevel.
  simpl Nat.sub. rewrite Nat.sub_0_r, Hlast. simpl default.
  change (FirstVersion.nodes (firstView g))
    with (map (map (viewAt (store g))) (nodeLevels g)).
  change (map (map (viewAt (store g))) (nodeLevels g))
    with (map (viewAt (store g)) <$> nodeLevels g).
  rewrite list_lookup_fmap, Hlast. simpl default.
  fold (openLevel g). set (g0 := openLevel g).
  assert (Hb0 : Bound g0).
  { destruct Hb as (H1 & H2 & H3 & _). split; [exact H1|]. split; [exact H2|].
    split; [exact H3|constructor]. }
  assert (Hopen : FirstVersion.mkGen (FirstVersion.rng (firstView g))
                    (FirstVersion.nodeSerial (firstView g))
                    (FirstVersion.connectionSerial (firstView g))
                    (FirstVersion.lineLayers (firstView g))
                    (map (viewAt (store g)) <$> nodeLevels g) []
                  = firstView g0) by reflexivity.
  change (FirstVersion.nodes (firstView g))
    with (map (viewAt (store g)) <$> nodeLevels g).
  rewrite Hopen.
  assert (Hclose : forall x, Bound x ->
            FirstVersion.mkGen (FirstVersion.rng (firstView x))
              (FirstVersion.nodeSerial (firstView x))
              (FirstVersion.connectionSerial (firstView x))
              (FirstVersion.lineLayers (firstView x))
              (FirstVersion.nodes (firstView x) ++ [FirstVersion.levelNodes (firstView x)])
              []
            = firstView (closeLevel x) /\ Bound (closeLevel x)).
  { intros x (H1 & H2 & H3 & H4). split.
    - unfold firstView. simpl. rewrite map_app. reflexivity.
    - split; [exact H1|]. split; [exact H2|]. split; [|constructor].
      cbn [closeLevel nodeLevels store]. apply Forall_app. split; [exact H3|].
      apply Forall_singleton. exact H4. }
  destruct l as [|l].
  - (* level 1 *)
    simpl Nat.eqb. cbv iota.
    simpl in Hcount. rewrite Nat.mul_0_r in Hcount.
    assert (Hf0 : first = 0%nat) by (simpl in Htot; lia). subst first.
    fold (rootAngleStep opts).
    destruct (foldl_commute firstView Bound
                (FirstVersion.rootChild opts (FirstVersion.mkNode 0 0 0 0)
                                        (rootAngleStep opts))
                (rootChild opts 0%nat (rootAngleStep opts))
                (seq 0 (initialLines opts)) g0 Hb0) as [E W].
    { intros k e Hk Hw. apply lookup_seq in Hk as [-> Hk]. simpl Nat.add.
      rewrite take_seq, Nat.min_l in Hw |- * by lia.
      destruct (foldl_place opts 1 0%nat (rootChild opts 0%nat (rootAngleStep opts))
                  (rootChild_places opts 0%nat _) (seq 0 k) g0) as (K1 & K2 & _).
      { unfold g0. simpl. lia. }
      { unfold g0. simpl. apply (treeInv_advance _ 0%nat); [exact Htree|lia]. }
      destruct (rootChild_view opts (rootAngleStep opts)
                  (foldl (rootChild opts 0%nat (rootAngleStep opts)) g0 (seq 0 k)) k)
        as [E W]; [| exact K1 | exact Hw |].
      { rewrite K2. unfold g0. simpl. lia. }
      split; [symmetry; exact E|exact W]. }
    rewrite E. apply Hclose. exact W.
  - (* deeper levels *)
    simpl Nat.eqb. cbv iota.
    set (w := levelWidth opts (S l)) in *.
    change (map (viewAt (store g)) (seq first w))
      with (viewAt (store g0) <$> seq first w).
    rewrite foldl_fmap.
    destruct (foldl_commute firstView Bound
                (fun g1 p => foldl (FirstVersion.branchChild opts (S (S l))
                                      (viewAt (store g0) p)) g1
                                   (seq 0 (childrenPerNode opts)))
                (fun g2 p => foldl (branchChild opts (S (S l)) p) g2
                                   (seq 0 (childrenPerNode opts)))
                (seq first w) g0 Hb0) as [E W].
    { intros a p Ha Hw. apply lookup_seq in Ha as [-> Ha].
      rewrite take_seq, Nat.min_l in Hw |- * by lia.
      destruct (foldl_parents opts (S (S l)) a first g0) as (H1 & H2 & _).
      { unfold g0. simpl. lia. }
      { exact Htree. }
      destruct (foldl_parents_view opts (S (S l)) a first g0) as [_ V].
      { unfold g0. simpl. lia. }
      cbv zeta in H1, H2, V.
      set (x := foldl (fun g parentNode =>
                         foldl (branchChild opts (S (S l)) parentNode) g
                               (seq 0 (childrenPerNode opts)))
                      g0 (seq first a)) in *.
      assert (Hpx : (first + a < length (nodes (store x)))%nat).
      { rewrite H2. unfold g0. simpl. lia. }
      destruct (children_view opts (S (S l)) (first + a)%nat x Hpx) as [E W].
      { apply (treeInv_advance _ (first + a)%nat); [exact H1|lia]. }
      { exact Hw. }
      rewrite V in E by (unfold g0; simpl; lia).
      split; [exact E|exact W]. }
    rewrite E. apply Hclose. exact W.
Qed.

(** X7.  The first version of the script builds the same tree as the
    second: run on the same options, it leaves the same generator, serial
    numbers and levels, every node with the id, level, angle and radius
    the second version gives it, and one connection line per line of the
    second version, between the same two nodes, with the same level and
    serial number. *)
Theorem first_version_same_tree (opts : Options) :
  FirstVersion.generateStructure opts = firstView (buildTree opts).
Proof.
  rewrite buildTree_unfold.
  change (FirstVersion.generateStructure opts)
    with (foldl (FirstVersion.growLevel opts (FirstVersion.mkNode 0 0 0 0))
                (firstView (startGen opts)) (seq 1 (levels opts))).
  apply (foldl_commute firstView Bound).
  - split; [reflexivity|]. split; [reflexivity|].
    split; repeat constructor.
  - intros k e Hk Hw. apply lookup_seq in Hk as [-> Hk].
    rewrite take_seq, Nat.min_l in Hw |- * by lia.
    apply growLevel_view; [apply levels_inv|exact Hw].
Qed.

(** ** Positions *)

Lemma buildTree_centre opts j n :
  nodes (store (buildTree opts)) !! j = Some n ->
  (level n = 0%nat <-> j = 0%nat).
Proof.
  intros Hj.
  destruct (buildTree_linked opts) as (_ & Hall & _).
  destruct (Hall j n Hj) as (_ & _ & Hp).
  destruct (parent n) as [p|].
  - destruct Hp as (Hne & np & l & _ & Hlv & _). split; intros H; lia.
  - destruct Hp as [-> ->]. split; reflexivity.
Qed.

Lemma buildTree_radius_sign opts j n :
  nodes (store (buildTree opts)) !! j = Some n -> 0 <= radius n.
Proof.
  revert j n.
  apply (buildTree_ind opts (fun g => forall j n, nodes (store g) !! j = Some n ->
           0 <= radius n)).
  - intros j n Hj. destruct j; [|simpl in Hj; discriminate].
    injection Hj as <-. simpl. lra.
  - intros g HP. exact HP.
  - intros g lvl HP _. exact HP.
  - intros g i n0 HP _ _ _ _ Hlen _ _ _ j n Hj.
    destruct (rootChild_places opts 0%nat (rootAngleStep opts) g i) as (ang & r & E).
    rewrite E in Hj.
    destruct (placeChild_nodes opts 1 0%nat ang r g j n) as [(n' & Hn' & ->)|[-> ->]];
      [lia|exact Hj| |].
    + specialize (HP j n' Hn'). destruct (decide (0%nat = j)); exact HP.
    + simpl. pose proof (computeRadius_floor 1 opts r). lra.
  - intros g lvl parents p c np HP _ _ _ _ _ Hnp _ _ j n Hj.
    destruct (branchChild_places opts lvl p g c) as (ang & r & E).
    rewrite E in Hj. pose proof (lookup_lt_Some _ _ _ Hnp) as Hp.
    destruct (placeChild_nodes opts lvl p ang r g j n Hp Hj) as [(n' & Hn' & ->)|[-> ->]].
    + specialize (HP j n' Hn'). destruct (decide (p = j)); exact HP.
    + simpl. pose proof (computeRadius_floor lvl opts r). lra.
Qed.

Lemma polarToCartesian_within Math_PI Math_cos Math_sin cx cy r a :
  unitTrig Math_cos Math_sin -> 0 <= r ->
  exists dx dy,
    (- r <= dx /\ dx <= r) /\ (- r <= dy /\ dy <= r) /\
    polarToCartesian Math_PI Math_cos Math_sin [cx; cy] r a = [cx + dx; cy + dy].
Proof.
  intros Hunit Hr.
  destruct (Hunit (toRadians Math_PI a)) as [[C1 C2] [S1 S2]].
  exists (Math_cos (toRadians Math_PI a) * r), (Math_sin (toRadians Math_PI a) * r).
  split; [split; nra|]. split; [split; nra|]. reflexivity.
Qed.

(** X8.  Where the null layer of a node is put, for any host whose cosine
    and sine stay between -1 and 1: the centre node at the centre of the
    composition, and every node of the built tree at the centre plus an
    offset of at most its radius in each coordinate.  The position has two
    coordinates, or three with a depth of 0 when [make3D] is set. *)
Theorem node_within_radius (Math_PI : Q) (Math_cos Math_sin : Q -> Q)
    (opts : Options) (comp : Comp) (j : nat) (n : Node) :
  unitTrig Math_cos Math_sin ->
  nodes (store (buildTree opts)) !! j = Some n ->
  let position := nullLayerPosition Math_PI Math_cos Math_sin opts comp n in
  let x := nth 0 position 0 in
  let y := nth 1 position 0 in
  (j = 0%nat -> x == width comp / 2 /\ y == height comp / 2) /\
  (exists dx dy,
     (- radius n <= dx /\ dx <= radius n) /\ (- radius n <= dy /\ dy <= radius n) /\
     x == width comp / 2 + dx /\ y == height comp / 2 + dy) /\
  length position = (if make3D opts then 3%nat else 2%nat) /\
  (make3D opts = true -> nth 2 position 1 == 0).
Proof.
  intros Hunit Hj. cbn zeta.
  pose proof (buildTree_centre opts j n Hj) as Hc.
  pose proof (buildTree_radius_sign opts j n Hj) as H0.
  unfold nullLayerPosition.
  destruct (level n =? 0)%nat eqn:E.
  - split; [|split; [exists 0, 0|]];
      destruct (make3D opts); cbn [nth take length];
      repeat split; intros; try reflexivity; try discriminate; lra.
  - apply Nat.eqb_neq in E.
    assert (Hne : j <> 0%nat) by (intros H; apply E, Hc, H).
    destruct (polarToCartesian_within Math_PI Math_cos Math_sin
                (width comp / 2) (height comp / 2) (radius n) (angle n) Hunit H0)
      as (dx & dy & Hx & Hy & ->).
    split; [intros H; congruence|].
    split; [exists dx, dy|];
      destruct (make3D opts); cbn [nth take length];
      repeat split; intros; try reflexivity; try discriminate; lra.
Qed.

Lemma exampleHost_unit : unitTrig exampleCos exampleSin.
Proof.
  intros x. unfold exampleCos, exampleSin.
  repeat split; try apply Q.le_max_l;
    (apply Q.max_lub; [discriminate|apply Q.le_min_l]).
Qed.

Lemma node_within_radius_witness :
  exists n,
    nodes (store (buildTree scenarioOptions)) !! 2%nat = Some n /\
    let position := nullLayerPosition examplePI exampleCos exampleSin scenarioOptions
                      (mkComp 1920 1080 0) n in
    exists dx dy,
      (- radius n <= dx /\ dx <= radius n) /\ (- radius n <= dy /\ dy <= radius n) /\
      nth 0 position 0 == 1920 / 2 + dx /\ nth 1 position 0 == 1080 / 2 + dy.
Proof.
  destruct (nodes (store (buildTree scenarioOptions)) !! 2%nat) as [n|] eqn:E;
    [|vm_compute in E; discriminate].
  exists n. split; [reflexivity|].
  exact (proj1 (proj2 (node_within_radius examplePI exampleCos exampleSin
                         scenarioOptions (mkComp 1920 1080 0) 2 n
                         exampleHost_unit E))).
Defined.

(** * The timeline, line by line *)

Lemma chunk_lookup current childLines :
  forall i m ref, childLines !! m = Some ref ->
    chunk current i childLines !! m = Some (current, (i + m)%nat, ref).
Proof.
  induction childLines as [|x rest IH]; intros i m ref Hm; [discriminate|].
  destruct m as [|m]; simpl in *.
  - injection Hm as ->. rewrite Nat.add_0_r. reflexivity.
  - rewrite (IH (S i) m ref Hm). do 2 f_equal. f_equal. lia.
Qed.

Lemma planFrom_app a b :
  forall j, planFrom j (a ++ b) = planFrom j a ++ planFrom (j + length a) b.
Proof.
  induction a as [|n a IH]; intros j; simpl.
  - rewrite Nat.add_0_r. reflexivity.
  - rewrite IH, <- app_assoc. do 3 f_equal. lia.
Qed.

Lemma length_planFrom ns j : length (planFrom j ns) = length (allChildren ns).
Proof.
  rewrite <- (length_fmap snd), planFrom_snd. reflexivity.
Qed.

(** The turn that handles the line at index [i] of node [p]. *)
Lemma plan_children st p np i k :
  TreeInv st (length (nodes st)) ->
  nodes st !! p = Some np -> children np !! i = Some k ->
  plan st !! k = Some (p, i, k).
Proof.
  intros Htree Hp Hk.
  destruct (tree_children st Htree p np Hp) as (Hkids & _ & _).
  assert (Hki : k = (linesBefore st p + i)%nat).
  { rewrite Hkids in Hk. apply lookup_seq in Hk as [Hk _]. exact Hk. }
  unfold plan. rewrite <- (take_drop_middle (nodes st) p np Hp) at 1.
  rewrite planFrom_app. simpl.
  assert (Hlen : length (planFrom 0 (take p (nodes st))) = linesBefore st p)
    by apply length_planFrom.
  rewrite lookup_app_r by lia. rewrite Hlen.
  replace (k - linesBefore st p)%nat with i by lia.
  rewrite length_take, Nat.min_l by (apply lookup_lt_Some in Hp; lia).
  rewrite lookup_app_l.
  - rewrite (chunk_lookup p (children np) 0 i k Hk). reflexivity.
  - rewrite <- (length_fmap snd), chunk_snd. apply lookup_lt_Some in Hk. exact Hk.
Qed.

Lemma offsetWithin_eq opts current i d d' :
  d == d' -> offsetWithin opts current i d -> offsetWithin opts current i d'.
Proof.
  unfold offsetWithin. intros E.
  destruct ((current =? 0)%nat && simultaneousRoot opts); rewrite E; auto.
Qed.

Lemma edgeOffset_within opts current i r :
  0 <= randomOffset opts -> (0 < randomOffset opts -> validState r) ->
  offsetWithin opts current i (fst (edgeOffset opts 0%nat current i r)).
Proof.
  intros Hro Hv. unfold offsetWithin, edgeOffset.
  destruct (Qlt_bool 0 (randomOffset opts)) eqn:E.
  - apply Qlt_bool_iff in E.
    pose proof (range_bounds (- randomOffset opts) (randomOffset opts) r (Hv E)) as Hb.
    destruct (range (- randomOffset opts) (randomOffset opts) r) as [x r'].
    simpl in *. destruct Hb as [Hb1 Hb2]; [lra|].
    destruct ((current =? 0)%nat && simultaneousRoot opts); simpl;
      [reflexivity|split; lra].
  - apply Qlt_bool_false in E. simpl.
    destruct ((current =? 0)%nat && simultaneousRoot opts); simpl;
      [reflexivity|split; lra].
Qed.

Lemma childWindow_end opts ls le :
  0 <= nodeDuration opts -> le <= snd (childWindow opts ls le).
Proof.
  intros Hn. unfold childWindow. destruct (smoothFlow opts); simpl.
  - destruct (Qlt_bool (ls + Qmax (nodeDuration opts) (1 # 10000)) le) eqn:E.
    + apply Qle_refl.
    + apply Qlt_bool_false in E. exact E.
  - lra.
Qed.

Section Timeline.

Variable opts : Options.

Let st0 := store (buildTree opts).
Let s0 := startSchedule opts 0%nat st0.

Lemma run_latestEnd s :
  0 <= nodeDuration opts ->
  core s = core (foldl (step opts 0%nat) s0 (plan st0)) ->
  latestEnd (length (lineInfos st0)) s.
Proof.
  intros Hnd Hs.
  pose proof (buildTree_tree opts) as Htree.
  apply (run_invariant opts latestEnd); try exact Hs.
  - intros k x x' Hc HP. unfold core in Hc. injection Hc as _ Hsc Hm.
    unfold latestEnd in *. rewrite <- Hsc, <- Hm. exact HP.
  - split.
    + destruct (lookup_lt_is_Some_2 (nodes (scene (startSchedule opts 0%nat
                  (store (buildTree opts))))) 0%nat) as [n Hn].
      { pose proof (start_erase opts) as He.
        destruct (erase_lengths _ _ He) as [Hl _]. rewrite Hl.
        rewrite (ti_count _ _ Htree). lia. }
      exists 0%nat, n. split; [lia|]. split; [exact Hn|].
      destruct (start_node opts 0%nat n Hn) as (_ & [(_ & _ & Hb)|(Hne & _)]);
        [exact Hb|congruence].
    + intros j n Hj.
      change (maxTime (startSchedule opts 0%nat (store (buildTree opts))))
        with (0 + nodeDuration opts).
      destruct (start_node opts j n Hj) as (_ & [(_ & _ & Hb)|(_ & _ & Hb)]);
        rewrite Hb; lra.
  - intros k e x l ch _ _ Hl Hch _ _ _ [(j & n & Hjk & Hj & Hjn) Hall].
    set (w := windowOf opts 0%nat x (fst (fst e)) (snd (fst e))) in *.
    assert (Hkn : (S k < length (nodes (scene x)))%nat)
      by (apply lookup_lt_Some in Hch; exact Hch).
    split; proj_simpl.
    + destruct (Qlt_bool (maxTime x) (snd w)) eqn:E.
      * exists (S k), (setTimes (fst w) (snd w) ch). split; [lia|].
        split; [apply list_lookup_insert_eq; exact Hkn|reflexivity].
      * exists j, n. split; [lia|]. split; [|exact Hjn].
        rewrite list_lookup_insert_ne by lia. exact Hj.
    + intros j' n' Hj'. destruct (decide (j' = S k)) as [->|Hne].
      * rewrite list_lookup_insert_eq in Hj' by exact Hkn. injection Hj' as <-.
        proj_simpl. destruct (Qlt_bool (maxTime x) (snd w)) eqn:E.
        -- apply Qle_refl.
        -- apply Qlt_bool_false in E. exact E.
      * rewrite list_lookup_insert_ne in Hj' by congruence.
        pose proof (Hall _ _ Hj') as Hle.
        destruct (Qlt_bool (maxTime x) (snd w)) eqn:E; [|exact Hle].
        apply Qlt_bool_iff in E. lra.
Qed.

Hypothesis Hoffset : 0 <= randomOffset opts.
Hypothesis Hvalid : 0 < randomOffset opts -> validState (schedulerRng opts).

Lemma run_offsetsSet s :
  core s = core (foldl (step opts 0%nat) s0 (plan st0)) ->
  offsetsSet opts (length (lineInfos st0)) s.
Proof.
  intros Hs.
  pose proof (buildTree_tree opts) as Htree.
  apply (run_invariant opts (offsetsSet opts)); try exact Hs.
  - intros k x x' Hc HP. unfold core in Hc. injection Hc as Hr Hsc _.
    unfold offsetsSet in *. rewrite <- Hsc, <- Hr. exact HP.
  - split; [exact Hvalid|]. split.
    + intros j n Hj.
      destruct (start_node opts j n Hj) as (_ & [(_ & Ha & Hb)|(_ & Ha & Hb)]);
        congruence.
    + intros k' e Hk'. lia.
  - intros k e x l ch He _ Hl Hch _ _ Hcur (HR & HO & HL).
    set (cur := fst (fst e)) in *. set (i := snd (fst e)) in *.
    assert (Hkn : (S k < length (nodes (scene x)))%nat)
      by (apply lookup_lt_Some in Hch; exact Hch).
    assert (Hkl : (k < length (lineInfos (scene x)))%nat)
      by (apply lookup_lt_Some in Hl; exact Hl).
    split; [|split]; proj_simpl.
    + intros Hro. apply edgeOffset_valid; [exact HR|exact Hro].
    + intros j n Hj. destruct (decide (j = S k)) as [->|Hne].
      * rewrite list_lookup_insert_eq in Hj by exact Hkn. injection Hj as <-.
        reflexivity.
      * rewrite list_lookup_insert_ne in Hj by congruence. apply (HO j n Hj).
    + intros k' e' Hk' He'.
      destruct (plan_entry _ Htree k' e' He') as (_ & _ & l0 & Hl0 & Hp0).
      destruct (ti_lines _ _ Htree _ _ Hl0) as (_ & Hle0 & _).
      rewrite outTimeAt_insert_ne by lia.
      destruct (decide (k' = k)) as [->|Hne].
      * assert (e' = e) by congruence. subst e'. fold cur i.
        eexists _, _. split; [apply list_lookup_insert_eq; exact Hkl|].
        split; [reflexivity|].
        apply (offsetWithin_eq opts cur i
                 (fst (edgeOffset opts 0%nat cur i (animRng x)))).
        -- unfold lineStartOf. ring.
        -- apply edgeOffset_within; [exact Hoffset|exact HR].
      * destruct (HL k' e') as (l' & x' & Hl' & Hx' & Hoff); [lia|exact He'|].
        exists l', x'. split; [|split; [exact Hx'|exact Hoff]].
        rewrite list_lookup_insert_ne by congruence. exact Hl'.
Qed.

End Timeline.

(** X9.  For every configuration with a positive [nodeDuration] the
    total duration is the end of the latest activation window: some node's
    window ends exactly then, and no window of a node and no draw of a line
    ends later. *)
Theorem duration_is_latest_end (opts : Options) :
  0 < nodeDuration opts ->
  exists a,
    generateStructure opts = Some a /\
    (exists j n, nodes (timeline a) !! j = Some n /\ animEnd n = duration a) /\
    (forall j n, nodes (timeline a) !! j = Some n -> animEnd n <= duration a) /\
    (forall k l y, lineInfos (timeline a) !! k = Some l -> endTime l = Some y ->
       y <= duration a).
Proof.
  intros Hnd.
  destruct (generateStructure_result opts) as (s & Hd & Hc & Hg).
  pose proof (run_maxTime opts s Hc) as Hm.
  assert (HD : totalDuration opts (maxTime s) = maxTime s).
  { unfold totalDuration. destruct (Qle_bool (maxTime s) 0) eqn:E; [|reflexivity].
    apply Qle_bool_iff in E. lra. }
  destruct (run_latestEnd opts s) as [(j & n & _ & Hj & Hjn) Hall]; [lra|exact Hc|].
  pose proof (run_windowsSet opts s Hc) as Hw.
  destruct (run_invariant opts (fun _ _ => True)) with (s := s) as [_ He]; auto.
  destruct (erase_lengths _ _ He) as [_ Hlen].
  eexists. split; [exact Hg|]. cbn [timeline duration]. rewrite HD.
  split; [exists j, n; auto|]. split; [exact Hall|].
  intros k l y Hl Hy.
  destruct (Hw k) as (l' & n' & a & b & Hl' & Hn' & Ha & Hb & _ & _ & HaE).
  { apply lookup_lt_Some in Hl. lia. }
  rewrite Hl in Hl'. injection Hl' as <-. rewrite Hy in Hb. injection Hb as <-.
  pose proof (Hall _ _ Hn') as Hle. rewrite HaE in Hle.
  pose proof (childWindow_end opts a y) as Hce. lra.
Qed.

Lemma duration_is_latest_end_witness :
  exists a, generateStructure DEFAULTS = Some a /\
            exists j n, nodes (timeline a) !! j = Some n /\ animEnd n = duration a.
Proof.
  destruct (duration_is_latest_end DEFAULTS) as (a & Ha & Hj & _).
  - reflexivity.
  - exists a. split; [exact Ha|exact Hj].
Defined.

(** X10.  When the line starts.  For every configuration whose
    [randomOffset] is not negative and whose scheduler draws from a
    generator in its valid range (or draws nothing), the line at index [i]
    of a node starts at the end of the node's window plus an offset: 0 for
    a line of the root under [simultaneousRoot], else a number within
    [randomOffset] of [childStagger * i]; the draw lasts [lineDuration];
    the child at the end of the line starts with the draw under
    [smoothFlow] and when the draw ends otherwise. *)
Theorem line_start_offsets (opts : Options) :
  0 <= randomOffset opts ->
  (0 < randomOffset opts -> validState (schedulerRng opts)) ->
  exists a,
    generateStructure opts = Some a /\
    forall p np i k,
      nodes (timeline a) !! p = Some np -> children np !! i = Some k ->
      exists l ch x,
        lineInfos (timeline a) !! k = Some l /\
        parentNode l = p /\ childNode l = S k /\
        nodes (timeline a) !! S k = Some ch /\
        startTime l = Some x /\ endTime l = Some (x + lineDuration opts) /\
        offsetWithin opts p i (x - animEnd np) /\
        animStart ch = (if smoothFlow opts then x else x + lineDuration opts) /\
        (0 <= childStagger opts -> 0 <= lineDuration opts ->
         animEnd np - randomOffset opts <= animStart ch).
Proof.
  intros Hoffset Hvalid.
  destruct (generateStructure_result opts) as (s & Hd & Hc & Hg).
  pose proof (buildTree_tree opts) as Htree.
  pose proof (run_windowsSet opts s Hc) as Hw.
  destruct (run_offsetsSet opts Hoffset Hvalid s Hc) as (_ & HO & HL).
  destruct (run_invariant opts (fun _ _ => True)) with (s := s) as [_ He]; auto.
  eexists. split; [exact Hg|]. cbn [timeline].
  intros p np i k Hp Hk.
  destruct (erase_node _ _ _ _ He Hp) as (np0 & Hp0 & Hen).
  apply eraseNode_children in Hen. first [rewrite Hen in Hk|rewrite <- Hen in Hk].
  pose proof (plan_children _ p np0 i k Htree Hp0 Hk) as Hplan.
  destruct (plan_entry _ Htree k _ Hplan) as (_ & Hlt & _).
  destruct (tree_line_child _ Htree s k He Hlt) as (l & ch & Hl & Hch & Hcl & _).
  destruct (step_tree opts 0%nat _ Htree s k _ He Hplan)
    as (l' & _ & Hl' & _ & _ & Hpl & _).
  rewrite Hl in Hl'. injection Hl' as <-. simpl in Hpl.
  destruct (Hw k Hlt) as (l' & n' & a & b & Hl' & Hn' & Ha & Hb & Hab & HaS & _).
  rewrite Hl in Hl'. injection Hl' as <-.
  rewrite Hch in Hn'. injection Hn' as <-.
  destruct (HL k _ Hlt Hplan) as (l' & x & Hl' & Hx & Hoff).
  rewrite Hl in Hl'. injection Hl' as <-.
  rewrite Ha in Hx. injection Hx as <-. simpl in Hoff.
  exists l, ch, a. split; [exact Hl|]. split; [exact Hpl|]. split; [exact Hcl|].
  split; [exact Hch|]. split; [exact Ha|]. split; [rewrite Hb, Hab; reflexivity|].
  assert (Hoff' : offsetWithin opts p i (a - animEnd np)).
  { unfold outTimeAt in Hoff. rewrite Hp in Hoff. simpl in Hoff.
    rewrite (HO _ _ Hp) in Hoff. exact Hoff. }
  assert (HS : animStart ch = if smoothFlow opts then a else a + lineDuration opts).
  { rewrite HaS. unfold childWindow. rewrite Hab.
    destruct (smoothFlow opts); reflexivity. }
  split; [exact Hoff'|]. split; [exact HS|].
  intros Hcs Hld. rewrite HS.
  assert (Hi : 0 <= inject_Z (Z.of_nat i)).
  { change 0 with (inject_Z 0). rewrite <- Zle_Qle. lia. }
  assert (Hlow : - randomOffset opts <= a - animEnd np).
  { unfold offsetWithin in Hoff'.
    destruct ((p =? 0)%nat && simultaneousRoot opts); [lra|].
    destruct Hoff' as [H1 _]. nra. }
  destruct (smoothFlow opts); lra.
Qed.

Lemma line_start_offsets_witness :
  exists a, generateStructure DEFAULTS = Some a.
Proof.
  destruct (line_start_offsets DEFAULTS) as (a & Ha & _).
  - vm_compute. discriminate.
  - intros _. vm_compute. split; discriminate.
  - exists a. exact Ha.
Defined.

(** ** Colours *)

Lemma clamp01_bounds v : 0 <= clamp01 v /\ clamp01 v <= 1.
Proof.
  unfold clamp01. split; [apply Q.le_max_l|].
  apply Q.max_lub; [discriminate|apply Q.le_min_l].
Qed.

Lemma clamp01_id v : 0 <= v -> v <= 1 -> clamp01 v == v.
Proof.
  intros H0 H1. unfold clamp01.
  rewrite (Q.min_r 1 v H1). apply Q.max_r. exact H0.
Qed.

Lemma Math_round_near x :
  x - (1 # 2) < inject_Z (Math_round x) /\ inject_Z (Math_round x) <= x + (1 # 2).
Proof.
  unfold Math_round.
  pose proof (Qfloor_le (x + (1 # 2))) as H1.
  pose proof (Qlt_floor (x + (1 # 2))) as H2.
  rewrite inject_Z_plus in H2. change (inject_Z 1) with 1 in H2.
  split; lra.
Qed.

Lemma Math_round_inject z : Math_round (inject_Z z) = z.
Proof.
  destruct (Math_round_near (inject_Z z)) as [H1 H2].
  set (f := Math_round (inject_Z z)) in *.
  unfold Qlt, Qle, Qminus, Qplus, Qopp, inject_Z in H1, H2. simpl in H1, H2. lia.
Qed.

Lemma Math_round_255 x :
  0 <= x -> x <= 255 -> (0 <= Math_round x <= 255)%Z.
Proof.
  intros H0 H1. unfold Math_round. split.
  - change 0%Z with (Qfloor (0 + (1 # 2))). apply Qfloor_resp_le. lra.
  - change 255%Z with (Qfloor (255 + (1 # 2))). apply Qfloor_resp_le. lra.
Qed.

(** The level of a channel: an integer from 0 to 255. *)
Lemma channel_level v : (0 <= Math_round (clamp01 v * 255) <= 255)%Z.
Proof.
  destruct (clamp01_bounds v). apply Math_round_255; lra.
Qed.

Section Bits.

Local Open Scope Z_scope.

Lemma toInt32_id z : -2147483648 <= z < 2147483648 -> toInt32 z = z.
Proof.
  intros H. unfold toInt32. rewrite Z.mod_small by lia. lia.
Qed.

Lemma toInt32_range z : -2147483648 <= toInt32 z < 2147483648.
Proof.
  unfold toInt32. pose proof (Z.mod_pos_bound (z + 2147483648) 4294967296). lia.
Qed.

Lemma lor_shiftl_add a b k :
  0 <= k -> 0 <= b < 2 ^ k -> Z.lor (a * 2 ^ k) b = a * 2 ^ k + b.
Proof.
  intros Hk Hb. rewrite <- Z.shiftl_mul_pow2 by exact Hk.
  assert (Hland : Z.land (Z.shiftl a k) b = 0).
  { apply Z.bits_inj'. intros n Hn. rewrite Z.land_spec, Z.bits_0.
    destruct (Z.lt_ge_cases n k) as [Hlt|Hge].
    - rewrite Z.shiftl_spec_low by exact Hlt. reflexivity.
    - assert (Hbn : Z.testbit b n = false).
      { apply Z.testbit_false; [exact Hn|].
        rewrite Z.div_small; [reflexivity|].
        pose proof (Z.pow_le_mono_r 2 k n). lia. }
      rewrite Hbn. apply andb_false_r. }
  rewrite <- Z.lxor_lor by exact Hland.
  rewrite <- Z.add_nocarry_lxor by exact Hland. reflexivity.
Qed.

(** Three levels packed in one number. *)
Lemma pack_levels r g b :
  0 <= r <= 255 -> 0 <= g <= 255 -> 0 <= b <= 255 ->
  or32 (or32 (shl32 r 16) (shl32 g 8)) b = r * 65536 + g * 256 + b.
Proof.
  intros Hr Hg Hb.
  assert (H16 : shl32 r 16 = r * 2 ^ 16).
  { unfold shl32. change (Z.land 16 31) with 16.
    rewrite (toInt32_id r), Z.shiftl_mul_pow2 by lia.
    apply toInt32_id. change (2 ^ 16) with 65536. lia. }
  assert (H8 : shl32 g 8 = g * 2 ^ 8).
  { unfold shl32. change (Z.land 8 31) with 8.
    rewrite (toInt32_id g), Z.shiftl_mul_pow2 by lia.
    apply toInt32_id. change (2 ^ 8) with 256. lia. }
  assert (Hrg : or32 (shl32 r 16) (shl32 g 8) = (r * 256 + g) * 2 ^ 8).
  { unfold or32. rewrite H16, H8.
    rewrite !toInt32_id by (change (2 ^ 16) with 65536; change (2 ^ 8) with 256; lia).
    rewrite lor_shiftl_add by (change (2 ^ 16) with 65536; change (2 ^ 8) with 256; lia).
    change (2 ^ 16) with 65536. change (2 ^ 8) with 256. lia. }
  unfold or32 at 1. rewrite Hrg.
  rewrite !toInt32_id by (change (2 ^ 8) with 256; lia).
  rewrite lor_shiftl_add by (change (2 ^ 8) with 256; lia).
  change (2 ^ 8) with 256. lia.
Qed.

(** The level of a channel read off a number. *)
Lemma unpack_level hex k :
  0 <= k <= 16 ->
  and32 (sar32 hex k) 255 = (toInt32 hex / 2 ^ k) mod 256.
Proof.
  intros Hk. unfold and32, sar32.
  assert (Hk31 : Z.land k 31 = k).
  { change 31 with (Z.ones 5). rewrite Z.land_ones by lia.
    apply Z.mod_small. change (2 ^ 5) with 32. lia. }
  rewrite Hk31, Z.shiftr_div_pow2 by lia.
  pose proof (toInt32_range hex) as Ht.
  assert (Hp : 1 <= 2 ^ k) by (pose proof (Z.pow_le_mono_r 2 0 k); lia).
  assert (Hq : -2147483648 <= toInt32 hex / 2 ^ k < 2147483648).
  { split.
    - apply Z.div_le_lower_bound; [lia|]. nia.
    - apply Z.div_lt_upper_bound; [lia|]. nia. }
  rewrite (toInt32_id _ Hq), (toInt32_id 255) by lia.
  change 255 with (Z.ones 8). rewrite Z.land_ones by lia. reflexivity.
Qed.

Lemma and32_255 hex : and32 hex 255 = toInt32 hex mod 256.
Proof.
  unfold and32. rewrite (toInt32_id 255) by lia.
  change 255 with (Z.ones 8). rewrite Z.land_ones by lia. reflexivity.
Qed.

Lemma toInt32_low hex : toInt32 hex mod 16777216 = hex mod 16777216.
Proof.
  unfold toInt32. Z.div_mod_to_equations. lia.
Qed.

End Bits.

Lemma level_of_fraction z :
  (0 <= z <= 255)%Z -> Math_round (clamp01 (inject_Z z / 255) * 255) = z.
Proof.
  intros Hz. rewrite <- (Math_round_inject z) at 2.
  unfold Math_round. apply Qfloor_comp.
  assert (H0 : 0 <= inject_Z z) by (change 0 with (inject_Z 0); rewrite <- Zle_Qle; lia).
  assert (H1 : inject_Z z <= 255)
    by (change 255 with (inject_Z 255); rewrite <- Zle_Qle; lia).
  rewrite clamp01_id.
  - field.
  - apply Qle_shift_div_l; lra.
  - apply Qle_shift_div_r; lra.
Qed.

Lemma rgbArrayToHex_levels color :
  rgbArrayToHex color
  = (channelLevel color 0 * 65536 + channelLevel color 1 * 256 + channelLevel color 2)%Z.
Proof.
  unfold rgbArrayToHex. fold (channelLevel color 0) (channelLevel color 1)
    (channelLevel color 2).
  apply pack_levels; apply channel_level.
Qed.

Lemma hexToRgb_levels hex :
  hexToRgb hex
  = [ inject_Z ((toInt32 hex / 65536) mod 256) / 255;
      inject_Z ((toInt32 hex / 256) mod 256) / 255;
      inject_Z (toInt32 hex mod 256) / 255 ].
Proof.
  unfold hexToRgb.
  rewrite (unpack_level hex 16), (unpack_level hex 8), and32_255 by lia.
  reflexivity.
Qed.

Lemma fraction_bounds z :
  (0 <= z <= 255)%Z -> 0 <= inject_Z z / 255 /\ inject_Z z / 255 <= 1.
Proof.
  intros Hz.
  assert (H0 : 0 <= inject_Z z) by (change 0 with (inject_Z 0); rewrite <- Zle_Qle; lia).
  assert (H1 : inject_Z z <= 255)
    by (change 255 with (inject_Z 255); rewrite <- Zle_Qle; lia).
  split; [apply Qle_shift_div_l; lra|apply Qle_shift_div_r; lra].
Qed.

Lemma rgbArrayToHex_hexToRgb hex :
  rgbArrayToHex (hexToRgb hex) = (hex mod 16777216)%Z.
Proof.
  assert (Hlev : forall z, (0 <= z mod 256 <= 255)%Z).
  { intros z. pose proof (Z.mod_pos_bound z 256). lia. }
  rewrite rgbArrayToHex_levels, hexToRgb_levels. unfold channelLevel. cbn [nth].
  rewrite !level_of_fraction by apply Hlev.
  rewrite <- toInt32_low.
  generalize (toInt32 hex). intros t. Z.div_mod_to_equations. lia.
Qed.

(** X11.  Whatever the array holds, [rgbArrayToHex] returns a number from
    0 to 0xFFFFFF whose three bytes are the levels of the three channels,
    each the channel clamped to [0, 1], scaled to 255 and rounded. *)
Theorem rgbArrayToHex_range (color : list Q) :
  (0 <= rgbArrayToHex color <= 16777215)%Z /\
  rgbArrayToHex color
  = (channelLevel color 0 * 65536 + channelLevel color 1 * 256 + channelLevel color 2)%Z /\
  forall i, (0 <= channelLevel color i <= 255)%Z.
Proof.
  assert (H : forall i, (0 <= channelLevel color i <= 255)%Z)
    by (intros i; apply channel_level).
  rewrite rgbArrayToHex_levels.
  pose proof (H 0%nat). pose proof (H 1%nat). pose proof (H 2%nat).
  split; [lia|]. split; [reflexivity|exact H].
Qed.

(** X12.  [hexToRgb] returns three numbers of [0, 1], for every integer;
    packing them again with [rgbArrayToHex] gives back the low 24 bits of
    the number, hence the number itself when it is a colour, from 0 to
    0xFFFFFF. *)
Theorem hexToRgb_round_trip (hex : Z) :
  Forall (fun c => 0 <= c /\ c <= 1) (hexToRgb hex) /\
  rgbArrayToHex (hexToRgb hex) = (hex mod 16777216)%Z /\
  ((0 <= hex <= 16777215)%Z -> rgbArrayToHex (hexToRgb hex) = hex).
Proof.
  assert (Hlev : forall z, (0 <= z mod 256 <= 255)%Z).
  { intros z. pose proof (Z.mod_pos_bound z 256). lia. }
  split; [|split].
  - rewrite hexToRgb_levels. repeat constructor; apply fraction_bounds, Hlev.
  - apply rgbArrayToHex_hexToRgb.
  - intros Hh. rewrite rgbArrayToHex_hexToRgb. apply Z.mod_small. lia.
Qed.

Lemma hexToRgb_round_trip_witness :
  rgbArrayToHex (hexToRgb 16744448) = 16744448%Z.
Proof.
  apply (proj2 (proj2 (hexToRgb_round_trip 16744448))). lia.
Defined.

(** X13.  A colour that went through the picker unchanged comes back
    quantized: each of its three channels is the level of the channel
    divided by 255, within 1/510 of the channel clamped to [0, 1]; and it
    is a fixed point: packing it again gives the same number. *)
Theorem picked_colour_quantized (color : list Q) :
  Forall2 (fun c v => - (1 # 510) <= c - clamp01 v /\ c - clamp01 v <= 1 # 510)
          (hexToRgb (rgbArrayToHex color))
          [nth 0 color 0; nth 1 color 0; nth 2 color 0] /\
  Forall2 (fun c z => c == inject_Z z / 255)
          (hexToRgb (rgbArrayToHex color))
          [channelLevel color 0; channelLevel color 1; channelLevel color 2] /\
  rgbArrayToHex (hexToRgb (rgbArrayToHex color)) = rgbArrayToHex color.
Proof.
  assert (H : forall i, (0 <= channelLevel color i <= 255)%Z)
    by (intros i; apply channel_level).
  pose proof (H 0%nat) as H0. pose proof (H 1%nat) as H1. pose proof (H 2%nat) as H2.
  assert (Hnear : forall i,
            - (1 # 510) <= inject_Z (channelLevel color i) / 255 - clamp01 (nth i color 0) /\
            inject_Z (channelLevel color i) / 255 - clamp01 (nth i color 0) <= 1 # 510).
  { intros i. unfold channelLevel.
    destruct (Math_round_near (clamp01 (nth i color 0) * 255)) as [Ha Hb].
    set (z := inject_Z (Math_round (clamp01 (nth i color 0) * 255))) in *.
    assert (Hc : (z / 255) * 255 == z) by (field).
    set (c := z / 255) in *. clearbody c z. split; lra. }
  assert (Hhex : hexToRgb (rgbArrayToHex color)
                 = [ inject_Z (channelLevel color 0) / 255;
                     inject_Z (channelLevel color 1) / 255;
                     inject_Z (channelLevel color 2) / 255 ]).
  { rewrite hexToRgb_levels, rgbArrayToHex_levels.
    rewrite toInt32_id by lia.
    repeat f_equal; Z.div_mod_to_equations; lia. }
  split; [|split].
  - rewrite Hhex. repeat constructor; apply Hnear.
  - rewrite Hhex. repeat constructor; reflexivity.
  - rewrite rgbArrayToHex_hexToRgb. apply Z.mod_small.
    rewrite rgbArrayToHex_levels. lia.
Qed.

(** ** Colours read from a text field *)

Lemma setAt_take_drop out idx v :
  (idx <= length out)%nat -> setAt out idx v = take idx out ++ v :: drop (S idx) out.
Proof.
  intros H. unfold setAt. destruct (idx <? length out)%nat eqn:E.
  - apply Nat.ltb_lt in E. apply insert_take_drop. exact E.
  - apply Nat.ltb_ge in E. assert (idx = length out) by lia. subst idx.
    rewrite firstn_all, drop_ge by lia. reflexivity.
Qed.

Lemma readToken_unit val : unitInterval (readToken val).
Proof. apply clamp01_bounds. Qed.

(** The loop over the tokens writes the components the text provides at
    the positions from [idx] on and leaves the others. *)
Lemma parseTokens_spec parts :
  forall idx out,
    (idx <= length out)%nat ->
    let vs := take (4 - idx) (readToken <$> omap (fun token => token) parts) in
    parseTokens parts idx out
    = ((idx + length vs)%nat, take idx out ++ vs ++ drop (idx + length vs) out).
Proof.
  induction parts as [|token rest IH]; intros idx out Hidx; cbn zeta.
  - cbn [parseTokens omap list_omap fmap list_fmap]. rewrite take_nil.
    cbn [length app]. rewrite Nat.add_0_r, take_drop. reflexivity.
  - cbn [parseTokens]. destruct (idx <? 4)%nat eqn:E.
    + apply Nat.ltb_lt in E. destruct token as [val|].
      * cbv zeta. fold (readToken val).
        change (omap (fun token => token) (Some val :: rest))
          with (val :: omap (fun token : option Q => token) rest).
        rewrite fmap_cons.
        set (T := readToken <$> omap (fun token : option Q => token) rest) in *.
        assert (Hlen : length (setAt out idx (readToken val)) = Nat.max (S idx) (length out)).
        { rewrite setAt_take_drop by exact Hidx.
          rewrite length_app, length_take. cbn [length]. rewrite length_drop. lia. }
        rewrite IH by lia. cbn zeta.
        assert (H4 : (4 - idx = S (4 - S idx))%nat) by lia.
        rewrite H4, firstn_cons.
        set (vs := take (4 - S idx) T). cbn [length].
        f_equal; [lia|].
        rewrite setAt_take_drop by exact Hidx.
        rewrite take_app_ge by (rewrite length_take; lia).
        rewrite length_take, Nat.min_l by exact Hidx.
        replace (S idx - idx)%nat with 1%nat by lia.
        rewrite <- !app_assoc. f_equal.
        change (take 1 (readToken val :: drop (S idx) out)) with [readToken val].
        cbn [app]. do 2 f_equal.
        rewrite drop_app_ge by (rewrite length_take; lia).
        rewrite length_take, Nat.min_l by exact Hidx.
        replace (S idx + length vs - idx)%nat with (S (length vs)) by lia.
        rewrite skipn_cons, drop_drop. f_equal. lia.
      * apply IH. exact Hidx.
    + apply Nat.ltb_ge in E.
      replace (4 - idx)%nat with 0%nat by lia. rewrite take_0. cbn [length app].
      rewrite Nat.add_0_r, take_drop. reflexivity.
Qed.

(** Once [out] is as long as [fallback], the padding is made of ones:
    [fallback[out.length]] never finds an element. *)
Lemma padColor_spec fallback idx :
  forall fuel out,
    (4 - length out <= fuel)%nat -> (length fallback <= length out)%nat ->
    padColor fuel idx fallback out = Some (out ++ replicate (4 - length out) 1).
Proof.
  induction fuel as [|fuel IH]; intros out Hfuel Hlen; simpl.
  - destruct (length out <? 4)%nat eqn:E.
    + apply Nat.ltb_lt in E. lia.
    + apply Nat.ltb_ge in E. replace (4 - length out)%nat with 0%nat by lia.
      simpl. rewrite app_nil_r. reflexivity.
  - destruct (length out <? 4)%nat eqn:E.
    + apply Nat.ltb_lt in E.
      rewrite (lookup_ge_None_2 fallback (length out)) by lia.
      assert (Hv : (if (idx =? 3)%nat then 1 else 1) = 1) by (destruct (idx =? 3)%nat; reflexivity).
      rewrite Hv, IH by (rewrite length_app; simpl; lia).
      rewrite length_app. simpl.
      replace (4 - length out)%nat with (S (4 - (length out + 1))) by lia.
      simpl. rewrite <- app_assoc. reflexivity.
    + apply Nat.ltb_ge in E. replace (4 - length out)%nat with 0%nat by lia.
      simpl. rewrite app_nil_r. reflexivity.
Qed.

Lemma parseColor_spec parts fallback :
  parseColor parts fallback
  = Some (take 4 (readTokens parts ++ drop (length (readTokens parts)) fallback
                  ++ [1; 1; 1; 1])).
Proof.
  unfold parseColor.
  pose proof (parseTokens_spec parts 0 fallback (Nat.le_0_l _)) as H.
  cbn zeta in H. rewrite Nat.sub_0_r in H. fold (readTokens parts) in H.
  rewrite H. cbv beta iota. rewrite take_0. cbn [app Nat.add].
  set (vs := readTokens parts).
  set (out := vs ++ drop (length vs) fallback).
  assert (Hout : (length fallback <= length out)%nat).
  { unfold out. rewrite length_app, length_drop. lia. }
  rewrite padColor_spec by (exact Hout || lia). cbn [option_map]. f_equal.
  rewrite (app_assoc vs). fold out.
  destruct (le_lt_dec 4 (length out)) as [Hge|Hlt].
  - rewrite !take_app_le by exact Hge. reflexivity.
  - rewrite !take_app_ge by lia. f_equal.
    rewrite (take_ge (replicate _ _)) by (rewrite length_replicate; lia).
    assert (Hk : forall k, (k <= 4)%nat -> take k [1; 1; 1; 1] = replicate k (1:Q)).
    { intros k Hk. do 5 (destruct k; [reflexivity|]). lia. }
    rewrite Hk by lia. reflexivity.
Qed.

(** X14.  [parseColor] always returns four components: first the ones the
    text provides, each within [0, 1] (a number above 1 is read on the
    scale of 255), then the components of the fallback they do not replace,
    then ones.  The padding never reads the fallback: the array is already
    as long.  So a text with no number gives the fallback, padded or cut to
    four components, and the result is within [0, 1] when the fallback is. *)
Theorem parseColor_components (parts : list (option Q)) (fallback : list Q) :
  exists out,
    parseColor parts fallback = Some out /\ length out = 4%nat /\
    out = take 4 (readTokens parts ++ drop (length (readTokens parts)) fallback
                  ++ [1; 1; 1; 1]) /\
    (length (readTokens parts) <= 4)%nat /\
    Forall unitInterval (readTokens parts) /\
    (Forall unitInterval fallback -> Forall unitInterval out).
Proof.
  eexists. split; [apply parseColor_spec|].
  assert (Hvs : Forall unitInterval (readTokens parts)).
  { unfold readTokens. apply Forall_take, Forall_fmap, Forall_forall.
    intros v _. apply readToken_unit. }
  split; [|split; [reflexivity|split; [|split; [exact Hvs|]]]].
  - rewrite length_take, !length_app. cbn [length]. lia.
  - unfold readTokens. rewrite length_take. lia.
  - intros Hf. apply Forall_take, Forall_app. split; [exact Hvs|].
    apply Forall_app. split; [apply Forall_drop; exact Hf|].
    repeat constructor; discriminate.
Qed.

(** ** The dialog *)

Lemma readInt_range parsed fallback lo hi :
  (lo <= hi)%Z -> (lo <= readInt parsed fallback (Some lo) (Some hi) <= hi)%Z.
Proof.
  intros H. unfold readInt. destruct parsed; lia.
Qed.

Lemma readInt_nat parsed fallback lo hi :
  (0 <= lo)%Z -> (lo <= hi)%Z ->
  (Z.to_nat lo <= Z.to_nat (readInt parsed fallback (Some lo) (Some hi)) <= Z.to_nat hi)%nat.
Proof.
  intros H0 H. pose proof (readInt_range parsed fallback lo hi H). lia.
Qed.

Lemma readFloat_min parsed fallback lo :
  lo <= readFloat parsed fallback (Some lo) None.
Proof.
  unfold readFloat. apply Q.le_max_l.
Qed.

Lemma readFloat_range parsed fallback lo hi :
  lo <= hi ->
  lo <= readFloat parsed fallback (Some lo) (Some hi) /\
  readFloat parsed fallback (Some lo) (Some hi) <= hi.
Proof.
  intros H. unfold readFloat. split.
  - apply Q.min_glb; [exact H|apply Q.le_max_l].
  - apply Q.le_min_l.
Qed.

Lemma readFloat_keeps v fallback lo :
  lo <= v -> readFloat (Some v) fallback (Some lo) None == v.
Proof.
  intros H. unfold readFloat. apply Q.max_r. exact H.
Qed.

Lemma readFloat_keeps_range v fallback lo hi :
  lo <= v -> v <= hi -> readFloat (Some v) fallback (Some lo) (Some hi) == v.
Proof.
  intros H1 H2. unfold readFloat.
  rewrite (Q.max_r lo v H1). apply Q.min_r. exact H2.
Qed.

Lemma readOptions_range d : dialogRange (readOptions d).
Proof.
  unfold dialogRange, readOptions. cbn [initialLines levels childrenPerNode baseRadius
    radiusStep radiusJitter angleJitter branchSpread circleSize lineWidth lineDuration
    nodeDuration childStagger randomOffset curveTension curveRandomness seed].
  split; [apply (readInt_nat _ _ 1 720); lia|].
  split; [apply (readInt_nat _ _ 1 10); lia|].
  split; [apply (readInt_nat _ _ 1 8); lia|].
  split; [apply readFloat_min|]. split; [apply readFloat_min|].
  split; [apply readFloat_min|]. split; [apply readFloat_min|].
  split; [apply readFloat_range; discriminate|].
  split; [apply readFloat_min|]. split; [apply readFloat_min|].
  split; [apply readFloat_min|]. split; [apply readFloat_min|].
  split; [apply readFloat_min|]. split; [apply Q.le_max_l|].
  split; [apply clamp01_bounds|]. split; [apply clamp01_bounds|].
  apply readInt_range. lia.
Qed.

(** X15.  Whatever the fields of the dialog hold, the options
    [readOptions] returns are within the ranges of the dialog: counts from
    1 to 720, 10 and 8, a base radius of at least 1, durations of at least
    0.05, a spread from 0 to 360, tensions from 0 to 1, no negative jitter,
    step, stagger or offset, and a seed from -2147483647 to 2147483646. *)
Theorem readOptions_in_range (d : Dialog) : dialogRange (readOptions d).
Proof.
  apply readOptions_range.
Qed.

(** X16.  The dialog does not alter a configuration that is within its
    ranges: read back from the fields that show it, every option is the
    same number. *)
Theorem readOptions_round_trip (o : Options) :
  dialogRange o -> sameNumbers (readOptions (dialogOf o)) o.
Proof.
  unfold dialogRange, sameNumbers, readOptions, dialogOf.
  intros (H1 & H2 & H3 & H4 & H5 & H6 & H7 & [H8 H8'] & H9 & H10 & H11 & H12 & H13
          & H14 & [H15 H15'] & [H16 H16'] & H17).
  cbn [initialLines levels childrenPerNode baseRadius radiusStep radiusJitter
       angleJitter branchSpread circleSize lineWidth lineDuration nodeDuration
       childStagger randomOffset curveTension curveRandomness seed make3D
       simultaneousRoot smoothFlow useCurves initialLinesEt levelsEt childrenEt
       baseRadiusEt radiusStepEt radiusJitterEt angleJitterEt branchSpreadEt
       circleSizeEt lineWidthEt lineDurationEt nodeDurationEt childStaggerEt
       randomOffsetEt curveTensionEt curveRandomnessEt seedEt make3DCb
       simultaneousRootCb smoothFlowCb useCurvesCb].
  split; [unfold readInt; lia|]. split; [unfold readInt; lia|].
  split; [unfold readInt; lia|].
  split; [apply readFloat_keeps; exact H4|]. split; [apply readFloat_keeps; exact H5|].
  split; [apply readFloat_keeps; exact H6|]. split; [apply readFloat_keeps; exact H7|].
  split; [apply readFloat_keeps_range; assumption|].
  split; [apply readFloat_keeps; exact H9|]. split; [apply readFloat_keeps; exact H10|].
  split; [apply readFloat_keeps; exact H11|]. split; [apply readFloat_keeps; exact H12|].
  split; [apply readFloat_keeps; exact H13|].
  split. { rewrite (readFloat_keeps _ _ _ H14). apply Q.max_r. exact H14. }
  split. { rewrite (readFloat_keeps _ _ _ H15). apply clamp01_id; assumption. }
  split. { rewrite (readFloat_keeps _ _ _ H16). apply clamp01_id; assumption. }
  split; [unfold readInt; lia|]. auto.
Qed.

Lemma readOptions_round_trip_witness : sameNumbers (readOptions (dialogOf DEFAULTS)) DEFAULTS.
Proof.
  apply (readOptions_round_trip DEFAULTS).
  unfold dialogRange. cbn.
  repeat split; try lia; discriminate.
Defined.

(** ** From the dialog to the timeline *)

Lemma floor_absorbed nd : (5 # 100) <= nd -> Qmax nd (1 # 10000) == nd.
Proof.
  intros H. apply Q.max_l. lra.
Qed.

(** X17.  For every state of the dialog with [smoothFlow] checked the
    run ends, and every node at the end of a line starts with the draw of
    the line and ends at [max(start + nodeDuration, drawEnd)]: the floor
    of 0.0001 on the duration of a node is never reached, the dialog keeps
    [nodeDuration] at 0.05 or above. *)
Theorem dialog_smoothFlow_window (d : Dialog) :
  smoothFlowCb d = true ->
  exists a,
    generateStructure (readOptions d) = Some a /\
    (5 # 100) <= duration a /\
    forall k l n x y,
      lineInfos (timeline a) !! k = Some l -> nodes (timeline a) !! S k = Some n ->
      startTime l = Some x -> endTime l = Some y ->
      animStart n = x /\
      animEnd n == Qmax (x + nodeDuration (readOptions d)) y.
Proof.
  intros Hsmooth.
  set (o := readOptions d).
  destruct (readOptions_range d)
    as (_ & _ & _ & _ & _ & _ & _ & _ & _ & _ & _ & Hnd & _).
  fold o in Hnd.
  assert (Hs : smoothFlow o = true) by exact Hsmooth.
  clearbody o.
  destruct (generateStructure_result o) as (s & Hd & Hc & Hg).
  pose proof (run_maxTime o s Hc) as Hm.
  pose proof (run_windowsSet o s Hc) as Hw.
  destruct (run_invariant o (fun _ _ => True)) with (s := s) as [_ He]; auto.
  destruct (erase_lengths _ _ He) as [_ Hlen].
  assert (HD : totalDuration o (maxTime s) = maxTime s).
  { unfold totalDuration. destruct (Qle_bool (maxTime s) 0) eqn:E; [|reflexivity].
    apply Qle_bool_iff in E. lra. }
  eexists. split; [exact Hg|]. cbn [timeline duration]. rewrite HD.
  split; [lra|].
  intros k l n x y Hl Hn Hx Hy.
  destruct (Hw k) as (l' & n' & a & b & Hl' & Hn' & Ha & Hb & _ & HaS & HaE).
  { apply lookup_lt_Some in Hl. lia. }
  rewrite Hl in Hl'. injection Hl' as <-. rewrite Hn in Hn'. injection Hn' as <-.
  rewrite Hx in Ha. injection Ha as <-. rewrite Hy in Hb. injection Hb as <-.
  unfold childWindow in HaS, HaE.
  rewrite Hs in HaS, HaE. cbn [fst snd] in HaS, HaE.
  split; [exact HaS|]. rewrite HaE.
  pose proof (floor_absorbed (nodeDuration o) Hnd) as HM.
  set (M := Qmax (nodeDuration o) (1 # 10000)) in *.
  destruct (Qlt_bool (x + M) y) eqn:E.
  - apply Qlt_bool_iff in E. symmetry. apply Q.max_r. lra.
  - apply Qlt_bool_false in E.
    destruct (Q.max_spec (x + nodeDuration o) y) as [[H1 H2]|[H1 H2]]; rewrite H2; lra.
Qed.

Lemma dialog_smoothFlow_window_witness :
  exists a, generateStructure (readOptions (dialogOf DEFAULTS)) = Some a /\
            (5 # 100) <= duration a.
Proof.
  destruct (dialog_smoothFlow_window (dialogOf DEFAULTS) eq_refl) as (a & Ha & Hd & _).
  exists a. split; [exact Ha|exact Hd].
Defined.

(** X18.  For every state of the dialog in which [randomOffset] does not
    exceed [nodeDuration] and the seed is not -252645138, the run ends and
    every normalized interval, of a line or of a node, starts at or above
    0, ends at or after its start and at or below 100. *)
Theorem dialog_intervals (d : Dialog) :
  randomOffset (readOptions d) <= nodeDuration (readOptions d) ->
  seed (readOptions d) <> (-252645138)%Z ->
  exists a,
    generateStructure (readOptions d) = Some a /\
    Forall (fun p => exists s e, p = Some (s, e) /\ 0 <= s /\ s <= e /\ e <= 100)
           (lineProgress a) /\
    Forall (Forall (fun p => 0 <= fst p /\ fst p <= snd p /\ snd p <= 100))
           (nodeProgress a).
Proof.
  intros Hsmall Hseed.
  set (o := readOptions d) in *.
  destruct (readOptions_range d)
    as (_ & _ & _ & _ & _ & _ & _ & _ & _ & _ & Hld & Hnd & Hcs & Hro & _ & _ & Hsd).
  fold o in Hld, Hnd, Hcs, Hro, Hsd. clearbody o.
  assert (Hnode : 0 < nodeDuration o) by lra.
  assert (Hline : 0 < lineDuration o) by lra.
  assert (Hvalid : 0 < randomOffset o -> validState (schedulerRng o)).
  { intros _. apply schedulerRng_valid; assumption. }
  destruct (generateStructure_result o) as (s & Hd & Hc & Hg).
  pose proof (run_maxTime o s Hc) as Hm.
  assert (Hpos : 0 < maxTime s) by lra.
  assert (HD : totalDuration o (maxTime s) = maxTime s).
  { unfold totalDuration. destruct (Qle_bool (maxTime s) 0) eqn:E; [|reflexivity].
    apply Qle_bool_iff in E. lra. }
  assert (HDb : Qlt_bool 0 (maxTime s) = true) by (apply Qlt_bool_iff; exact Hpos).
  pose proof (run_boundedAbove o Hnode Hline s Hc) as [HN HL].
  pose proof (run_boundedBelow o Hnode Hline Hcs Hro Hsmall Hvalid s Hc)
    as (_ & _ & HS & HLs).
  destruct (run_invariant o (fun _ _ => True)) with (s := s) as [_ He]; auto.
  destruct (erase_lengths _ _ He) as [_ Hlen].
  eexists. split; [exact Hg|]. cbn [lineProgress nodeProgress]. rewrite HD.
  split.
  - apply Forall_forall. intros p Hp.
    change (map ?f ?l) with (f <$> l) in Hp.
    apply list_elem_of_fmap in Hp as (l & -> & Hl).
    apply list_elem_of_lookup in Hl as (k & Hk).
    destruct (HL k l Hk) as (x & y & Hx & Hy & Hxy & Hym).
    { apply lookup_lt_Some in Hk. lia. }
    exists (x / maxTime s * 100), (y / maxTime s * 100).
    split. { unfold setLineAnimationExpression. rewrite Hx, Hy, HDb. reflexivity. }
    split; [apply normalize_bottom; [assumption|apply (HLs k l x Hk Hx)]|].
    split; [apply normalize_le; assumption|apply normalize_top; assumption].
  - apply Forall_forall. intros ps Hps.
    change (map ?f ?l) with (f <$> l) in Hps.
    apply list_elem_of_fmap in Hps as (refs & -> & _).
    apply Forall_forall. intros p Hp.
    apply list_elem_of_omap in Hp as (ref & _ & Hp).
    destruct (nodes (scene s) !! ref) as [n|] eqn:Hn; [|discriminate].
    simpl in Hp. injection Hp as <-.
    destruct (HN ref n Hn) as [H1 H2].
    unfold setNodeAnimationExpression. rewrite HDb. cbn [fst snd].
    split; [apply normalize_bottom; [assumption|apply (HS ref n Hn)]|].
    split; [apply normalize_le; assumption|apply normalize_top; assumption].
Qed.

Lemma dialog_intervals_witness :
  exists a, generateStructure (readOptions (dialogOf DEFAULTS)) = Some a.
Proof.
  destruct (dialog_intervals (dialogOf DEFAULTS)) as (a & Ha & _).
  - vm_compute. discriminate.
  - vm_compute. discriminate.
  - exists a. exact Ha.
Defined.

(** * The candlestick chart *)

Section CandleFacts.

Variables Math_sin Math_cos : Q -> Q.
Variable Math_random : nat -> Q.

Lemma addCandle_spec s i :
  exists c,
    data (addCandle Math_sin Math_cos Math_random s i) = data s ++ [c] /\
    open c = currentPrice s /\
    currentPrice (addCandle Math_sin Math_cos Math_random s i) = close c /\
    calls (addCandle Math_sin Math_cos Math_random s i) = (3 + calls s)%nat /\
    wellFormed c /\
    close c - open c
    == (Math_random (calls s) - (5 # 10)
        + (Math_sin (inject_Z (Z.of_nat i) / 12) + Math_cos (inject_Z (Z.of_nat i) / 18))
          * (5 # 10) * (1 # 10)) * VOLATILITY /\
    (0 <= Math_random (S (calls s)) ->
     high c == Qmax (open c) (close c) + Math_random (S (calls s)) * (VOLATILITY * (8 # 10))) /\
    (0 <= Math_random (S (S (calls s))) ->
     low c == Qmin (open c) (close c)
              - Math_random (S (S (calls s))) * (VOLATILITY * (8 # 10))).
Proof.
  unfold addCandle.
  set (o := currentPrice s).
  set (cl := o + _ * VOLATILITY).
  set (h := Qmax o cl + _).
  set (l := Qmin o cl - _).
  eexists. cbn [data currentPrice calls].
  split; [reflexivity|]. cbn [open close high low].
  split; [reflexivity|]. split; [reflexivity|]. split; [reflexivity|].
  split; [|split; [|split]].
  - unfold wellFormed. cbn [open close high low]. split.
    + destruct (Qlt_bool (Qmin o cl) l) eqn:E; [apply Qle_refl|].
      apply Qlt_bool_false in E. exact E.
    + destruct (Qlt_bool h (Qmax o cl)) eqn:E; [apply Qle_refl|].
      apply Qlt_bool_false in E. exact E.
  - unfold cl. ring.
  - intros Hr. destruct (Qlt_bool h (Qmax o cl)) eqn:E; [|reflexivity].
    apply Qlt_bool_iff in E. unfold h in E. exfalso.
    unfold VOLATILITY in E.
    set (m := Qmax o cl) in *. clearbody m. nra.
  - intros Hr. destruct (Qlt_bool (Qmin o cl) l) eqn:E; [|reflexivity].
    apply Qlt_bool_iff in E. unfold l in E. exfalso.
    unfold VOLATILITY in E.
    set (m := Qmin o cl) in *. clearbody m. nra.
Qed.

(** What holds of the series after [n] candles. *)
Lemma generateData_inv n :
  let s := generateData Math_sin Math_cos Math_random n in
  length (data s) = n /\ calls s = (3 * n)%nat /\
  currentPrice s = lastClose (data s) /\
  Forall wellFormed (data s) /\
  (forall k c, data s !! k = Some c -> open c = lastClose (take k (data s))).
Proof.
  cbn zeta. unfold generateData. induction n as [|n IH].
  - simpl. repeat split; try reflexivity; [constructor|].
    intros k c Hk. rewrite lookup_nil in Hk. discriminate.
  - rewrite seq_S, foldl_app. cbn [foldl Nat.add].
    set (s := foldl _ _ (seq 0 n)) in *.
    destruct IH as (Hlen & Hcalls & Hcur & Hwf & Hopen).
    destruct (addCandle_spec s n) as (c & Hd & Ho & Hc & Hcl & Hw & _).
    rewrite Hd, Hc, Hcl.
    split; [rewrite length_app; simpl; lia|]. split; [lia|].
    split; [unfold lastClose; rewrite last_snoc; reflexivity|].
    split; [apply Forall_app; split; [exact Hwf|apply Forall_singleton; exact Hw]|].
    intros k c' Hk. apply lookup_app_Some in Hk as [Hk|[Hge Hk]].
    + rewrite take_app_le by (apply lookup_lt_Some in Hk; lia).
      apply Hopen. exact Hk.
    + destruct (k - length (data s))%nat eqn:E; [|destruct n0; discriminate].
      simpl in Hk. injection Hk as <-.
      assert (k = length (data s)) by lia. subst k.
      rewrite take_app_length. congruence.
Qed.

Section Host.

Hypothesis Hrandom : forall k, 0 <= Math_random k /\ Math_random k < 1.
Hypothesis Hsin : forall x, -1 <= Math_sin x /\ Math_sin x <= 1.
Hypothesis Hcos : forall x, -1 <= Math_cos x /\ Math_cos x <= 1.

(** With a host that behaves, the price moves by less than 2.4 per candle
    and a wick exceeds the body by less than 3.2. *)
Lemma generateData_drift n :
  let s := generateData Math_sin Math_cos Math_random n in
  (BASE_PRICE - (24 # 10) * inject_Z (Z.of_nat n) <= currentPrice s /\
   currentPrice s <= BASE_PRICE + (24 # 10) * inject_Z (Z.of_nat n)) /\
  (forall k c, data s !! k = Some c ->
     (BASE_PRICE - (24 # 10) * inject_Z (Z.of_nat k) <= open c /\
      open c <= BASE_PRICE + (24 # 10) * inject_Z (Z.of_nat k)) /\
     (- (24 # 10) <= close c - open c /\ close c - open c < 24 # 10) /\
     high c < Qmax (open c) (close c) + (32 # 10) /\
     Qmin (open c) (close c) - (32 # 10) < low c).
Proof.
  cbn zeta. unfold generateData. induction n as [|n IH].
  - cbn [seq foldl currentPrice data]. change (inject_Z (Z.of_nat 0)) with 0.
    split; [split; unfold BASE_PRICE; lra|].
    intros k c Hk. rewrite lookup_nil in Hk. discriminate.
  - rewrite seq_S, foldl_app. cbn [foldl Nat.add].
    set (s := foldl _ _ (seq 0 n)) in *.
    destruct IH as ([Hlo Hhi] & Hall).
    pose proof (generateData_inv n) as (Hlen & _).
    unfold generateData in Hlen. fold s in Hlen.
    destruct (addCandle_spec s n) as (c & Hd & Ho & Hc & _ & _ & Hmove & Hh & Hl).
    destruct (Hrandom (calls s)) as [R1 R1'].
    destruct (Hrandom (S (calls s))) as [R2 R2'].
    destruct (Hrandom (S (S (calls s)))) as [R3 R3'].
    destruct (Hsin (inject_Z (Z.of_nat n) / 12)) as [S1 S2].
    destruct (Hcos (inject_Z (Z.of_nat n) / 18)) as [C1 C2].
    specialize (Hh R2). specialize (Hl R3).
    unfold VOLATILITY in Hmove, Hh, Hl.
    set (sv := Math_sin (inject_Z (Z.of_nat n) / 12)) in *.
    set (cv := Math_cos (inject_Z (Z.of_nat n) / 18)) in *.
    set (r1 := Math_random (calls s)) in *.
    set (r2 := Math_random (S (calls s))) in *.
    set (r3 := Math_random (S (S (calls s)))) in *.
    assert (HSn : inject_Z (Z.of_nat (S n)) == inject_Z (Z.of_nat n) + 1).
    { rewrite Nat2Z.inj_succ. unfold Z.succ. rewrite inject_Z_plus. reflexivity. }
    assert (Hstep : - (24 # 10) <= close c - open c /\ close c - open c < 24 # 10).
    { clearbody sv cv r1. split; lra. }
    rewrite Hd, Hc. split.
    + rewrite HSn. rewrite <- Ho in Hlo, Hhi. destruct Hstep. split; lra.
    + intros k c' Hk. apply lookup_app_Some in Hk as [Hk|[Hge Hk]].
      * apply Hall. exact Hk.
      * destruct (k - length (data s))%nat eqn:E; [|destruct n0; discriminate].
        simpl in Hk. injection Hk as <-.
        assert (k = n) by lia. subst k.
        rewrite <- Ho in Hlo, Hhi.
        split; [split; assumption|]. split; [exact Hstep|].
        set (M := Qmax (open c) (close c)) in *.
        set (m := Qmin (open c) (close c)) in *.
        clearbody M m r2 r3. split; lra.
Qed.

End Host.

End CandleFacts.

(** X19.  Whatever [Math.random], [Math.sin] and [Math.cos] return, the
    series has one candle per turn and takes three random numbers per
    candle; the wick of every candle covers its body
    ([low <= min(open, close)] and [max(open, close) <= high]); the first
    candle opens at the base price and every other candle opens where the
    candle before it closed. *)
Theorem generateData_candles (Math_sin Math_cos : Q -> Q) (Math_random : nat -> Q)
    (n : nat) :
  let s := generateData Math_sin Math_cos Math_random n in
  length (data s) = n /\ calls s = (3 * n)%nat /\
  Forall wellFormed (data s) /\
  (forall c, data s !! 0%nat = Some c -> open c = BASE_PRICE) /\
  (forall k c c', data s !! k = Some c -> data s !! S k = Some c' ->
     open c' = close c) /\
  currentPrice s = lastClose (data s).
Proof.
  cbn zeta.
  destruct (generateData_inv Math_sin Math_cos Math_random n)
    as (Hlen & Hcalls & Hcur & Hwf & Hopen).
  split; [exact Hlen|]. split; [exact Hcalls|]. split; [exact Hwf|].
  split; [|split; [|exact Hcur]].
  - intros c Hc. rewrite (Hopen _ _ Hc). reflexivity.
  - intros k c c' Hc Hc'. rewrite (Hopen _ _ Hc').
    rewrite (take_S_r _ _ _ Hc). unfold lastClose. rewrite last_snoc. reflexivity.
Qed.

(** X20.  When [Math.random] returns numbers of [0, 1) and the sine and
    cosine numbers of [-1, 1], a candle closes less than 2.4 away from
    where it opens, its wick exceeds its body by less than 3.2 on either
    side, and the candle at position [k] opens within [2.4 * k] of the base
    price: the 120 candles of the chart keep every price between 1708.8
    and 2291.2. *)
Theorem generateData_bounded (Math_sin Math_cos : Q -> Q) (Math_random : nat -> Q) :
  (forall k, 0 <= Math_random k /\ Math_random k < 1) ->
  (forall x, -1 <= Math_sin x /\ Math_sin x <= 1) ->
  (forall x, -1 <= Math_cos x /\ Math_cos x <= 1) ->
  forall n k c,
    data (generateData Math_sin Math_cos Math_random n) !! k = Some c ->
    (BASE_PRICE - (24 # 10) * inject_Z (Z.of_nat k) <= open c /\
     open c <= BASE_PRICE + (24 # 10) * inject_Z (Z.of_nat k)) /\
    (- (24 # 10) <= close c - open c /\ close c - open c < 24 # 10) /\
    high c < Qmax (open c) (close c) + (32 # 10) /\
    Qmin (open c) (close c) - (32 # 10) < low c /\
    (n = NUM_CANDLES -> (17088 # 10) < low c /\ high c < (22912 # 10)).
Proof.
  intros Hr Hs Hc n k c Hk.
  destruct (generateData_drift Math_sin Math_cos Math_random Hr Hs Hc n) as [_ Hall].
  destruct (Hall k c Hk) as ([H1 H2] & [H3 H4] & H5 & H6).
  split; [split; assumption|]. split; [split; assumption|].
  split; [exact H5|]. split; [exact H6|].
  intros ->.
  destruct (generateData_inv Math_sin Math_cos Math_random NUM_CANDLES) as (Hlen & _).
  apply lookup_lt_Some in Hk. rewrite Hlen in Hk. unfold NUM_CANDLES in Hk.
  assert (Hk0 : 0 <= inject_Z (Z.of_nat k))
    by (change 0 with (inject_Z 0); rewrite <- Zle_Qle; lia).
  assert (Hk1 : inject_Z (Z.of_nat k) <= 119)
    by (change 119 with (inject_Z 119); rewrite <- Zle_Qle; lia).
  unfold BASE_PRICE in H1, H2.
  destruct (Q.max_spec (open c) (close c)) as [[_ HM]|[_ HM]];
  destruct (Q.min_spec (open c) (close c)) as [[_ Hm]|[_ Hm]];
  rewrite HM in H5; rewrite Hm in H6; split; lra.
Qed.

Lemma generateData_bounded_witness :
  exists c,
    data (generateData (fun _ => 0) (fun _ => 1) (fun _ => 1 # 2) 1) !! 0%nat = Some c /\
    high c < Qmax (open c) (close c) + (32 # 10).
Proof.
  eexists. split; [reflexivity|].
  refine (proj1 (proj2 (proj2
            (generateData_bounded (fun _ => 0) (fun _ => 1) (fun _ => 1 # 2)
               _ _ _ 1%nat 0%nat _ eq_refl)))).
  - intros k. split; [discriminate|reflexivity].
  - intros x. split; discriminate.
  - intros x. split; discriminate.
Defined.

(** ** The range of the prices *)

Lemma scanPrice_fold data :
  forall mn mx,
    let r := foldl scanPrice (mn, mx) data in
    (fst r <= mn /\ mx <= snd r) /\
    (forall c, c ∈ data -> fst r <= low c /\ high c <= snd r) /\
    (fst r = mn \/ exists c, c ∈ data /\ low c = fst r) /\
    (snd r = mx \/ exists c, c ∈ data /\ high c = snd r).
Proof.
  induction data as [|c0 data IH]; intros mn mx; cbn zeta.
  - simpl. split; [split; apply Qle_refl|]. split; [|auto].
    intros c Hc. inversion Hc.
  - cbn [foldl].
    set (mn' := fst (scanPrice (mn, mx) c0)).
    set (mx' := snd (scanPrice (mn, mx) c0)).
    assert (Hpair : scanPrice (mn, mx) c0 = (mn', mx')) by reflexivity.
    rewrite Hpair.
    assert (Hmn : mn' <= mn /\ mn' <= low c0 /\ (mn' = mn \/ mn' = low c0)).
    { unfold mn', scanPrice. cbn [fst snd].
      destruct (Qlt_bool (low c0) mn) eqn:E.
      - apply Qlt_bool_iff in E. split; [lra|]. split; [apply Qle_refl|auto].
      - apply Qlt_bool_false in E. split; [apply Qle_refl|]. split; [exact E|auto]. }
    assert (Hmx : mx <= mx' /\ high c0 <= mx' /\ (mx' = mx \/ mx' = high c0)).
    { unfold mx', scanPrice. cbn [fst snd].
      destruct (Qlt_bool mx (high c0)) eqn:E.
      - apply Qlt_bool_iff in E. split; [lra|]. split; [apply Qle_refl|auto].
      - apply Qlt_bool_false in E. split; [apply Qle_refl|]. split; [exact E|auto]. }
    clearbody mn' mx'.
    destruct (IH mn' mx') as ([H1 H2] & Hall & Hlo & Hhi). cbn zeta in *.
    set (r := foldl scanPrice (mn', mx') data) in *. clearbody r.
    destruct Hmn as (Ha & Hb & Hc). destruct Hmx as (Ha' & Hb' & Hc').
    split; [split; lra|]. split; [|split].
    + intros c Hin. apply elem_of_cons in Hin as [->|Hin]; [split; lra|].
      apply Hall. exact Hin.
    + destruct Hlo as [Hlo|(c & Hin & Hlo)].
      * destruct Hc as [Hc|Hc]; [left; congruence|].
        right. exists c0. split; [apply elem_of_cons; auto|congruence].
      * right. exists c. split; [apply elem_of_cons; auto|exact Hlo].
    + destruct Hhi as [Hhi|(c & Hin & Hhi)].
      * destruct Hc' as [Hc'|Hc']; [left; congruence|].
        right. exists c0. split; [apply elem_of_cons; auto|congruence].
      * right. exists c. split; [apply elem_of_cons; auto|exact Hhi].
Qed.

(** X21.  On a series that is not empty the scan returns the lowest [low]
    and the highest [high]: no candle goes below the first or above the
    second, each is the price of some candle, and the first is at most the
    second as soon as the first candle is well formed.  On an empty series
    there is nothing to return. *)
Theorem priceRange_extremes (first : Candle) (rest : list Candle) :
  priceRange [] = None /\
  exists minPrice maxPrice,
    priceRange (first :: rest) = Some (minPrice, maxPrice) /\
    (forall c, c ∈ first :: rest -> minPrice <= low c /\ high c <= maxPrice) /\
    (exists c, c ∈ first :: rest /\ low c = minPrice) /\
    (exists c, c ∈ first :: rest /\ high c = maxPrice) /\
    (wellFormed first -> minPrice <= maxPrice).
Proof.
  split; [reflexivity|].
  destruct (scanPrice_fold (first :: rest) (low first) (high first))
    as ([H1 H2] & Hall & Hlo & Hhi).
  cbn zeta in *. unfold priceRange.
  set (r := foldl scanPrice (low first, high first) (first :: rest)) in *.
  exists (fst r), (snd r). split; [destruct r; reflexivity|].
  split; [exact Hall|]. split; [|split].
  - destruct Hlo as [Hlo|Hlo]; [|exact Hlo].
    exists first. split; [apply elem_of_cons; auto|congruence].
  - destruct Hhi as [Hhi|Hhi]; [|exact Hhi].
    exists first. split; [apply elem_of_cons; auto|congruence].
  - intros [Hw1 Hw2].
    pose proof (Q.le_min_l (open first) (close first)).
    pose proof (Q.le_max_l (open first) (close first)). lra.
Qed.

(** ** Layer names *)

Lemma length_zeros k str :
  String.length (zeros k str) = (k + String.length str)%nat.
Proof.
  induction k as [|k IH]; simpl; [reflexivity|]. rewrite IH. reflexivity.
Qed.

Lemma padLoop_spec digits :
  forall fuel str,
    (digits - String.length str <= fuel)%nat ->
    padLoop fuel str digits = Some (zeros (digits - String.length str) str).
Proof.
  induction fuel as [|fuel IH]; intros str Hfuel; simpl.
  - destruct (String.length str <? digits)%nat eqn:E.
    + apply Nat.ltb_lt in E. lia.
    + replace (digits - String.length str)%nat with 0%nat by lia. reflexivity.
  - destruct (String.length str <? digits)%nat eqn:E.
    + apply Nat.ltb_lt in E. rewrite IH by (simpl; lia). simpl. f_equal.
      replace (digits - String.length str)%nat
        with (S (digits - S (String.length str))) by lia.
      generalize (digits - S (String.length str))%nat. intros k.
      induction k as [|k IHk]; simpl; [reflexivity|]. rewrite IHk. reflexivity.
    + apply Nat.ltb_ge in E.
      replace (digits - String.length str)%nat with 0%nat by lia. reflexivity.
Qed.

Lemma parseDecimal_zeros k number :
  parseDecimal (zeros k (toString number)) = Some number.
Proof.
  unfold parseDecimal, toString.
  assert (H : forall k d,
            DecimalString.NilEmpty.uint_of_string
              (zeros k (DecimalString.NilEmpty.string_of_uint d))
            = Some (Nat.iter k Decimal.D0 d)).
  { clear. induction k as [|k IH]; intros d; simpl.
    - apply DecimalString.NilEmpty.usu.
    - rewrite IH. reflexivity. }
  rewrite H. simpl. f_equal.
  induction k as [|k IH]; simpl.
  - apply DecimalNat.Unsigned.of_to.
  - exact IH.
Qed.

Lemma pad_spec number digits :
  pad number digits
  = Some (zeros (digits - String.length (toString number)) (toString number)).
Proof.
  unfold pad. apply padLoop_spec. lia.
Qed.

(** X22.  [pad] returns the decimal writing of the number behind as many
    zeros as it takes to reach [digits] characters, and none when the
    writing is long enough; the result reads back as the number, so two
    numbers never get the same padded writing. *)
Theorem pad_reads_back (number digits : nat) :
  exists str,
    pad number digits = Some str /\
    str = zeros (digits - String.length (toString number)) (toString number) /\
    String.length str = Nat.max digits (String.length (toString number)) /\
    parseDecimal str = Some number /\
    forall other, pad other digits = Some str -> other = number.
Proof.
  eexists. split; [apply pad_spec|]. split; [reflexivity|].
  split; [rewrite length_zeros; lia|].
  split; [apply parseDecimal_zeros|].
  intros other Ho. rewrite pad_spec in Ho. injection Ho as Ho.
  pose proof (parseDecimal_zeros (digits - String.length (toString other)) other) as H1.
  rewrite Ho, parseDecimal_zeros in H1. congruence.
Qed.

(** X23.  For each of the first 999 candles, hence for the 120 of the
    chart, the name of the candle's layer is the name under which the
    price readout looks the layer up.  The thousandth candle is the first
    for which the two differ: the readout keeps three characters. *)
Theorem candle_names_agree :
  (forall c, (c < 999)%nat -> candleName c = Some (readoutName c)) /\
  candleName 999 <> Some (readoutName 999).
Proof.
  split; [|vm_compute; discriminate].
  intros c Hc.
  assert (H : forallb (fun c => match candleName c with
                                | Some name => String.eqb name (readoutName c)
                                | None => false
                                end) (seq 0 999) = true)
    by (vm_compute; reflexivity).
  rewrite forallb_forall in H. specialize (H c).
  destruct (candleName c) as [name|].
  - f_equal. apply String.eqb_eq. apply H. apply in_seq. lia.
  - discriminate H. apply in_seq. lia.
Qed.
